(** * jotai-statewatch: watcher, fan-in aggregator and interval callback

    A shallow embedding of [singleAtomWatcher.ts], [createFanInAggregator.ts]
    and [intervalCallback.ts].  JavaScript closures become records of their
    captured variables, the host (store, microtask queue, timers, logger)
    becomes explicit state, and user supplied functions become state
    transformers over an abstract user state that also say how the call
    settles. *)

From Stdlib Require Import ZArith List Bool Lia.
From stdpp Require Import gmap strings list fin_maps.

(** ** JavaScript values and completions *)

(** The values the watchers carry around.  [JsUndefined] is JavaScript's
    [undefined]: it is what an optional field holds when it is absent and
    what [Map.prototype.get] returns for a missing key. *)
Inductive JsValue : Type :=
| JsUndefined
| JsNull
| JsBool (b : bool)
| JsNum (n : Z)
| JsStr (s : string).

#[global] Instance JsValue_eq_dec : EqDecision JsValue.
Proof. solve_decision. Defined.

(** [Map.prototype.get]: [undefined] when the key is missing. *)
Definition map_get (m : gmap string JsValue) (k : string) : JsValue :=
  default JsUndefined (m !! k).

(** types.ts, [WatcherEvent]. *)
Record WatcherEvent : Type := mkEvent {
  id : string;
  current : JsValue;
  previous : JsValue;
  isInitial : bool;
  isChanged : bool;
}.

#[global] Instance WatcherEvent_eq_dec : EqDecision WatcherEvent.
Proof. solve_decision. Defined.

(** The events object handed to a user callback ([EventsFor]): a plain
    object keyed by watcher id. *)
Abbreviation EventsObject := (gmap string WatcherEvent).

(** types.ts, [LoggerLike]: a message followed by positional arguments. *)
Inductive LogArg : Type :=
| ArgValue (v : JsValue)
| ArgEvents (eventsObject : EventsObject)
| ArgDispatch (callbacks : nat) (event : WatcherEvent).

Inductive LogLevel : Type := Info | Debug | Error.

Record LogEntry : Type := mkLog {
  level : LogLevel;
  message : string;
  args : list LogArg;
}.

(** How a call to a user supplied function ends.  A function typed
    [void | Promise<void>] may return a plain value, return a promise that
    is fulfilled or rejected, or throw before returning anything. *)
Inductive Outcome (A : Type) : Type :=
| Returns (a : A)
| Resolves (a : A)
| Rejects (err : JsValue)
| Throws (err : JsValue).
Arguments Returns {A} a.
Arguments Resolves {A} a.
Arguments Rejects {A} err.
Arguments Throws {A} err.

(** The value a call settles to, if it does not fail. *)
Definition settled {A : Type} (o : Outcome A) : option A :=
  match o with
  | Returns a | Resolves a => Some a
  | Rejects _ | Throws _ => None
  end.

(** The error a call ends with, if any: a throw or a rejection. *)
Definition failure {A : Type} (o : Outcome A) : option JsValue :=
  match o with
  | Rejects err | Throws err => Some err
  | Returns _ | Resolves _ => None
  end.

(** A statement either completes normally or abruptly with a thrown value. *)
Inductive Completion (A : Type) : Type :=
| Normal (a : A)
| Abrupt (err : JsValue).
Arguments Normal {A} a.
Arguments Abrupt {A} err.

(** State and exception monad for the bodies of the embedded functions. *)
Module Js.

Definition M (S A : Type) : Type := S -> S * Completion A.

Definition ret {S A} (a : A) : M S A := fun s => (s, Normal a).

Definition throw {S A} (err : JsValue) : M S A := fun s => (s, Abrupt err).

Definition bind {S A B} (c : M S A) (k : A -> M S B) : M S B :=
  fun s =>
    match c s with
    | (s', Normal a) => k a s'
    | (s', Abrupt err) => (s', Abrupt err)
    end.

Definition gets {S A} (f : S -> A) : M S A := fun s => (s, Normal (f s)).

Definition modify {S} (f : S -> S) : M S unit := fun s => (f s, Normal tt).

(** [try { body } catch (err) { handler(err) }] *)
Definition try_catch {S A} (body : M S A) (handler : JsValue -> M S A) : M S A :=
  fun s =>
    match body s with
    | (s', Normal a) => (s', Normal a)
    | (s', Abrupt err) => handler err s'
    end.

(** [try { body } finally { fin }], for a [fin] that completes normally. *)
Definition try_finally {S A} (body : M S A) (fin : S -> S) : M S A :=
  fun s => let '(s', r) := body s in (fin s', r).

(** [for (const x of xs) { body(x) }]: an abrupt completion of the body
    leaves the loop. *)
Fixpoint for_of {S X} (xs : list X) (body : X -> M S unit) : M S unit :=
  match xs with
  | [] => ret tt
  | x :: rest => bind (body x) (fun _ => for_of rest body)
  end.

(** [await (call)]: the value of a plain return or of a fulfilled promise;
    a synchronous throw and a rejected promise both raise at the [await]. *)
Definition await {S A} (o : Outcome A) : M S A :=
  match o with
  | Returns a | Resolves a => ret a
  | Rejects err | Throws err => throw err
  end.

End Js.

Notation "'do' x <- c ; k" := (Js.bind c (fun x => k))
  (at level 10, x name, c at level 100, k at level 200).
Notation "c ;; k" := (Js.bind c (fun _ => k))
  (at level 100, k at level 200, right associativity).

(** ** createFanInAggregator.ts *)

Module FanIn.

(** Deferred jobs of the aggregator on the host's microtask queue:
    [queueMicrotask(flush)] and the reaction of [.catch(...)] on a rejected
    callback promise. *)
Inductive Microtask : Type :=
| MtFlush
| MtCatch (err : JsValue).

#[global] Instance Microtask_eq_dec : EqDecision Microtask.
Proof. solve_decision. Defined.

Section Aggregator.

(** State of the user's program, touched only by the user callback. *)
Variable U : Type.

(** [cfgKey], [cfg.watchers] and [cfg.callback]. *)
Variable name : string.
Variable watchers : list string.
Variable callback : EventsObject -> U -> U * Outcome unit.

(** The closure variables [queued], [lastValues], [flushScheduled] and the
    host around them. *)
Record Runtime : Type := mkRuntime {
  queued : gmap string WatcherEvent;
  lastValues : gmap string JsValue;
  flushScheduled : bool;
  (** [watchers[key].getCurrentValue()], a live read of each source, for
      sources whose read returns; [LiveFanIn] adds the reads that throw *)
  getCurrentValue : string -> JsValue;
  (** the host's microtask queue, oldest first *)
  microtasks : list Microtask;
  (** logger calls, oldest first *)
  logs : list LogEntry;
  (** arguments of the [cfg.callback] invocations, oldest first *)
  delivered : list EventsObject;
  (** errors that reached the host from a microtask *)
  uncaught : list JsValue;
  user : U;
}.

Definition set_queued (q : gmap string WatcherEvent) (rt : Runtime) : Runtime :=
  mkRuntime q (lastValues rt) (flushScheduled rt) (getCurrentValue rt)
    (microtasks rt) (logs rt) (delivered rt) (uncaught rt) (user rt).

Definition set_lastValues (lv : gmap string JsValue) (rt : Runtime) : Runtime :=
  mkRuntime (queued rt) lv (flushScheduled rt) (getCurrentValue rt)
    (microtasks rt) (logs rt) (delivered rt) (uncaught rt) (user rt).

Definition set_flushScheduled (b : bool) (rt : Runtime) : Runtime :=
  mkRuntime (queued rt) (lastValues rt) b (getCurrentValue rt)
    (microtasks rt) (logs rt) (delivered rt) (uncaught rt) (user rt).

Definition set_microtasks (q : list Microtask) (rt : Runtime) : Runtime :=
  mkRuntime (queued rt) (lastValues rt) (flushScheduled rt) (getCurrentValue rt)
    q (logs rt) (delivered rt) (uncaught rt) (user rt).

Definition queueMicrotask (t : Microtask) (rt : Runtime) : Runtime :=
  set_microtasks (microtasks rt ++ [t]) rt.

Definition logger (l : LogLevel) (msg : string) (a : list LogArg)
    (rt : Runtime) : Runtime :=
  mkRuntime (queued rt) (lastValues rt) (flushScheduled rt) (getCurrentValue rt)
    (microtasks rt) (logs rt ++ [mkLog l msg a]) (delivered rt) (uncaught rt)
    (user rt).

Definition report_uncaught (err : JsValue) (rt : Runtime) : Runtime :=
  mkRuntime (queued rt) (lastValues rt) (flushScheduled rt) (getCurrentValue rt)
    (microtasks rt) (logs rt) (delivered rt) (uncaught rt ++ [err]) (user rt).

(** The source changes under the aggregator's feet: only the store is
    touched. *)
Definition set_source (k : string) (v : JsValue) (rt : Runtime) : Runtime :=
  mkRuntime (queued rt) (lastValues rt) (flushScheduled rt)
    (fun k' => if decide (k' = k) then v else getCurrentValue rt k')
    (microtasks rt) (logs rt) (delivered rt) (uncaught rt) (user rt).

(** Calling [cfg.callback(eventsObject)]. *)
Definition call_callback (eventsObject : EventsObject) : Js.M Runtime (Outcome unit) :=
  fun rt =>
    let '(u, o) := callback eventsObject (user rt) in
    (mkRuntime (queued rt) (lastValues rt) (flushScheduled rt) (getCurrentValue rt)
       (microtasks rt) (logs rt) (delivered rt ++ [eventsObject]) (uncaught rt) u,
     Normal o).

(** The no-op event synthesised for a watcher that did not emit. *)
Definition noop_event (k : string) (cur prev : JsValue) : WatcherEvent :=
  {| id := k; current := cur; previous := prev;
     isInitial := false; isChanged := false |}.

(** One iteration of [cfg.watchers.forEach] in [flush], on the pair
    ([eventsObject], [lastValues]). *)
Definition flush_key (q : gmap string WatcherEvent) (read : string -> JsValue)
    (acc : EventsObject * gmap string JsValue) (k : string)
    : EventsObject * gmap string JsValue :=
  match q !! k with
  | Some queuedEvent =>
      (<[k := queuedEvent]> (fst acc), <[k := current queuedEvent]> (snd acc))
  | None =>
      let cur := read k in
      (<[k := noop_event k cur (map_get (snd acc) k)]> (fst acc),
       <[k := cur]> (snd acc))
  end.

Definition flush_keys (q : gmap string WatcherEvent) (read : string -> JsValue)
    (lv : gmap string JsValue) (ks : list string)
    : EventsObject * gmap string JsValue :=
  foldl (flush_key q read) (∅, lv) ks.

(** [Promise.resolve(cfg.callback(eventsObject)).catch(err => logger.error(...))]:
    a throw of the call itself leaves the expression; a rejected promise
    queues the [catch] reaction. *)
Definition settle_callback (o : Outcome unit) : Js.M Runtime unit :=
  match o with
  | Returns _ | Resolves _ => Js.ret tt
  | Rejects err => Js.modify (queueMicrotask (MtCatch err))
  | Throws err => Js.throw err
  end.

Definition flush : Js.M Runtime unit :=
  Js.modify (set_flushScheduled false) ;;
  do q <- Js.gets queued ;
  do lv <- Js.gets lastValues ;
  do read <- Js.gets getCurrentValue ;
  let '(eventsObject, lv') := flush_keys q read lv watchers in
  Js.modify (set_lastValues lv') ;;
  Js.modify (set_queued ∅) ;;
  Js.modify (logger Info ("Executing user callback " +:+ name) []) ;;
  Js.modify (logger Debug ("Executing user callback " +:+ name)
               [ArgEvents eventsObject]) ;;
  do o <- call_callback eventsObject ;
  settle_callback o.

Definition fanIn (event : WatcherEvent) : Js.M Runtime unit :=
  Js.modify (fun rt => set_queued (<[id event := event]> (queued rt)) rt) ;;
  Js.modify (fun rt =>
    set_lastValues (<[id event := current event]> (lastValues rt)) rt) ;;
  do scheduled <- Js.gets flushScheduled ;
  if negb scheduled then
    Js.modify (set_flushScheduled true) ;;
    Js.modify (queueMicrotask MtFlush)
  else Js.ret tt.

Definition dispose : Js.M Runtime unit :=
  do scheduled <- Js.gets flushScheduled ;
  (if scheduled then flush else Js.ret tt) ;;
  Js.modify (set_queued ∅) ;;
  Js.modify (set_lastValues ∅).

(** The host runs the oldest microtask; an error thrown by the job goes to
    the host's uncaught-error report. *)
Definition run_job (t : Microtask) : Js.M Runtime unit :=
  match t with
  | MtFlush => flush
  | MtCatch err =>
      Js.modify (logger Error ("Error executing user callback " +:+ name)
                   [ArgValue err])
  end.

Definition run_microtask (rt : Runtime) : Runtime :=
  match microtasks rt with
  | [] => rt
  | t :: rest =>
      match run_job t (set_microtasks rest rt) with
      | (rt', Normal _) => rt'
      | (rt', Abrupt err) => report_uncaught err rt'
      end
  end.

Fixpoint run_microtasks (fuel : nat) (rt : Runtime) : Runtime :=
  match fuel with
  | O => rt
  | S fuel' =>
      match microtasks rt with
      | [] => rt
      | _ :: _ => run_microtasks fuel' (run_microtask rt)
      end
  end.

(** The microtask checkpoint at the end of a synchronous turn: every job
    queues at most one further job, which queues none. *)
Definition checkpoint (rt : Runtime) : Runtime :=
  run_microtasks (2 * length (microtasks rt)) rt.

(** A synchronous burst of [fanIn] calls. *)
Definition burst (events : list WatcherEvent) : Js.M Runtime unit :=
  Js.for_of events fanIn.

(** *** Building the events object *)

(** What [flush] puts under key [k]: the queued event, or the no-op event
    made from a live read and the last value seen. *)
Definition entry (q : gmap string WatcherEvent) (read : string -> JsValue)
    (lv : gmap string JsValue) (k : string) : WatcherEvent :=
  match q !! k with
  | Some queuedEvent => queuedEvent
  | None => noop_event k (read k) (map_get lv k)
  end.

Lemma flush_key_other q read acc k k' :
  k ≠ k' ->
  (flush_key q read acc k).1 !! k' = acc.1 !! k' /\
  (flush_key q read acc k).2 !! k' = acc.2 !! k'.
Proof.
  intros Hne. unfold flush_key.
  destruct (q !! k); simpl; rewrite !lookup_insert_ne; auto.
Qed.

Lemma flush_key_same q read acc k :
  (flush_key q read acc k).1 !! k = Some (entry q read acc.2 k).
Proof.
  unfold flush_key, entry.
  destruct (q !! k); simpl; by rewrite lookup_insert_eq.
Qed.

Lemma foldl_flush_key_notin q read ks : forall acc k,
  k ∉ ks ->
  (foldl (flush_key q read) acc ks).1 !! k = acc.1 !! k /\
  (foldl (flush_key q read) acc ks).2 !! k = acc.2 !! k.
Proof.
  induction ks as [|k0 ks IH]; intros acc k Hnotin; simpl; [done|].
  apply not_elem_of_cons in Hnotin as [Hne Hnotin].
  destruct (IH (flush_key q read acc k0) k Hnotin) as [-> ->].
  apply flush_key_other. congruence.
Qed.

Lemma foldl_flush_key_in q read ks : forall acc k,
  NoDup ks -> k ∈ ks ->
  (foldl (flush_key q read) acc ks).1 !! k = Some (entry q read acc.2 k).
Proof.
  induction ks as [|k0 ks IH]; intros acc k Hnd Hin; simpl.
  - by apply elem_of_nil in Hin.
  - apply NoDup_cons in Hnd as [Hk0 Hnd].
    apply elem_of_cons in Hin as [-> | Hin].
    + destruct (foldl_flush_key_notin q read ks (flush_key q read acc k0) k0 Hk0)
        as [-> _].
      apply flush_key_same.
    + rewrite (IH _ _ Hnd Hin). f_equal.
      assert (k0 ≠ k) as Hne by (intros ->; contradiction).
      unfold entry.
      destruct (q !! k); [done|]. f_equal. unfold map_get.
      by destruct (flush_key_other q read acc k0 k Hne) as [_ ->].
Qed.

(** A queued event is copied as it is, whatever the order and the
    multiplicity of the keys. *)
Lemma foldl_flush_key_queued q read ks : forall acc k e,
  k ∈ ks -> q !! k = Some e ->
  (foldl (flush_key q read) acc ks).1 !! k = Some e.
Proof.
  induction ks as [|k0 ks IH]; intros acc k e Hin Hq; simpl.
  - by apply elem_of_nil in Hin.
  - destruct (decide (k ∈ ks)) as [Hin'|Hnotin]; [by eapply IH|].
    apply elem_of_cons in Hin as [-> | Hin]; [|contradiction].
    destruct (foldl_flush_key_notin q read ks (flush_key q read acc k0) k0 Hnotin)
      as [-> _].
    rewrite flush_key_same. unfold entry. by rewrite Hq.
Qed.

Lemma foldl_flush_key_dom q read ks : forall acc,
  dom (foldl (flush_key q read) acc ks).1 = dom acc.1 ∪ list_to_set ks.
Proof.
  induction ks as [|k0 ks IH]; intros acc; simpl.
  - by rewrite union_empty_r_L.
  - rewrite IH.
    assert (dom (flush_key q read acc k0).1 = {[k0]} ∪ dom acc.1) as ->.
    { unfold flush_key. destruct (q !! k0); simpl; apply dom_insert_L. }
    rewrite (union_comm_L {[k0]} (dom acc.1)). by rewrite union_assoc_L.
Qed.

(** The events object of a flush in runtime [rt]. *)
Definition snapshot (rt : Runtime) : EventsObject :=
  (flush_keys (queued rt) (getCurrentValue rt) (lastValues rt) watchers).1.

Lemma snapshot_dom rt : dom (snapshot rt) = list_to_set watchers.
Proof.
  unfold snapshot, flush_keys. rewrite foldl_flush_key_dom. simpl.
  by rewrite dom_empty_L, union_empty_l_L.
Qed.

Lemma snapshot_size rt : NoDup watchers -> size (snapshot rt) = length watchers.
Proof.
  intros Hnd. rewrite <- size_dom, snapshot_dom. by apply size_list_to_set.
Qed.

Lemma snapshot_lookup rt k :
  NoDup watchers -> k ∈ watchers ->
  snapshot rt !! k =
    Some (entry (queued rt) (getCurrentValue rt) (lastValues rt) k).
Proof. intros Hnd Hin. unfold snapshot, flush_keys. by rewrite foldl_flush_key_in. Qed.

Lemma snapshot_lookup_queued rt k e :
  k ∈ watchers -> queued rt !! k = Some e -> snapshot rt !! k = Some e.
Proof. intros Hin Hq. unfold snapshot, flush_keys. by eapply foldl_flush_key_queued. Qed.

(** [flush] calls the callback once, with [snapshot rt]. *)
Lemma flush_delivered rt :
  delivered (flush rt).1 = delivered rt ++ [snapshot rt].
Proof.
  unfold flush, snapshot, Js.bind, Js.modify, Js.gets, call_callback. simpl.
  destruct (flush_keys _ _ _ _) as [eo lv'] eqn:Hfk. simpl.
  destruct (callback eo (user rt)) as [u o]. simpl.
  destruct o; reflexivity.
Qed.

(** After a flush the cache holds, for every declared key, the [current]
    of the entry that was delivered, real or synthetic. *)
Lemma foldl_flush_key_cache q read ks : forall acc k,
  NoDup ks -> k ∈ ks ->
  (foldl (flush_key q read) acc ks).2 !! k =
    Some (current (entry q read acc.2 k)).
Proof.
  induction ks as [|k0 ks IH]; intros acc k Hnd Hin; simpl.
  - by apply elem_of_nil in Hin.
  - apply NoDup_cons in Hnd as [Hk0 Hnd].
    apply elem_of_cons in Hin as [-> | Hin].
    + destruct (foldl_flush_key_notin q read ks (flush_key q read acc k0) k0 Hk0)
        as [_ ->].
      unfold flush_key, entry.
      destruct (q !! k0); simpl; by rewrite lookup_insert_eq.
    + rewrite (IH _ _ Hnd Hin). do 2 f_equal.
      assert (k0 ≠ k) as Hne by (intros ->; contradiction).
      unfold entry.
      destruct (q !! k); [done|]. f_equal. unfold map_get.
      by destruct (flush_key_other q read acc k0 k Hne) as [_ ->].
Qed.

Lemma flush_lastValues rt :
  lastValues (flush rt).1 =
    (flush_keys (queued rt) (getCurrentValue rt) (lastValues rt) watchers).2.
Proof.
  unfold flush, Js.bind, Js.modify, Js.gets, call_callback. simpl.
  destruct (flush_keys _ _ _ _) as [eo lv'] eqn:Hfk. simpl.
  destruct (callback eo (user rt)) as [u o]. simpl.
  destruct o; reflexivity.
Qed.

Lemma flush_queued rt : queued (flush rt).1 = ∅.
Proof.
  unfold flush, Js.bind, Js.modify, Js.gets, call_callback. simpl.
  destruct (flush_keys _ _ _ _) as [eo lv'] eqn:Hfk. simpl.
  destruct (callback eo (user rt)) as [u o]. simpl.
  destruct o; reflexivity.
Qed.

Lemma flush_flushScheduled rt : flushScheduled (flush rt).1 = false.
Proof.
  unfold flush, Js.bind, Js.modify, Js.gets, call_callback. simpl.
  destruct (flush_keys _ _ _ _) as [eo lv'] eqn:Hfk. simpl.
  destruct (callback eo (user rt)) as [u o]. simpl.
  destruct o; reflexivity.
Qed.

(** *** fanIn *)

Lemma fanIn_eq event rt :
  fanIn event rt =
    (mkRuntime (<[id event := event]> (queued rt))
       (<[id event := current event]> (lastValues rt))
       true (getCurrentValue rt)
       (if flushScheduled rt then microtasks rt else microtasks rt ++ [MtFlush])
       (logs rt) (delivered rt) (uncaught rt) (user rt),
     Normal tt).
Proof.
  unfold fanIn, Js.bind, Js.modify, Js.gets, Js.ret. simpl.
  destruct (flushScheduled rt) eqn:Hs; simpl; [|reflexivity].
  unfold set_lastValues, set_queued. simpl. by rewrite Hs.
Qed.

Lemma burst_cons event events rt :
  burst (event :: events) rt = burst events (fanIn event rt).1.
Proof. unfold burst. simpl. unfold Js.bind. by rewrite fanIn_eq. Qed.

Lemma burst_normal events : forall rt, (burst events rt).2 = Normal tt.
Proof.
  induction events as [|e events IH]; intros rt; [done|].
  rewrite burst_cons. apply IH.
Qed.

(** The turn buffer after a burst: for each id the last event naming it. *)
Lemma burst_queued events : forall rt k,
  queued (burst events rt).1 !! k =
    match last (filter (fun ev => id ev = k) events) with
    | Some e => Some e
    | None => queued rt !! k
    end.
Proof.
  induction events as [|e0 events IH]; intros rt k; [done|].
  rewrite burst_cons, IH, fanIn_eq. simpl.
  rewrite filter_cons. destruct (decide (id e0 = k)) as [Heq|Hne].
  - rewrite last_cons.
    destruct (last (filter _ events)); [done|].
    by rewrite <- Heq, lookup_insert_eq.
  - destruct (last (filter _ events)); [done|].
    by rewrite lookup_insert_ne.
Qed.

Lemma burst_delivered events : forall rt,
  delivered (burst events rt).1 = delivered rt.
Proof.
  induction events as [|e0 events IH]; intros rt; [done|].
  by rewrite burst_cons, IH, fanIn_eq.
Qed.

(** *** Scheduling *)

(** What the callback does when called with the events object of [rt]. *)
Definition callback_outcome (rt : Runtime) : Outcome unit :=
  (callback (snapshot rt) (user rt)).2.

Definition catch_jobs (o : Outcome unit) : list Microtask :=
  match o with
  | Rejects err => [MtCatch err]
  | _ => []
  end.

Lemma flush_microtasks rt :
  microtasks (flush rt).1 = microtasks rt ++ catch_jobs (callback_outcome rt).
Proof.
  unfold callback_outcome, snapshot.
  unfold flush, Js.bind, Js.modify, Js.gets, call_callback. simpl.
  destruct (flush_keys _ _ _ _) as [eo lv'] eqn:Hfk. simpl.
  destruct (callback eo (user rt)) as [u o]. simpl.
  destruct o; simpl; by rewrite ?app_nil_r.
Qed.

Lemma flush_getCurrentValue rt :
  getCurrentValue (flush rt).1 = getCurrentValue rt.
Proof.
  unfold flush, Js.bind, Js.modify, Js.gets, call_callback. simpl.
  destruct (flush_keys _ _ _ _) as [eo lv'] eqn:Hfk. simpl.
  destruct (callback eo (user rt)) as [u o]. simpl.
  destruct o; reflexivity.
Qed.

(** The completion of [flush]: abrupt exactly when the callback throws
    before returning. *)
Lemma flush_completion rt :
  (flush rt).2 =
    match callback_outcome rt with
    | Throws err => Abrupt err
    | _ => Normal tt
    end.
Proof.
  unfold callback_outcome, snapshot.
  unfold flush, Js.bind, Js.modify, Js.gets, call_callback. simpl.
  destruct (flush_keys _ _ _ _) as [eo lv'] eqn:Hfk. simpl.
  destruct (callback eo (user rt)) as [u o]. simpl.
  destruct o; reflexivity.
Qed.

Lemma flush_logs rt :
  logs (flush rt).1 =
    logs rt ++
      [mkLog Info ("Executing user callback " +:+ name) [];
       mkLog Debug ("Executing user callback " +:+ name)
         [ArgEvents (snapshot rt)]].
Proof.
  unfold snapshot.
  unfold flush, Js.bind, Js.modify, Js.gets, call_callback. simpl.
  destruct (flush_keys _ _ _ _) as [eo lv'] eqn:Hfk. simpl.
  destruct (callback eo (user rt)) as [u o]. simpl.
  destruct o; simpl; by rewrite <- app_assoc.
Qed.

(** Running a job leaves the aggregator's own microtask bookkeeping as
    [flush] left it, also when the error goes to the host. *)
Lemma run_microtask_flush rt rest :
  microtasks rt = MtFlush :: rest ->
  let rt0 := set_microtasks rest rt in
  let rt' := run_microtask rt in
  microtasks rt' = rest ++ catch_jobs (callback_outcome rt0) /\
  delivered rt' = delivered rt ++ [snapshot rt] /\
  queued rt' = ∅ /\
  flushScheduled rt' = false /\
  getCurrentValue rt' = getCurrentValue rt.
Proof.
  intros Hq rt0 rt'. unfold rt', run_microtask. rewrite Hq. simpl.
  fold rt0.
  pose proof (flush_microtasks rt0) as Hm.
  pose proof (flush_delivered rt0) as Hd.
  pose proof (flush_queued rt0) as Hqd.
  pose proof (flush_flushScheduled rt0) as Hf.
  pose proof (flush_getCurrentValue rt0) as Hg.
  destruct (flush rt0) as [r [[]|err]]; simpl in *; auto.
Qed.

Lemma run_microtask_catch rt err rest :
  microtasks rt = MtCatch err :: rest ->
  run_microtask rt =
    logger Error ("Error executing user callback " +:+ name) [ArgValue err]
      (set_microtasks rest rt).
Proof. intros Hq. unfold run_microtask. by rewrite Hq. Qed.

(** Draining a queue that holds only [catch] reactions: each one logs, and
    nothing else moves. *)
Lemma run_microtasks_catches : forall fuel rt,
  MtFlush ∉ microtasks rt ->
  length (microtasks rt) <= fuel ->
  let rt' := run_microtasks fuel rt in
  microtasks rt' = [] /\
  delivered rt' = delivered rt /\
  queued rt' = queued rt /\
  lastValues rt' = lastValues rt /\
  flushScheduled rt' = flushScheduled rt /\
  getCurrentValue rt' = getCurrentValue rt /\
  user rt' = user rt.
Proof.
  induction fuel as [|fuel IH]; intros rt Hnf Hlen; simpl.
  - destruct (microtasks rt) eqn:Hq; [done|simpl in Hlen; lia].
  - destruct (microtasks rt) as [|t rest] eqn:Hq; [done|].
    destruct t as [|err]; [exfalso; apply Hnf; left|].
    rewrite (run_microtask_catch rt err rest Hq).
    set (rt1 := logger _ _ _ _).
    destruct (IH rt1) as (H1 & H2 & H3 & H4 & H5 & H6 & H7).
    + simpl. intros Hin. apply Hnf. by right.
    + simpl in *. lia.
    + by rewrite H1, H2, H3, H4, H5, H6, H7.
Qed.

Lemma snapshot_ext rt rt' :
  queued rt' = queued rt -> lastValues rt' = lastValues rt ->
  getCurrentValue rt' = getCurrentValue rt ->
  snapshot rt' = snapshot rt.
Proof. intros H1 H2 H3. unfold snapshot. by rewrite H1, H2, H3. Qed.

(** A queue with one [flush] job in it, among [catch] reactions: the
    checkpoint empties the queue and calls the callback exactly once, with
    the events object of the runtime it started from. *)
Lemma run_microtasks_one_flush : forall before after fuel rt,
  microtasks rt = before ++ MtFlush :: after ->
  MtFlush ∉ before -> MtFlush ∉ after ->
  length before + length after + 2 <= fuel ->
  let rt' := run_microtasks fuel rt in
  microtasks rt' = [] /\
  delivered rt' = delivered rt ++ [snapshot rt] /\
  queued rt' = ∅ /\
  flushScheduled rt' = false.
Proof.
  induction before as [|t before IH]; intros after fuel rt Hq Hb Ha Hfuel.
  - destruct fuel as [|fuel]; [lia|]. simpl in *. rewrite Hq.
    destruct (run_microtask_flush rt after Hq) as (Hm & Hd & Hqd & Hf & Hg).
    set (rt1 := run_microtask rt) in *.
    destruct (run_microtasks_catches fuel rt1) as (H1 & H2 & H3 & H4 & H5 & H6 & H7).
    + rewrite Hm. intros Hin. apply elem_of_app in Hin as [Hin|Hin]; [done|].
      destruct (callback_outcome _); simpl in Hin;
        try (by apply elem_of_nil in Hin).
      apply list_elem_of_singleton in Hin. discriminate.
    + rewrite Hm, length_app.
      destruct (callback_outcome _); simpl; lia.
    + by rewrite H1, H2, H3, H5, Hd, Hqd, Hf.
  - destruct fuel as [|fuel]; [simpl in Hfuel; lia|].
    destruct t as [|err]; [exfalso; apply Hb; left|].
    simpl in Hq. simpl. rewrite Hq.
    rewrite (run_microtask_catch rt err _ Hq).
    set (rt1 := logger _ _ _ _).
    destruct (IH after fuel rt1) as (H1 & H2 & H3 & H4).
    + done.
    + intros Hin. apply Hb. by right.
    + done.
    + simpl in Hfuel. lia.
    + by rewrite H1, H2, H3, H4.
Qed.

Definition pending_flushes (rt : Runtime) : nat :=
  length (filter (fun t => t = MtFlush) (microtasks rt)).

Lemma pending_flushes_zero rt :
  pending_flushes rt = 0 <-> MtFlush ∉ microtasks rt.
Proof.
  unfold pending_flushes.
  induction (microtasks rt) as [|t q IH]; simpl.
  - split; [intros _; apply not_elem_of_nil|done].
  - rewrite filter_cons, not_elem_of_cons.
    destruct (decide (t = MtFlush)) as [->|Hne]; simpl.
    + split; [lia|]. by intros [? _].
    + rewrite IH. split; [|by intros [_ ?]]. intros ?. split; [congruence|done].
Qed.

(** The checkpoint always empties the queue: a [flush] job leaves at most
    one [catch] reaction behind, a [catch] reaction leaves nothing. *)
Lemma run_microtasks_drains : forall fuel rt,
  length (microtasks rt) + pending_flushes rt <= fuel ->
  microtasks (run_microtasks fuel rt) = [].
Proof.
  induction fuel as [|fuel IH]; intros rt Hfuel; simpl.
  - destruct (microtasks rt) eqn:Hq; [done|simpl in Hfuel; lia].
  - destruct (microtasks rt) as [|t rest] eqn:Hq; [done|].
    apply IH. unfold pending_flushes in *. rewrite Hq in Hfuel.
    destruct t as [|err].
    + destruct (run_microtask_flush rt rest Hq) as (-> & _).
      rewrite filter_cons in Hfuel.
      destruct (decide (MtFlush = MtFlush)); [|congruence].
      rewrite filter_app, !length_app. simpl in Hfuel.
      destruct (callback_outcome _); simpl; lia.
    + rewrite (run_microtask_catch rt err rest Hq). simpl.
      rewrite filter_cons in Hfuel.
      destruct (decide (MtCatch err = MtFlush)); [congruence|].
      simpl in Hfuel. lia.
Qed.

Lemma checkpoint_drains rt : microtasks (checkpoint rt) = [].
Proof.
  apply run_microtasks_drains. unfold pending_flushes.
  pose proof (length_filter (fun t => t = MtFlush) (microtasks rt)). lia.
Qed.

(** A burst that starts with no flush scheduled queues one [flush] job, at
    the first call, and none after. *)
Lemma burst_microtasks events : forall rt,
  microtasks (burst events rt).1 =
    match events with
    | [] => microtasks rt
    | _ :: _ =>
        if flushScheduled rt then microtasks rt else microtasks rt ++ [MtFlush]
    end.
Proof.
  induction events as [|e0 events IH]; intros rt; [done|].
  rewrite burst_cons, IH, fanIn_eq. simpl. by destruct events.
Qed.

Lemma burst_flushScheduled events : forall rt,
  flushScheduled (burst events rt).1 =
    match events with [] => flushScheduled rt | _ :: _ => true end.
Proof.
  induction events as [|e0 events IH]; intros rt; [done|].
  rewrite burst_cons, IH, fanIn_eq. simpl. by destruct events.
Qed.

(** *** Turns *)

(** Nothing of the aggregator is waiting: the state between two turns. *)
Definition quiescent (rt : Runtime) : Prop :=
  flushScheduled rt = false /\ microtasks rt = [].

(** One turn: a synchronous burst of [fanIn] calls, then the checkpoint. *)
Definition turn (events : list WatcherEvent) (rt : Runtime) : Runtime :=
  checkpoint (burst events rt).1.

Lemma turn_quiescent events rt :
  quiescent rt ->
  quiescent (turn events rt) /\
  length (delivered (turn events rt)) =
    length (delivered rt) + (if events is [] then 0 else 1).
Proof.
  intros [Hs Hq]. unfold turn. destruct events as [|e events].
  - simpl. unfold checkpoint. rewrite Hq. simpl. unfold quiescent. auto with lia.
  - set (rt1 := (burst (e :: events) rt).1).
    assert (microtasks rt1 = [] ++ [MtFlush]) as Hq1.
    { unfold rt1. by rewrite burst_microtasks, Hs, Hq. }
    destruct (run_microtasks_one_flush [] [] (2 * length (microtasks rt1)) rt1)
      as (H1 & H2 & _ & H4).
    + done.
    + apply not_elem_of_nil.
    + apply not_elem_of_nil.
    + rewrite Hq1. simpl. lia.
    + fold (checkpoint rt1) in H1, H2, H4. split; [by split|].
      rewrite H2, length_app. unfold rt1. by rewrite burst_delivered.
Qed.

(** Over any sequence of turns the callback is called once for every turn
    in which at least one event arrived, and never otherwise. *)
Lemma turns_deliver_once_each : forall (bursts : list (list WatcherEvent)) rt,
  quiescent rt ->
  quiescent (foldl (fun r events => turn events r) rt bursts) /\
  length (delivered (foldl (fun r events => turn events r) rt bursts)) =
    length (delivered rt) +
      length (filter (fun events : list WatcherEvent => events <> []) bursts).
Proof.
  induction bursts as [|events bursts IH]; intros rt Hq.
  - simpl. auto with lia.
  - cbn [foldl]. destruct (turn_quiescent events rt Hq) as [Hq' Hlen].
    destruct (IH (turn events rt) Hq') as [Hq'' Hlen'].
    split; [done|]. rewrite Hlen', Hlen, filter_cons.
    destruct (decide (events <> [])) as [Hne|He].
    + destruct events; [by destruct Hne|]. simpl. lia.
    + destruct events; [simpl; lia|]. by destruct He.
Qed.

(** *** Claims on the events object *)


(** *** Claims on scheduling and disposal *)


(** A second [fanIn] while a flush is scheduled queues nothing. *)
Lemma fanIn_scheduled_queues_nothing event rt :
  flushScheduled rt = true ->
  microtasks (fanIn event rt).1 = microtasks rt.
Proof. intros Hs. rewrite fanIn_eq. simpl. by rewrite Hs. Qed.

(** *** Failures of the callback *)

Definition error_entry (err : JsValue) : LogEntry :=
  mkLog Error ("Error executing user callback " +:+ name) [ArgValue err].

Definition catch_errors (q : list Microtask) : list JsValue :=
  omap (fun t => match t with MtCatch err => Some err | MtFlush => None end) q.

Lemma run_microtasks_catches_logs : forall fuel rt,
  MtFlush ∉ microtasks rt ->
  length (microtasks rt) <= fuel ->
  logs (run_microtasks fuel rt) =
    logs rt ++ map error_entry (catch_errors (microtasks rt)) /\
  uncaught (run_microtasks fuel rt) = uncaught rt.
Proof.
  induction fuel as [|fuel IH]; intros rt Hnf Hlen; simpl.
  - destruct (microtasks rt) eqn:Hq; [|simpl in Hlen; lia].
    simpl. by rewrite app_nil_r.
  - destruct (microtasks rt) as [|t rest] eqn:Hq;
      [simpl; by rewrite app_nil_r|].
    destruct t as [|err]; [exfalso; apply Hnf; left|].
    rewrite (run_microtask_catch rt err rest Hq).
    set (rt1 := logger _ _ _ _).
    destruct (IH rt1) as [-> ->].
    + simpl. intros Hin. apply Hnf. by right.
    + simpl in *. lia.
    + simpl. by rewrite <- app_assoc.
Qed.

(** A callback whose promise is rejected: [flush] completes normally and
    the rejection is logged, with the aggregator's name and the error, when
    the [catch] reaction runs. *)
Lemma flush_rejection_logged rt err :
  MtFlush ∉ microtasks rt ->
  callback_outcome rt = Rejects err ->
  (flush rt).2 = Normal tt /\
  error_entry err ∈ logs (checkpoint (flush rt).1) /\
  uncaught (checkpoint (flush rt).1) = uncaught rt.
Proof.
  intros Hnf Ho.
  pose proof (flush_microtasks rt) as Hm. rewrite Ho in Hm. simpl in Hm.
  split; [by rewrite flush_completion, Ho|].
  destruct (run_microtasks_catches_logs
              (2 * length (microtasks (flush rt).1)) (flush rt).1) as [Hl Hu].
  - rewrite Hm. intros Hin. apply elem_of_app in Hin as [Hin|Hin]; [done|].
    apply list_elem_of_singleton in Hin. discriminate.
  - lia.
  - unfold checkpoint. rewrite Hl, Hu. split.
    + apply elem_of_app. right. rewrite Hm. unfold catch_errors.
      rewrite omap_app, map_app. apply elem_of_app. right. simpl. left.
    + unfold flush, Js.bind, Js.modify, Js.gets, call_callback. simpl.
      destruct (flush_keys _ _ _ _) as [eo lv']. simpl.
      destruct (callback eo (user rt)) as [u o]. simpl.
      destruct o; reflexivity.
Qed.

(** A callback that throws before returning: the error leaves [flush]. *)
Lemma flush_sync_throw rt err :
  callback_outcome rt = Throws err ->
  (flush rt).2 = Abrupt err /\
  logs (flush rt).1 =
    logs rt ++
      [mkLog Info ("Executing user callback " +:+ name) [];
       mkLog Debug ("Executing user callback " +:+ name)
         [ArgEvents (snapshot rt)]].
Proof. intros Ho. by rewrite flush_completion, Ho, flush_logs. Qed.

(** [dispose] with a flush pending, for a callback that returns: the flush
    runs inside [dispose], then both maps are cleared. *)
Lemma dispose_flushes_then_clears rt :
  flushScheduled rt = true ->
  (forall err, callback_outcome rt <> Throws err) ->
  (dispose rt).2 = Normal tt /\
  delivered (dispose rt).1 = delivered rt ++ [snapshot rt] /\
  queued (dispose rt).1 = ∅ /\
  lastValues (dispose rt).1 = ∅ /\
  flushScheduled (dispose rt).1 = false.
Proof.
  intros Hs Hno.
  pose proof (flush_completion rt) as Hc.
  pose proof (flush_delivered rt) as Hd.
  pose proof (flush_flushScheduled rt) as Hf.
  unfold dispose, Js.bind, Js.gets, Js.modify. simpl. rewrite Hs.
  destruct (flush rt) as [rt' r]. simpl in *.
  destruct (callback_outcome rt) eqn:Ho; subst r; simpl; try done.
  by destruct (Hno err).
Qed.

(** [dispose] with a flush pending, for a callback that throws before
    returning: [dispose] is left at the throw, before [lastValues.clear()]. *)
Lemma dispose_sync_throw rt err :
  flushScheduled rt = true ->
  callback_outcome rt = Throws err ->
  dispose rt = (fst (flush rt), Abrupt err).
Proof.
  intros Hs Ho.
  pose proof (flush_completion rt) as Hc. rewrite Ho in Hc.
  unfold dispose, Js.bind, Js.gets, Js.modify. simpl. rewrite Hs.
  destruct (flush rt) as [rt' r]. simpl in *. by subst r.
Qed.

(** With nothing scheduled [dispose] only clears. *)
Lemma dispose_idle rt :
  flushScheduled rt = false ->
  dispose rt = (set_lastValues ∅ (set_queued ∅ rt), Normal tt).
Proof.
  intros Hs. unfold dispose, Js.bind, Js.gets, Js.modify, Js.ret. simpl.
  by rewrite Hs.
Qed.

(** *** Further properties of the aggregator *)

Lemma burst_lastValues events : forall rt k,
  lastValues (burst events rt).1 !! k =
    match last (filter (fun ev => id ev = k) events) with
    | Some e => Some (current e)
    | None => lastValues rt !! k
    end.
Proof.
  induction events as [|e0 events IH]; intros rt k; [done|].
  rewrite burst_cons, IH, fanIn_eq. simpl.
  rewrite filter_cons. destruct (decide (id e0 = k)) as [Heq|Hne].
  - rewrite last_cons.
    destruct (last (filter _ events)); [done|].
    by rewrite <- Heq, lookup_insert_eq.
  - destruct (last (filter _ events)); [done|].
    by rewrite lookup_insert_ne.
Qed.

Lemma burst_getCurrentValue events : forall rt,
  getCurrentValue (burst events rt).1 = getCurrentValue rt.
Proof.
  induction events as [|e0 events IH]; intros rt; [done|].
  by rewrite burst_cons, IH, fanIn_eq.
Qed.

Lemma filter_id_none (events : list WatcherEvent) (k : string) :
  Forall (fun ev => id ev <> k) events ->
  filter (fun ev => id ev = k) events = [].
Proof.
  induction 1 as [|e events Hne _ IH]; [done|].
  rewrite filter_cons. by destruct (decide (id e = k)).
Qed.

(** Every key of the turn buffer is the id of the event stored under it. *)
Definition queued_by_id (rt : Runtime) : Prop :=
  forall k e, queued rt !! k = Some e -> id e = k.

Lemma burst_queued_by_id events : forall rt,
  queued_by_id rt -> queued_by_id (burst events rt).1.
Proof.
  induction events as [|e0 events IH]; intros rt Hq; [done|].
  rewrite burst_cons. apply IH. rewrite fanIn_eq.
  unfold queued_by_id. simpl.
  intros k e. destruct (decide (id e0 = k)) as [<-|Hne].
  - rewrite lookup_insert_eq. by intros [= <-].
  - rewrite lookup_insert_ne by done. apply Hq.
Qed.

Lemma foldl_flush_key_ids q read ks : forall acc,
  (forall k e, q !! k = Some e -> id e = k) ->
  (forall k e, acc.1 !! k = Some e -> id e = k) ->
  forall k e, (foldl (flush_key q read) acc ks).1 !! k = Some e -> id e = k.
Proof.
  induction ks as [|k0 ks IH]; intros acc Hq Hacc; simpl; [done|].
  apply IH; [done|]. intros k e. unfold flush_key.
  destruct (q !! k0) as [e0|] eqn:Hq0; simpl.
  - destruct (decide (k0 = k)) as [<-|Hne].
    + rewrite lookup_insert_eq. intros [= <-]. by apply Hq.
    + rewrite lookup_insert_ne by done. apply Hacc.
  - destruct (decide (k0 = k)) as [<-|Hne].
    + rewrite lookup_insert_eq. by intros [= <-].
    + rewrite lookup_insert_ne by done. apply Hacc.
Qed.



(** The sources move between two turns. *)
Definition set_sources (read : string -> JsValue) (rt : Runtime) : Runtime :=
  mkRuntime (queued rt) (lastValues rt) (flushScheduled rt) read
    (microtasks rt) (logs rt) (delivered rt) (uncaught rt) (user rt).

(** Two flushes in a row, ids listed once: for an id that no event names
    in between, the second flush takes the [previous] of its synthetic
    entry from the [current] of the entry the first flush delivered. *)
Lemma two_flushes_filler_previous (rt : Runtime)
    (events : list WatcherEvent) (read : string -> JsValue)
    (k : string) (first : WatcherEvent) :
  NoDup watchers ->
  k ∈ watchers ->
  snapshot rt !! k = Some first ->
  Forall (fun ev => id ev <> k) events ->
  let rt2 := set_sources read (burst events (flush rt).1).1 in
  exists eventsObject,
    delivered (flush rt2).1 = delivered rt ++ [snapshot rt; eventsObject] /\
    eventsObject !! k =
      Some {| id := k; current := read k; previous := current first;
              isInitial := false; isChanged := false |}.
Proof.
  intros Hnd Hin Hfirst Hev rt2. exists (snapshot rt2). split.
  - rewrite flush_delivered. unfold rt2. simpl.
    rewrite burst_delivered, flush_delivered. by rewrite <- app_assoc.
  - rewrite snapshot_lookup by done. unfold entry, map_get, rt2. simpl.
    rewrite burst_queued, burst_lastValues, (filter_id_none events k Hev).
    simpl. rewrite flush_queued, lookup_empty.
    rewrite flush_lastValues. unfold flush_keys.
    rewrite foldl_flush_key_cache by done. simpl.
    rewrite snapshot_lookup in Hfirst by done. by injection Hfirst as ->.
Qed.

(** X5. A second [dispose] does nothing: when [dispose] has completed, a
    further call completes as well, calls the callback no more and leaves
    the runtime as it is. *)
Theorem dispose_twice_is_dispose_once (rt : Runtime) :
  (dispose rt).2 = Normal tt ->
  dispose (dispose rt).1 = ((dispose rt).1, Normal tt).
Proof.
  intros Hok.
  assert (flushScheduled (dispose rt).1 = false /\
          queued (dispose rt).1 = ∅ /\ lastValues (dispose rt).1 = ∅)
    as (Hs & Hq & Hl).
  { destruct (flushScheduled rt) eqn:Hsched.
    - pose proof (flush_completion rt) as Hc.
      pose proof (flush_flushScheduled rt) as Hf.
      revert Hok. unfold dispose, Js.bind, Js.gets, Js.modify. simpl.
      rewrite Hsched. destruct (flush rt) as [r [[]|err]]; simpl in *; [|done].
      intros _. by rewrite Hf.
    - rewrite dispose_idle by done. simpl. by rewrite Hsched. }
  rewrite dispose_idle by done. f_equal.
  destruct (dispose rt).1. simpl in *. by subst.
Qed.

(** After a burst and a [dispose] the job that [fanIn] queued is still on
    the microtask queue; run on the cleared maps, it calls the callback
    with synthetic entries only. *)
Lemma disposed_flush_job_runs (rt : Runtime)
    (events : list WatcherEvent) :
  NoDup watchers ->
  quiescent rt ->
  events <> [] ->
  (forall err, callback_outcome (burst events rt).1 <> Throws err) ->
  let rt1 := (dispose (burst events rt).1).1 in
  (exists rest, microtasks rt1 = MtFlush :: rest) /\
  flushScheduled rt1 = false /\
  exists eventsObject,
    delivered (run_microtask rt1) = delivered rt1 ++ [eventsObject] /\
    forall k, k ∈ watchers ->
      eventsObject !! k =
        Some {| id := k; current := getCurrentValue rt k;
                previous := JsUndefined;
                isInitial := false; isChanged := false |}.
Proof.
  intros Hnd [Hs Hq] Hne Hno rt1.
  set (rt0 := (burst events rt).1) in *.
  assert (flushScheduled rt0 = true) as Hs0.
  { unfold rt0. rewrite burst_flushScheduled. by destruct events. }
  assert (microtasks rt0 = [MtFlush]) as Hq0.
  { unfold rt0. rewrite burst_microtasks, Hs, Hq. by destruct events. }
  destruct (dispose_flushes_then_clears rt0 Hs0 Hno) as (_ & _ & H3 & H4 & H5).
  fold rt1 in H3, H4, H5.
  assert (microtasks rt1 = MtFlush :: catch_jobs (callback_outcome rt0)
          /\ getCurrentValue rt1 = getCurrentValue rt) as [Hm Hg].
  { pose proof (flush_microtasks rt0) as Hm.
    pose proof (flush_getCurrentValue rt0) as Hg.
    pose proof (flush_completion rt0) as Hc.
    unfold rt1, dispose, Js.bind, Js.gets, Js.modify. simpl. rewrite Hs0.
    destruct (flush rt0) as [r c]. simpl in *.
    destruct (callback_outcome rt0) eqn:Ho; subst c; simpl;
      rewrite Hm, Hq0, Hg; unfold rt0;
      by rewrite burst_getCurrentValue. }
  split; [eauto|]. split; [done|].
  destruct (run_microtask_flush rt1 _ Hm) as (_ & Hd & _).
  exists (snapshot rt1). split; [done|].
  intros k Hin. rewrite snapshot_lookup by done.
  unfold entry, map_get. by rewrite H3, H4, !lookup_empty, Hg.
Qed.

Lemma run_microtasks_step fuel rt t rest :
  microtasks rt = t :: rest ->
  run_microtasks (S fuel) rt = run_microtasks fuel (run_microtask rt).
Proof. intros Hm. simpl. by rewrite Hm. Qed.

Lemma run_microtasks_done fuel rt :
  microtasks rt = [] -> run_microtasks fuel rt = rt.
Proof. intros Hm. destruct fuel; simpl; [done|]. by rewrite Hm. Qed.


(** What happens to an aggregator between its creation and any later
    moment: [fanIn] calls, the host running the oldest microtask, [dispose]
    and changes of the sources. *)
Inductive Step : Type :=
| StepFanIn (event : WatcherEvent)
| StepMicrotask
| StepDispose
| StepSources (read : string -> JsValue).

Definition run_step (rt : Runtime) (s : Step) : Runtime :=
  match s with
  | StepFanIn event => (fanIn event rt).1
  | StepMicrotask => run_microtask rt
  | StepDispose => (dispose rt).1
  | StepSources read => set_sources read rt
  end.

(** An event in the turn buffer has a flush scheduled, and a scheduled
    flush is a job on the microtask queue. *)
Definition flush_pending_if_queued (rt : Runtime) : Prop :=
  (queued rt <> ∅ -> flushScheduled rt = true) /\
  (flushScheduled rt = true -> MtFlush ∈ microtasks rt).

Lemma flush_state rt :
  queued (flush rt).1 = ∅ /\ flushScheduled (flush rt).1 = false.
Proof. split; [apply flush_queued|apply flush_flushScheduled]. Qed.

Lemma run_step_flush_pending_if_queued rt s :
  flush_pending_if_queued rt -> flush_pending_if_queued (run_step rt s).
Proof.
  intros [Hq Hs]. destruct s as [event| | |read]; simpl.
  - rewrite fanIn_eq. split; simpl; [done|]. intros _.
    destruct (flushScheduled rt) eqn:Hsched; [by apply Hs|].
    apply elem_of_app. right. left.
  - unfold run_microtask. destruct (microtasks rt) as [|t rest] eqn:Hm;
      [split; [done|by rewrite Hm]|].
    destruct t as [|err]; simpl.
    + destruct (flush_state (set_microtasks rest rt)) as [Hfq Hfs].
      destruct (flush (set_microtasks rest rt)) as [r [[]|err]];
        unfold report_uncaught; split; intros ?; simpl in *;
        first [contradiction | congruence | done].
    + split; simpl; [done|]. intros Hsched.
      specialize (Hs Hsched).
      apply elem_of_cons in Hs as [Hs|Hs]; [discriminate|done].
  - destruct (flushScheduled rt) eqn:Hsched.
    + destruct (flush_state rt) as [Hfq Hfs].
      unfold dispose, Js.bind, Js.gets, Js.modify. simpl. rewrite Hsched.
      destruct (flush rt) as [r [[]|err]]; split; intros ?; simpl in *;
        first [contradiction | congruence | done].
    + rewrite dispose_idle by done. split; intros ?; simpl in *;
        first [contradiction | congruence | done].
  - by split.
Qed.

Lemma size_list_to_set_length (l : list string) :
  size (list_to_set l : gset string) <= length l.
Proof.
  induction l as [|x l IH].
  - rewrite list_to_set_nil, size_empty. done.
  - rewrite list_to_set_cons, size_union_alt, size_singleton. simpl.
    pose proof (subseteq_size (list_to_set l ∖ {[x]}) (list_to_set l : gset string)
                  (subseteq_difference_l _ _ _ (reflexivity _))).
    lia.
Qed.

Lemma foldl_flush_key_twice q read ks k : forall acc,
  q !! k = None ->
  acc.1 !! k = Some (noop_event k (read k) (read k)) ->
  acc.2 !! k = Some (read k) ->
  (foldl (flush_key q read) acc ks).1 !! k =
    Some (noop_event k (read k) (read k)).
Proof.
  induction ks as [|k0 ks IH]; intros acc Hq H1 H2; simpl; [done|].
  apply IH; [done| |].
  - destruct (decide (k0 = k)) as [->|Hne].
    + rewrite flush_key_same. unfold entry, map_get. by rewrite Hq, H2.
    + by destruct (flush_key_other q read acc k0 k Hne) as [-> _].
  - destruct (decide (k0 = k)) as [->|Hne].
    + unfold flush_key. rewrite Hq. simpl. apply lookup_insert_eq.
    + by destruct (flush_key_other q read acc k0 k Hne) as [_ ->].
Qed.

Lemma foldl_flush_key_seen q read ks k : forall acc,
  q !! k = None ->
  k ∈ ks ->
  (foldl (flush_key q read) acc ks).2 !! k = Some (read k).
Proof.
  induction ks as [|k0 ks IH]; intros acc Hq Hin; simpl.
  - by apply elem_of_nil in Hin.
  - destruct (decide (k ∈ ks)) as [Hin'|Hnotin]; [by apply IH|].
    apply elem_of_cons in Hin as [->|Hin]; [|contradiction].
    destruct (foldl_flush_key_notin q read ks (flush_key q read acc k0) k0
                Hnotin) as [_ ->].
    unfold flush_key. rewrite Hq. simpl. apply lookup_insert_eq.
Qed.


End Aggregator.

Arguments mkRuntime {U}.
Arguments queued {U}.
Arguments lastValues {U}.
Arguments flushScheduled {U}.
Arguments getCurrentValue {U}.
Arguments microtasks {U}.
Arguments logs {U}.
Arguments delivered {U}.
Arguments uncaught {U}.
Arguments user {U}.
Arguments fanIn {U}.
Arguments burst {U}.
Arguments flush {U}.
Arguments dispose {U}.
Arguments checkpoint {U}.
Arguments set_source {U}.

(** *** A concrete aggregator over watchers [a] and [b] *)

Definition sources (a b : JsValue) (k : string) : JsValue :=
  if decide (k = "a") then a else if decide (k = "b") then b else JsUndefined.

(** A freshly created aggregator: empty maps, nothing scheduled. *)
Definition created (a b : JsValue) : Runtime unit :=
  mkRuntime ∅ ∅ false (sources a b) [] [] [] [] tt.

Definition returning : EventsObject -> unit -> unit * Outcome unit :=
  fun _ u => (u, Returns tt).

Definition rejecting : EventsObject -> unit -> unit * Outcome unit :=
  fun _ u => (u, Rejects (JsStr "User boom")).

Definition throwing : EventsObject -> unit -> unit * Outcome unit :=
  fun _ u => (u, Throws (JsStr "User boom")).

Definition event_a (cur prev : Z) : WatcherEvent :=
  mkEvent "a" (JsNum cur) (JsNum prev) false true.

Definition event_b (cur prev : string) : WatcherEvent :=
  mkEvent "b" (JsStr cur) (JsStr prev) false true.

Definition is_error (l : LogEntry) : bool :=
  match level l with Error => true | _ => false end.

(** One full turn (only [a] emits), then [b]'s source moves to ["z"] and
    [a] emits again: the second flush is pending. *)
Definition second_turn : Runtime unit :=
  (fanIn (event_a 11 10)
     (set_source "b" (JsStr "z")
        (checkpoint "testCfg" ["a"; "b"] returning
           (fanIn (event_a 10 0) (created (JsNum 0) (JsStr "x"))).1))).1.

(** In [second_turn] the live value of [b] and the cached one differ: the
    synthetic entry reads the source, and reports the cached value as
    [previous]. *)
Example second_turn_b :
  snapshot unit ["a"; "b"] second_turn !! "b" =
    Some (mkEvent "b" (JsStr "z") (JsStr "x") false false) /\
  snapshot unit ["a"; "b"] second_turn !! "a" = Some (event_a 11 10).
Proof. split; vm_compute; reflexivity. Qed.



(** C4, on the code.  The callback throws before returning (a plain
    function, which its type [void | Promise<void>] admits).  [fanIn] an
    event for [a], then [dispose]: the flush inside [dispose] is left at the
    throw, the error reaches the caller of [dispose] and no error is logged.
    When the host runs the scheduled flush instead, the error reaches the
    host as an uncaught error, again with nothing logged.  A rejected
    promise, by contrast, is logged ([flush_rejection_logged]). *)
Theorem sync_throw_escapes_flush :
  let rt := (fanIn (event_a 2 1) (created (JsNum 1) (JsStr "x"))).1 in
  (dispose "errCfg" ["a"; "b"] throwing rt).2 = Abrupt (JsStr "User boom") /\
  List.filter is_error (logs (dispose "errCfg" ["a"; "b"] throwing rt).1) = [] /\
  uncaught (checkpoint "errCfg" ["a"; "b"] throwing rt) = [JsStr "User boom"] /\
  List.filter is_error (logs (checkpoint "errCfg" ["a"; "b"] throwing rt)) = [] /\
  List.filter is_error (logs (checkpoint "errCfg" ["a"; "b"] rejecting rt)) =
    [mkLog Error "Error executing user callback errCfg"
       [ArgValue (JsStr "User boom")]].
Proof. repeat split; vm_compute; reflexivity. Qed.

(** C8, on the code.  With a flush pending, [dispose] runs it at once: the
    callback receives the queued event.  When that callback throws before
    returning, [dispose] is left at the throw: the turn buffer was emptied
    by the flush, but the cache [lastValues] is not cleared.  For a callback
    that returns, both are cleared ([dispose_flushes_then_clears]). *)
Theorem dispose_sync_throw_keeps_cache :
  let rt := (fanIn (event_a 2 1) (created (JsNum 1) (JsStr "x"))).1 in
  flushScheduled rt = true /\
  (dispose "errCfg" ["a"; "b"] throwing rt).2 = Abrupt (JsStr "User boom") /\
  (exists eventsObject,
     delivered (dispose "errCfg" ["a"; "b"] throwing rt).1 = [eventsObject] /\
     eventsObject !! "a" = Some (event_a 2 1)) /\
  queued (dispose "errCfg" ["a"; "b"] throwing rt).1 !! "a" = None /\
  lastValues (dispose "errCfg" ["a"; "b"] throwing rt).1 !! "a" = Some (JsNum 2) /\
  lastValues (dispose "errCfg" ["a"; "b"] throwing rt).1 !! "b" = Some (JsStr "x") /\
  lastValues (dispose "errCfg" ["a"; "b"] returning rt).1 = ∅.
Proof.
  repeat split; try (vm_compute; reflexivity).
  eexists. split; vm_compute; reflexivity.
Qed.

(** [dispose] cannot take the scheduled job back: the host still runs it,
    on an empty turn buffer, and the callback is called a second time with
    synthetic entries only. *)
Example dispose_then_scheduled_flush :
  let rt := (fanIn (event_a 5 4) (created (JsNum 0) (JsStr "x"))).1 in
  let rt1 := (dispose "testCfg" ["a"; "b"] returning rt).1 in
  microtasks rt1 = [MtFlush] /\
  delivered (checkpoint "testCfg" ["a"; "b"] returning rt1) =
    [ {["a" := event_a 5 4;
        "b" := mkEvent "b" (JsStr "x") JsUndefined false false]};
      {["a" := mkEvent "a" (JsNum 0) JsUndefined false false;
        "b" := mkEvent "b" (JsStr "x") JsUndefined false false]} ].
Proof. split; vm_compute; reflexivity. Qed.

(** *** The further properties on the concrete aggregator *)

Definition one_event : Runtime unit :=
  (fanIn (event_a 5 4) (created (JsNum 0) (JsStr "x"))).1.

Lemma created_queued_by_id a b : queued_by_id unit (created a b).
Proof. intros k e. simpl. by rewrite lookup_empty. Qed.



Lemma returning_never_throws (rt : Runtime unit) (err : JsValue) :
  callback_outcome unit ["a"; "b"] returning rt <> Throws err.
Proof. discriminate. Qed.

Lemma dispose_twice_is_dispose_once_witness :
  (dispose "testCfg" ["a"; "b"] returning one_event).2 = Normal tt /\
  dispose "testCfg" ["a"; "b"] returning
    (dispose "testCfg" ["a"; "b"] returning one_event).1 =
    ((dispose "testCfg" ["a"; "b"] returning one_event).1, Normal tt).
Proof.
  assert ((dispose "testCfg" ["a"; "b"] returning one_event).2 = Normal tt)
    as Hok by (vm_compute; reflexivity).
  split; [exact Hok|].
  exact (dispose_twice_is_dispose_once unit "testCfg" ["a"; "b"] returning
           one_event Hok).
Defined.



End FanIn.

(** ** createFanInAggregator.ts, with reads that can throw

    [FanIn] takes every [watchers[key].getCurrentValue()] to return.  The
    call throws when there is no watcher under the key, [watchers[key]]
    being [undefined], and when the store's [get] throws.  [flush] does not
    catch that: the error leaves the [forEach], hence [flush], after
    [flushScheduled = false] and before [queued.clear()] and the callback.
    This module adds the reads that throw to the runtime and follows the
    error through [flush], [dispose] and the microtask that runs [flush]. *)

Module LiveFanIn.

Section Aggregator.

Variable U : Type.

(** [cfgKey], [cfg.watchers] and [cfg.callback]. *)
Variable name : string.
Variable watchers : list string.
Variable callback : EventsObject -> U -> U * Outcome unit.

(** The aggregator with its sources.  [FanIn.getCurrentValue] says what a
    read returns when it returns; [broken] holds, for the keys whose read
    throws, the error thrown. *)
Record Runtime : Type := mkRuntime {
  aggregator : FanIn.Runtime U;
  broken : string -> option JsValue;
}.

(** A step that touches the closure variables and the host only. *)
Definition in_aggregator {A : Type} (c : Js.M (FanIn.Runtime U) A)
    : Js.M Runtime A :=
  fun l =>
    let '(rt, r) := c (aggregator l) in
    (mkRuntime rt (broken l), r).

(** [watchers[key].getCurrentValue()] *)
Definition getCurrentValue (k : string) : Js.M Runtime JsValue :=
  fun l =>
    match broken l k with
    | Some err => (l, Abrupt err)
    | None => (l, Normal (FanIn.getCurrentValue (aggregator l) k))
    end.

Definition lastValues_set (k : string) (v : JsValue) : Js.M Runtime unit :=
  in_aggregator (Js.modify (fun rt =>
    FanIn.set_lastValues U (<[k := v]> (FanIn.lastValues rt)) rt)).

(** The body of [cfg.watchers.forEach] in [flush]; [eventsObject] is the
    object built so far. *)
Definition flush_key (eventsObject : EventsObject) (k : string)
    : Js.M Runtime EventsObject :=
  do q <- in_aggregator (Js.gets FanIn.queued) ;
  match q !! k with
  | Some queuedEvent =>
      lastValues_set k (current queuedEvent) ;;
      Js.ret (<[k := queuedEvent]> eventsObject)
  | None =>
      do cur <- getCurrentValue k ;
      do lv <- in_aggregator (Js.gets FanIn.lastValues) ;
      lastValues_set k cur ;;
      Js.ret (<[k := {| id := k; current := cur; previous := map_get lv k;
                        isInitial := false; isChanged := false |}]>
                eventsObject)
  end.

Fixpoint flush_keys (ks : list string) (eventsObject : EventsObject)
    : Js.M Runtime EventsObject :=
  match ks with
  | [] => Js.ret eventsObject
  | k :: rest =>
      do eventsObject' <- flush_key eventsObject k ;
      flush_keys rest eventsObject'
  end.

Definition flush : Js.M Runtime unit :=
  in_aggregator (Js.modify (FanIn.set_flushScheduled U false)) ;;
  do eventsObject <- flush_keys watchers ∅ ;
  in_aggregator (Js.modify (FanIn.set_queued U ∅)) ;;
  in_aggregator (Js.modify
    (FanIn.logger U Info ("Executing user callback " +:+ name) [])) ;;
  in_aggregator (Js.modify
    (FanIn.logger U Debug ("Executing user callback " +:+ name)
       [ArgEvents eventsObject])) ;;
  do o <- in_aggregator (FanIn.call_callback U callback eventsObject) ;
  in_aggregator (FanIn.settle_callback U o).

(** [fanIn] reads no source. *)
Definition fanIn (event : WatcherEvent) : Js.M Runtime unit :=
  in_aggregator (FanIn.fanIn event).

Definition dispose : Js.M Runtime unit :=
  do scheduled <- in_aggregator (Js.gets FanIn.flushScheduled) ;
  (if scheduled then flush else Js.ret tt) ;;
  in_aggregator (Js.modify (FanIn.set_queued U ∅)) ;;
  in_aggregator (Js.modify (FanIn.set_lastValues U ∅)).

Definition run_job (t : FanIn.Microtask) : Js.M Runtime unit :=
  match t with
  | FanIn.MtFlush => flush
  | FanIn.MtCatch err =>
      in_aggregator (Js.modify
        (FanIn.logger U Error ("Error executing user callback " +:+ name)
           [ArgValue err]))
  end.

(** The host runs the oldest microtask; an error thrown by the job, by the
    callback or by a read, goes to the host's uncaught-error report. *)
Definition run_microtask (l : Runtime) : Runtime :=
  match FanIn.microtasks (aggregator l) with
  | [] => l
  | t :: rest =>
      match run_job t
              (mkRuntime (FanIn.set_microtasks U rest (aggregator l))
                 (broken l)) with
      | (l', Normal _) => l'
      | (l', Abrupt err) =>
          mkRuntime (FanIn.report_uncaught U err (aggregator l')) (broken l')
      end
  end.

(** A synchronous burst of [fanIn] calls. *)
Definition burst (events : list WatcherEvent) : Js.M Runtime unit :=
  Js.for_of events fanIn.

(** The sources move: what the reads return, and which of them throw. *)
Definition set_sources (read : string -> JsValue)
    (throws : string -> option JsValue) (l : Runtime) : Runtime :=
  mkRuntime (FanIn.set_sources U read (aggregator l)) throws.

(** *** The read that throws first *)

(** The error that leaves the loop of [flush]: that of the first declared
    key with no queued event whose read throws. *)
Fixpoint read_error (q : gmap string WatcherEvent)
    (throws : string -> option JsValue) (ks : list string) : option JsValue :=
  match ks with
  | [] => None
  | k :: rest =>
      match q !! k, throws k with
      | None, Some err => Some err
      | _, _ => read_error q throws rest
      end
  end.

Lemma read_error_None q throws ks :
  read_error q throws ks = None <->
  forall k, k ∈ ks -> q !! k = None -> throws k = None.
Proof.
  induction ks as [|k0 ks IH]; simpl.
  - split; [|done]. intros _ k Hin. by apply elem_of_nil in Hin.
  - destruct (q !! k0) as [e|] eqn:Hq; [|destruct (throws k0) as [err|] eqn:Hb].
    + rewrite IH. split.
      * intros H k Hin Hk. apply elem_of_cons in Hin as [->|Hin]; [congruence|].
        by apply H.
      * intros H k Hin Hk. apply H; [by right|done].
    + split; [done|]. intros H.
      assert (throws k0 = None) by (apply H; [left|done]). congruence.
    + rewrite IH. split.
      * intros H k Hin Hk. apply elem_of_cons in Hin as [->|Hin]; [done|].
        by apply H.
      * intros H k Hin Hk. apply H; [by right|done].
Qed.

Lemma read_error_Some q throws ks err :
  read_error q throws ks = Some err ->
  exists k, k ∈ ks /\ q !! k = None /\ throws k = Some err.
Proof.
  induction ks as [|k0 ks IH]; simpl; [done|].
  destruct (q !! k0) as [e|] eqn:Hq; [|destruct (throws k0) as [err0|] eqn:Hb].
  - intros H. destruct (IH H) as (k & Hin & Hk). exists k. split; [by right|done].
  - intros [= <-]. exists k0. split; [left|done].
  - intros H. destruct (IH H) as (k & Hin & Hk). exists k. split; [by right|done].
Qed.

Lemma read_error_is_Some q throws ks k err :
  k ∈ ks -> q !! k = None -> throws k = Some err ->
  is_Some (read_error q throws ks).
Proof.
  intros Hin Hq Hb. destruct (read_error q throws ks) as [e|] eqn:He; [eauto|].
  rewrite read_error_None in He. rewrite (He k Hin Hq) in Hb. discriminate.
Qed.

(** *** [flush], in closed form *)

Lemma flush_key_eq eventsObject k l :
  flush_key eventsObject k l =
    match FanIn.queued (aggregator l) !! k, broken l k with
    | None, Some err => (l, Abrupt err)
    | _, _ =>
        let acc :=
          FanIn.flush_key (FanIn.queued (aggregator l))
            (FanIn.getCurrentValue (aggregator l))
            (eventsObject, FanIn.lastValues (aggregator l)) k in
        (mkRuntime (FanIn.set_lastValues U acc.2 (aggregator l)) (broken l),
         Normal acc.1)
    end.
Proof.
  unfold flush_key, FanIn.flush_key, lastValues_set, getCurrentValue,
    in_aggregator, Js.bind, Js.gets, Js.modify, Js.ret. simpl.
  destruct (FanIn.queued (aggregator l) !! k) as [e|]; simpl; [done|].
  destruct (broken l k) as [err|]; simpl; [|done].
  by destruct l.
Qed.

Lemma flush_keys_eq ks : forall eventsObject l,
  let rt := aggregator l in
  match read_error (FanIn.queued rt) (broken l) ks with
  | None =>
      let acc :=
        foldl (FanIn.flush_key (FanIn.queued rt) (FanIn.getCurrentValue rt))
          (eventsObject, FanIn.lastValues rt) ks in
      flush_keys ks eventsObject l =
        (mkRuntime (FanIn.set_lastValues U acc.2 rt) (broken l), Normal acc.1)
  | Some err =>
      exists lv,
        flush_keys ks eventsObject l =
          (mkRuntime (FanIn.set_lastValues U lv rt) (broken l), Abrupt err)
  end.
Proof.
  induction ks as [|k ks IH]; intros eventsObject l; simpl.
  - unfold Js.ret. by destruct l as [[] ?].
  - unfold Js.bind. rewrite flush_key_eq.
    destruct (FanIn.queued (aggregator l) !! k) as [e|] eqn:Hq;
      [|destruct (broken l k) as [err|] eqn:Hb].
    + simpl. specialize (IH
        (FanIn.flush_key (FanIn.queued (aggregator l))
           (FanIn.getCurrentValue (aggregator l))
           (eventsObject, FanIn.lastValues (aggregator l)) k).1
        (mkRuntime
           (FanIn.set_lastValues U
              (FanIn.flush_key (FanIn.queued (aggregator l))
                 (FanIn.getCurrentValue (aggregator l))
                 (eventsObject, FanIn.lastValues (aggregator l)) k).2
              (aggregator l)) (broken l))).
      simpl in IH.
      destruct (read_error (FanIn.queued (aggregator l)) (broken l) ks).
      * destruct IH as [lv ->]. by exists lv.
      * rewrite IH. by rewrite <- surjective_pairing.
    + exists (FanIn.lastValues (aggregator l)). by destruct l as [[] ?].
    + simpl. specialize (IH
        (FanIn.flush_key (FanIn.queued (aggregator l))
           (FanIn.getCurrentValue (aggregator l))
           (eventsObject, FanIn.lastValues (aggregator l)) k).1
        (mkRuntime
           (FanIn.set_lastValues U
              (FanIn.flush_key (FanIn.queued (aggregator l))
                 (FanIn.getCurrentValue (aggregator l))
                 (eventsObject, FanIn.lastValues (aggregator l)) k).2
              (aggregator l)) (broken l))).
      simpl in IH.
      destruct (read_error (FanIn.queued (aggregator l)) (broken l) ks).
      * destruct IH as [lv ->]. by exists lv.
      * rewrite IH. by rewrite <- surjective_pairing.
Qed.

Lemma flush_eq l :
  let rt := aggregator l in
  match read_error (FanIn.queued rt) (broken l) watchers with
  | None => flush l = in_aggregator (FanIn.flush name watchers callback) l
  | Some err =>
      exists lv,
        flush l =
          (mkRuntime
             (FanIn.set_lastValues U lv (FanIn.set_flushScheduled U false rt))
             (broken l),
           Abrupt err)
  end.
Proof.
  intros rt.
  pose proof (flush_keys_eq watchers ∅
                (mkRuntime (FanIn.set_flushScheduled U false rt) (broken l)))
    as Hkeys.
  simpl in Hkeys. fold rt in Hkeys.
  destruct (read_error (FanIn.queued rt) (broken l) watchers) as [err|].
  - destruct Hkeys as [lv Hkeys]. exists lv.
    unfold flush, Js.bind. unfold in_aggregator at 1, Js.modify at 1. simpl.
    fold rt. by rewrite Hkeys.
  - unfold flush, Js.bind. unfold in_aggregator at 1, Js.modify at 1. simpl.
    fold rt. rewrite Hkeys. subst rt.
    unfold in_aggregator, FanIn.flush, FanIn.flush_keys, Js.bind, Js.modify,
      Js.gets, FanIn.call_callback. simpl.
    destruct (foldl _ _ watchers) as [eo lv']. simpl.
    destruct (callback eo (FanIn.user (aggregator l))) as [u o]. simpl.
    by destruct o.
Qed.

(** Every read [flush] makes returns. *)
Definition reads_return (l : Runtime) : Prop :=
  forall k, k ∈ watchers -> FanIn.queued (aggregator l) !! k = None ->
            broken l k = None.

(** No declared source is broken. *)
Definition readable (l : Runtime) : Prop :=
  forall k, k ∈ watchers -> broken l k = None.

Lemma readable_reads_return l : readable l -> reads_return l.
Proof. intros H k Hin _. by apply H. Qed.

Lemma flush_returns l :
  reads_return l ->
  flush l = in_aggregator (FanIn.flush name watchers callback) l.
Proof.
  intros Hok. pose proof (flush_eq l) as Heq. simpl in Heq.
  by rewrite (proj2 (read_error_None _ _ _) Hok) in Heq.
Qed.

(** A read that throws: [flush] is left at the read.  The flag is down, the
    turn buffer is as it was and the callback was not called. *)
Lemma flush_throws l k err :
  k ∈ watchers -> FanIn.queued (aggregator l) !! k = None ->
  broken l k = Some err ->
  exists k' err' lv,
    k' ∈ watchers /\ FanIn.queued (aggregator l) !! k' = None /\
    broken l k' = Some err' /\
    flush l =
      (mkRuntime
         (FanIn.set_lastValues U lv
            (FanIn.set_flushScheduled U false (aggregator l)))
         (broken l),
       Abrupt err').
Proof.
  intros Hin Hq Hb. pose proof (flush_eq l) as Heq. simpl in Heq.
  destruct (read_error_is_Some _ _ _ _ _ Hin Hq Hb) as [err' He].
  rewrite He in Heq. destruct Heq as [lv Heq].
  destruct (read_error_Some _ _ _ _ He) as (k' & Hin' & Hq' & Hb').
  by exists k', err', lv.
Qed.

Lemma burst_eq events : forall l,
  burst events l = in_aggregator (FanIn.burst events) l.
Proof.
  induction events as [|e events IH]; intros l.
  - unfold in_aggregator. simpl. unfold Js.ret. by destruct l.
  - change (burst (e :: events) l)
      with (Js.bind (fanIn e) (fun _ => burst events) l).
    unfold Js.bind, fanIn. unfold in_aggregator at 1.
    rewrite FanIn.fanIn_eq, IH. unfold in_aggregator. simpl.
    by rewrite FanIn.burst_cons, FanIn.fanIn_eq.
Qed.

Lemma dispose_nothing_pending l :
  FanIn.flushScheduled (aggregator l) = false ->
  dispose l = in_aggregator (FanIn.dispose name watchers callback) l.
Proof.
  intros Hs. unfold dispose, FanIn.dispose, in_aggregator, Js.bind, Js.gets,
    Js.modify, Js.ret. simpl. by rewrite Hs.
Qed.

Lemma dispose_returns l :
  reads_return l ->
  dispose l = in_aggregator (FanIn.dispose name watchers callback) l.
Proof.
  intros Hok. destruct (FanIn.flushScheduled (aggregator l)) eqn:Hs;
    [|by apply dispose_nothing_pending].
  pose proof (flush_returns l Hok) as Hf.
  destruct l as [rt b]. simpl in Hs.
  unfold dispose, Js.bind, Js.gets, Js.modify. unfold in_aggregator at 1.
  simpl. rewrite Hs, Hf.
  unfold in_aggregator, FanIn.dispose, Js.bind, Js.gets, Js.modify. simpl.
  rewrite Hs.
  by destruct (FanIn.flush name watchers callback rt) as [rt' [[]|err]].
Qed.

(** [dispose] with a flush pending and a read that throws: [dispose] is
    left at the read, before it clears anything. *)
Lemma dispose_throws l k err :
  FanIn.flushScheduled (aggregator l) = true ->
  k ∈ watchers -> FanIn.queued (aggregator l) !! k = None ->
  broken l k = Some err ->
  exists err', (flush l).2 = Abrupt err' /\ dispose l = ((flush l).1, Abrupt err').
Proof.
  intros Hs Hin Hq Hb.
  destruct (flush_throws l k err Hin Hq Hb) as (k' & err' & lv & _ & _ & _ & Heq).
  exists err'. split; [by rewrite Heq|].
  destruct l as [rt b]. simpl in Hs.
  unfold dispose, Js.bind, Js.gets, Js.modify. unfold in_aggregator at 1.
  simpl. by rewrite Hs, Heq.
Qed.

Lemma run_microtask_returns l :
  readable l ->
  run_microtask l =
    mkRuntime (FanIn.run_microtask U name watchers callback (aggregator l))
      (broken l).
Proof.
  intros Hok. unfold run_microtask, FanIn.run_microtask.
  destruct (FanIn.microtasks (aggregator l)) as [|t rest]; [by destruct l|].
  destruct t as [|err]; simpl.
  - rewrite flush_returns by (by apply readable_reads_return).
    unfold in_aggregator. simpl.
    by destruct (FanIn.flush name watchers callback _) as [rt' [[]|err]].
  - reflexivity.
Qed.

Lemma in_aggregator_fst {A} (c : Js.M (FanIn.Runtime U) A) l :
  aggregator (in_aggregator c l).1 = (c (aggregator l)).1.
Proof. unfold in_aggregator. by destruct (c (aggregator l)). Qed.

Lemma in_aggregator_snd {A} (c : Js.M (FanIn.Runtime U) A) l :
  (in_aggregator c l).2 = (c (aggregator l)).2.
Proof. unfold in_aggregator. by destruct (c (aggregator l)). Qed.

Lemma in_aggregator_broken {A} (c : Js.M (FanIn.Runtime U) A) l :
  broken (in_aggregator c l).1 = broken l.
Proof. unfold in_aggregator. by destruct (c (aggregator l)). Qed.

(** *** An id listed once, an id listed again *)

Lemma filter_key_absent (k : string) (ks : list string) :
  k ∉ ks <-> filter (fun k' => k' = k) ks = [].
Proof.
  induction ks as [|k0 ks IH]; [split; [done|intros _; apply not_elem_of_nil]|].
  rewrite filter_cons, not_elem_of_cons.
  destruct (decide (k0 = k)) as [->|Hne].
  - split; [by intros [? _]|done].
  - rewrite <- IH. split; [by intros [_ ?]|]. intros ?. split; [congruence|done].
Qed.

Lemma listed_once_split (k : string) (front back : list string) :
  k ∉ back ->
  length (filter (fun k' => k' = k) (front ++ k :: back)) = 1 <-> k ∉ front.
Proof.
  intros Hback. rewrite filter_app, filter_cons, length_app.
  destruct (decide (k = k)); [|done]. simpl.
  rewrite (proj1 (filter_key_absent k back) Hback). simpl.
  rewrite filter_key_absent.
  destruct (filter (fun k' => k' = k) front); simpl; split; try done; lia.
Qed.

Lemma foldl_flush_key_once q read front back k : forall acc,
  k ∉ front -> k ∉ back ->
  (foldl (FanIn.flush_key q read) acc (front ++ k :: back)).1 !! k =
    Some (FanIn.entry q read acc.2 k) /\
  (foldl (FanIn.flush_key q read) acc (front ++ k :: back)).2 !! k =
    Some (current (FanIn.entry q read acc.2 k)).
Proof.
  intros acc Hfront Hback. rewrite foldl_app. simpl.
  destruct (FanIn.foldl_flush_key_notin q read back
              (FanIn.flush_key q read (foldl (FanIn.flush_key q read) acc front) k)
              k Hback) as [-> ->].
  destruct (FanIn.foldl_flush_key_notin q read front acc k Hfront) as [_ Hlv].
  rewrite FanIn.flush_key_same.
  assert (FanIn.entry q read (foldl (FanIn.flush_key q read) acc front).2 k =
          FanIn.entry q read acc.2 k) as ->.
  { unfold FanIn.entry, map_get. by rewrite Hlv. }
  split; [done|].
  unfold FanIn.flush_key, FanIn.entry.
  destruct (q !! k); simpl; by rewrite lookup_insert_eq.
Qed.

Lemma foldl_flush_key_again q read front back k : forall acc,
  k ∈ front -> q !! k = None ->
  (foldl (FanIn.flush_key q read) acc (front ++ k :: back)).1 !! k =
    Some (FanIn.noop_event k (read k) (read k)).
Proof.
  intros acc Hfront Hq. rewrite foldl_app. simpl.
  apply FanIn.foldl_flush_key_twice; [done| |].
  - rewrite FanIn.flush_key_same. unfold FanIn.entry, map_get. rewrite Hq.
    by rewrite FanIn.foldl_flush_key_seen.
  - unfold FanIn.flush_key. rewrite Hq. simpl. apply lookup_insert_eq.
Qed.

(** The filler of a flush for a declared id with no queued event: its
    [previous] is what the cache held when the id is listed once, and the
    value just read when the id is listed again. *)
Lemma snapshot_filler rt k :
  k ∈ watchers ->
  FanIn.queued rt !! k = None ->
  FanIn.snapshot U watchers rt !! k =
    Some {| id := k;
            current := FanIn.getCurrentValue rt k;
            previous :=
              if decide (length (filter (fun k' => k' = k) watchers) = 1)
              then match FanIn.lastValues rt !! k with
                   | Some v => v
                   | None => JsUndefined
                   end
              else FanIn.getCurrentValue rt k;
            isInitial := false;
            isChanged := false |}.
Proof.
  intros Hin Hq.
  destruct (list_elem_of_split_r _ _ Hin) as (front & back & Hw & Hback).
  unfold FanIn.snapshot, FanIn.flush_keys. rewrite Hw.
  destruct (decide (length (filter (fun k' => k' = k) (front ++ k :: back)) = 1))
    as [Hone|Hmore].
  - apply listed_once_split in Hone; [|done].
    destruct (foldl_flush_key_once (FanIn.queued rt) (FanIn.getCurrentValue rt)
                front back k (∅, FanIn.lastValues rt) Hone Hback) as [-> _].
    unfold FanIn.entry, map_get. rewrite Hq. simpl.
    by destruct (FanIn.lastValues rt !! k).
  - assert (k ∈ front) as Hfront.
    { destruct (decide (k ∈ front)) as [?|Hnot]; [done|].
      destruct Hmore. by apply listed_once_split. }
    by rewrite foldl_flush_key_again.
Qed.

(** *** Claims on the events object *)



Lemma in_aggregator_eq {A} (c : Js.M (FanIn.Runtime U) A) l :
  (in_aggregator c l).1 = mkRuntime (c (aggregator l)).1 (broken l).
Proof. unfold in_aggregator. by destruct (c (aggregator l)). Qed.

(** *** Further properties of the aggregator *)

(** X3. Two flushes in a row of an aggregator whose ids are listed once,
    the reads of both flushes returning.  Whatever entry the first flush
    delivered for a declared id, real or synthetic, if no event names the
    id before the second flush, the second flush delivers for it the
    synthetic entry whose [previous] is the [current] of the first entry
    and whose [current] is read from the source as it then is. *)
Theorem filler_previous_is_last_delivered_current (l : Runtime)
    (events : list WatcherEvent) (read : string -> JsValue)
    (throws : string -> option JsValue) (k : string) :
  NoDup watchers ->
  k ∈ watchers ->
  (forall k', k' ∈ watchers -> FanIn.queued (aggregator l) !! k' = None ->
     broken l k' = None) ->
  (forall k', k' ∈ watchers -> throws k' = None) ->
  Forall (fun ev => id ev <> k) events ->
  let l2 := set_sources read throws (burst events (flush l).1).1 in
  exists firstObject first eventsObject,
    FanIn.delivered (aggregator (flush l2).1) =
      FanIn.delivered (aggregator l) ++ [firstObject; eventsObject] /\
    firstObject !! k = Some first /\
    eventsObject !! k =
      Some {| id := k; current := read k; previous := current first;
              isInitial := false; isChanged := false |}.
Proof.
  intros Hnd Hin Hok Hok2 Hev l2.
  pose proof (FanIn.snapshot_lookup U watchers (aggregator l) k Hnd Hin)
    as Hfirst.
  destruct (FanIn.two_flushes_filler_previous U name watchers callback
              (aggregator l) events read k _ Hnd Hin Hfirst Hev)
    as (eventsObject & Hd & Hk).
  exists (FanIn.snapshot U watchers (aggregator l)),
    (FanIn.entry (FanIn.queued (aggregator l))
       (FanIn.getCurrentValue (aggregator l))
       (FanIn.lastValues (aggregator l)) k),
    eventsObject.
  split; [|by split].
  assert (reads_return l2) as Hret by (intros k' Hin' _; by apply Hok2).
  rewrite (flush_returns l2 Hret), in_aggregator_fst.
  unfold l2. rewrite (flush_returns l Hok), burst_eq.
  by rewrite !in_aggregator_eq.
Qed.

(** X4. [dispose] with a flush pending.  When the reads of the flush
    return and the callback does not throw before returning, the callback
    is called once, inside [dispose], with an events object that holds
    every queued event of a declared id; [dispose] completes normally and
    leaves both maps empty and nothing marked as scheduled.  When a read of
    the flush throws, the error leaves [dispose]: the callback is not
    called and the turn buffer is not cleared. *)
Theorem dispose_delivers_pending_events (l : Runtime) :
  let rt := aggregator l in
  let rt' := aggregator (dispose l).1 in
  FanIn.flushScheduled rt = true ->
  ((forall k, k ∈ watchers -> FanIn.queued rt !! k = None ->
      broken l k = None) ->
   (forall err, FanIn.callback_outcome U watchers callback rt <> Throws err) ->
   (dispose l).2 = Normal tt /\
   (exists eventsObject,
      FanIn.delivered rt' = FanIn.delivered rt ++ [eventsObject] /\
      forall k e, k ∈ watchers -> FanIn.queued rt !! k = Some e ->
                  eventsObject !! k = Some e) /\
   FanIn.queued rt' = ∅ /\
   FanIn.lastValues rt' = ∅ /\
   FanIn.flushScheduled rt' = false) /\
  (forall k err, k ∈ watchers -> FanIn.queued rt !! k = None ->
     broken l k = Some err ->
     exists err',
       (dispose l).2 = Abrupt err' /\
       FanIn.delivered rt' = FanIn.delivered rt /\
       FanIn.queued rt' = FanIn.queued rt /\
       FanIn.flushScheduled rt' = false).
Proof.
  intros rt rt' Hs. split.
  - intros Hok Hno. unfold rt'.
    rewrite (dispose_returns l Hok), in_aggregator_fst, in_aggregator_snd.
    fold rt.
    destruct (FanIn.dispose_flushes_then_clears U name watchers callback rt
                Hs Hno) as (H1 & H2 & H3 & H4 & H5).
    split; [done|]. split; [|done].
    exists (FanIn.snapshot U watchers rt). split; [done|].
    intros k e Hin Hq. by apply FanIn.snapshot_lookup_queued.
  - intros k err Hin Hq Hb.
    destruct (dispose_throws l k err Hs Hin Hq Hb) as (err' & _ & Hd).
    destruct (flush_throws l k err Hin Hq Hb)
      as (k' & err'' & lv & _ & _ & _ & Hf).
    exists err'. unfold rt'. rewrite Hd, Hf. by repeat split.
Qed.

(** X6. [dispose] cannot take back the flush that [fanIn] scheduled.  For
    an aggregator whose ids are listed once, whose sources are readable
    and whose callback does not throw before returning: after a burst and
    a [dispose] the job is still on the microtask queue, and when the host
    runs it the callback is called once more, with an events object in
    which every declared id has the synthetic entry: [isChanged] false,
    [previous] [undefined] (the cache was cleared) and [current] a live
    read. *)
Theorem dispose_leaves_scheduled_flush (l : Runtime)
    (events : list WatcherEvent) :
  NoDup watchers ->
  (forall k, k ∈ watchers -> broken l k = None) ->
  FanIn.quiescent U (aggregator l) ->
  events <> [] ->
  (forall err,
     FanIn.callback_outcome U watchers callback (aggregator (burst events l).1)
       <> Throws err) ->
  let l1 := (dispose (burst events l).1).1 in
  (exists rest, FanIn.microtasks (aggregator l1) = FanIn.MtFlush :: rest) /\
  FanIn.flushScheduled (aggregator l1) = false /\
  exists eventsObject,
    FanIn.delivered (aggregator (run_microtask l1)) =
      FanIn.delivered (aggregator l1) ++ [eventsObject] /\
    forall k, k ∈ watchers ->
      eventsObject !! k =
        Some {| id := k; current := FanIn.getCurrentValue (aggregator l) k;
                previous := JsUndefined;
                isInitial := false; isChanged := false |}.
Proof.
  intros Hnd Hok Hq Hne Hno l1.
  assert (readable (burst events l).1) as Hok1.
  { intros k Hin. rewrite burst_eq, in_aggregator_broken. by apply Hok. }
  assert (readable l1) as Hok2.
  { intros k Hin. unfold l1.
    rewrite (dispose_returns _ (readable_reads_return _ Hok1)).
    rewrite in_aggregator_broken. by apply Hok1. }
  rewrite (run_microtask_returns l1 Hok2). simpl.
  assert (aggregator l1 =
          (FanIn.dispose name watchers callback
             (FanIn.burst events (aggregator l)).1).1) as Heq.
  { unfold l1.
    rewrite (dispose_returns _ (readable_reads_return _ Hok1)).
    by rewrite in_aggregator_fst, burst_eq, in_aggregator_fst. }
  rewrite Heq.
  rewrite burst_eq, in_aggregator_fst in Hno.
  exact (FanIn.disposed_flush_job_runs U name watchers callback (aggregator l)
           events Hnd Hq Hne Hno).
Qed.

(** What happens to an aggregator between its creation and any later
    moment, its sources staying readable: [fanIn] calls, the host running
    the oldest microtask, [dispose] and changes of what the sources hold. *)
Definition run_step (l : Runtime) (s : FanIn.Step) : Runtime :=
  match s with
  | FanIn.StepFanIn event => (fanIn event l).1
  | FanIn.StepMicrotask => run_microtask l
  | FanIn.StepDispose => (dispose l).1
  | FanIn.StepSources read => set_sources read (broken l) l
  end.

Lemma run_step_readable l s :
  readable l ->
  run_step l s =
    mkRuntime (FanIn.run_step U name watchers callback (aggregator l) s)
      (broken l).
Proof.
  intros Hok. destruct s as [event| | |read]; simpl.
  - unfold fanIn. apply in_aggregator_eq.
  - by apply run_microtask_returns.
  - rewrite (dispose_returns l (readable_reads_return l Hok)).
    apply in_aggregator_eq.
  - reflexivity.
Qed.

(** X8. While the reads of the declared sources return, no event is left
    stranded in the turn buffer.  Starting with an empty buffer and nothing
    scheduled, after any sequence of [fanIn] calls, microtask runs,
    [dispose] calls and changes of the values the sources hold: if the
    buffer holds an event then a flush is scheduled, and then a flush job
    is on the microtask queue. *)
Theorem queued_event_has_flush_job (l : Runtime) (steps : list FanIn.Step) :
  (forall k, k ∈ watchers -> broken l k = None) ->
  FanIn.queued (aggregator l) = ∅ ->
  FanIn.flushScheduled (aggregator l) = false ->
  let rt' := aggregator (foldl run_step l steps) in
  (FanIn.queued rt' <> ∅ -> FanIn.flushScheduled rt' = true) /\
  (FanIn.flushScheduled rt' = true -> FanIn.MtFlush ∈ FanIn.microtasks rt').
Proof.
  intros Hok Hq Hs.
  assert (FanIn.flush_pending_if_queued U (aggregator l)) as Hinv
    by (split; congruence).
  clear Hq Hs. revert l Hok Hinv.
  induction steps as [|s steps IH]; intros l Hok Hinv; [done|].
  simpl. rewrite (run_step_readable l s Hok). apply IH.
  - done.
  - by apply FanIn.run_step_flush_pending_if_queued.
Qed.

Lemma burst_uncaught events : forall rt : FanIn.Runtime U,
  FanIn.uncaught (FanIn.burst events rt).1 = FanIn.uncaught rt.
Proof.
  induction events as [|e events IH]; intros rt; [done|].
  by rewrite FanIn.burst_cons, IH, FanIn.fanIn_eq.
Qed.

Lemma last_filter_last {X} (P : X -> Prop) `{!forall x, Decision (P x)}
    (xs : list X) (x : X) :
  last xs = Some x -> P x -> last (filter P xs) = Some x.
Proof.
  intros Hlast HP. apply last_Some in Hlast as [xs' ->].
  rewrite filter_app, filter_cons. destruct (decide (P x)); [|done].
  rewrite filter_nil. apply last_snoc.
Qed.

(** X30. A read that throws strands the queued events.  A burst reaches
    an aggregator that has a declared source whose read throws and that
    the burst does not name.  When the host runs the flush job, the flush
    is left at the read: the error reaches the host as uncaught, the
    callback is not called, the events stay in the turn buffer, and no
    flush is scheduled any more.  A later [fanIn] schedules a flush again;
    a [dispose] instead completes, calls the callback not at all and
    drops the events. *)
Theorem thrown_read_strands_queued_events (l : Runtime)
    (events : list WatcherEvent) (later : WatcherEvent)
    (k : string) (err : JsValue) :
  FanIn.quiescent U (aggregator l) ->
  events <> [] ->
  k ∈ watchers ->
  Forall (fun ev => id ev <> k) events ->
  FanIn.queued (aggregator l) !! k = None ->
  broken l k = Some err ->
  let rt := aggregator l in
  let l1 := run_microtask (burst events l).1 in
  let rt1 := aggregator l1 in
  (exists err', FanIn.uncaught rt1 = FanIn.uncaught rt ++ [err']) /\
  FanIn.delivered rt1 = FanIn.delivered rt /\
  (forall e, last events = Some e -> FanIn.queued rt1 !! id e = Some e) /\
  FanIn.flushScheduled rt1 = false /\
  FanIn.microtasks rt1 = [] /\
  FanIn.microtasks (aggregator (fanIn later l1).1) = [FanIn.MtFlush] /\
  (dispose l1).2 = Normal tt /\
  FanIn.delivered (aggregator (dispose l1).1) = FanIn.delivered rt /\
  FanIn.queued (aggregator (dispose l1).1) = ∅.
Proof.
  intros [Hs Hm] Hne Hin Hev Hq Hb rt l1 rt1.
  set (rt0 := (FanIn.burst events rt).1).
  assert ((burst events l).1 = mkRuntime rt0 (broken l)) as Hl0
    by (by rewrite burst_eq, in_aggregator_eq).
  assert (FanIn.microtasks rt0 = [FanIn.MtFlush]) as Hm0.
  { unfold rt0. rewrite FanIn.burst_microtasks. fold rt in Hs, Hm.
    rewrite Hs, Hm. by destruct events. }
  assert (FanIn.queued rt0 !! k = None) as Hq0.
  { unfold rt0. rewrite FanIn.burst_queued.
    by rewrite (FanIn.filter_id_none events k Hev). }
  destruct (flush_throws
              (mkRuntime (FanIn.set_microtasks U [] rt0) (broken l)) k err
              Hin Hq0 Hb) as (k' & err' & lv & _ & _ & _ & Hflush).
  assert (l1 =
          mkRuntime
            (FanIn.report_uncaught U err'
               (FanIn.set_lastValues U lv
                  (FanIn.set_flushScheduled U false
                     (FanIn.set_microtasks U [] rt0))))
            (broken l)) as Hl1.
  { unfold l1, run_microtask. rewrite Hl0. simpl. rewrite Hm0. simpl.
    by rewrite Hflush. }
  unfold rt1. rewrite Hl1. simpl.
  split; [|split; [|split; [|split; [done|split; [done|]]]]].
  - exists err'. unfold rt0. by rewrite burst_uncaught.
  - unfold rt0. by rewrite FanIn.burst_delivered.
  - intros e He. unfold rt0. rewrite FanIn.burst_queued.
    by rewrite (last_filter_last _ events e He).
  - split; [done|]. split; [done|]. split; [|done].
    unfold rt0. by rewrite FanIn.burst_delivered.
Qed.

End Aggregator.

Arguments mkRuntime {U}.
Arguments aggregator {U}.
Arguments broken {U}.
Arguments flush {U}.
Arguments fanIn {U}.
Arguments burst {U}.
Arguments dispose {U}.
Arguments run_microtask {U}.
Arguments run_step {U}.
Arguments set_sources {U}.

(** *** The concrete aggregator and its sources *)

(** Every source is readable. *)
Definition all_readable : string -> option JsValue := fun _ => None.

(** The read of [k] throws [err]: there is no watcher under [k], or the
    store's [get] of the atom throws. *)
Definition throwing_read (k : string) (err : JsValue)
    : string -> option JsValue :=
  fun k' => if decide (k' = k) then Some err else None.

(** An event of [a] is queued and the flush is scheduled; nothing is
    cached for [b]. *)
Definition one_event (throws : string -> option JsValue) : Runtime unit :=
  mkRuntime FanIn.one_event throws.





Lemma filler_previous_is_last_delivered_current_witness :
  let l := one_event all_readable in
  let read := FanIn.sources (JsNum 11) (JsStr "z") in
  NoDup ["a"; "b"] /\
  "b" ∈ ["a"; "b"] /\
  Forall (fun ev => id ev <> "b") [FanIn.event_a 11 10] /\
  let l2 :=
    set_sources read all_readable
      (burst [FanIn.event_a 11 10]
         (flush "testCfg" ["a"; "b"] FanIn.returning l).1).1 in
  exists firstObject first eventsObject,
    FanIn.delivered
      (aggregator (flush "testCfg" ["a"; "b"] FanIn.returning l2).1) =
      FanIn.delivered (aggregator l) ++ [firstObject; eventsObject] /\
    firstObject !! "b" = Some first /\
    eventsObject !! "b" =
      Some {| id := "b"; current := read "b"; previous := current first;
              isInitial := false; isChanged := false |}.
Proof.
  intros l read.
  assert (NoDup ["a"; "b"]) as Hnd by compute_done.
  assert ("b" ∈ ["a"; "b"]) as Hin by compute_done.
  assert (Forall (fun ev => id ev <> "b") [FanIn.event_a 11 10]) as Hev
    by (repeat constructor; discriminate).
  split; [exact Hnd|]. split; [exact Hin|]. split; [exact Hev|].
  exact (filler_previous_is_last_delivered_current unit "testCfg" ["a"; "b"]
           FanIn.returning l [FanIn.event_a 11 10] read all_readable "b"
           Hnd Hin (fun _ _ _ => eq_refl) (fun _ _ => eq_refl) Hev).
Defined.

Lemma dispose_delivers_pending_events_witness :
  let l := one_event all_readable in
  let rt := aggregator l in
  let rt' := aggregator (dispose "testCfg" ["a"; "b"] FanIn.returning l).1 in
  FanIn.flushScheduled rt = true /\
  (dispose "testCfg" ["a"; "b"] FanIn.returning l).2 = Normal tt /\
  (exists eventsObject,
     FanIn.delivered rt' = FanIn.delivered rt ++ [eventsObject] /\
     forall k e, k ∈ ["a"; "b"] -> FanIn.queued rt !! k = Some e ->
                 eventsObject !! k = Some e) /\
  FanIn.queued rt' = ∅ /\
  FanIn.lastValues rt' = ∅ /\
  FanIn.flushScheduled rt' = false.
Proof.
  intros l rt rt'. split; [reflexivity|].
  apply (dispose_delivers_pending_events unit "testCfg" ["a"; "b"]
           FanIn.returning l).
  - reflexivity.
  - reflexivity.
  - apply FanIn.returning_never_throws.
Defined.

(** [dispose] with the flush pending and a read that throws: the queued
    event of [a] is neither delivered nor cleared. *)
Example dispose_thrown_read_keeps_queue :
  let l := one_event (throwing_read "b" (JsStr "TypeError")) in
  let l' := (dispose "testCfg" ["a"; "b"] FanIn.returning l).1 in
  (dispose "testCfg" ["a"; "b"] FanIn.returning l).2 =
    Abrupt (JsStr "TypeError") /\
  FanIn.delivered (aggregator l') = [] /\
  FanIn.queued (aggregator l') !! "a" = Some (FanIn.event_a 5 4) /\
  FanIn.lastValues (aggregator l') !! "a" = Some (JsNum 5).
Proof. repeat split; vm_compute; reflexivity. Qed.

Lemma dispose_leaves_scheduled_flush_witness :
  let l := mkRuntime (FanIn.created (JsNum 0) (JsStr "x")) all_readable in
  NoDup ["a"; "b"] /\
  FanIn.quiescent unit (aggregator l) /\
  let l1 :=
    (dispose "testCfg" ["a"; "b"] FanIn.returning
       (burst [FanIn.event_a 5 4] l).1).1 in
  (exists rest, FanIn.microtasks (aggregator l1) = FanIn.MtFlush :: rest) /\
  FanIn.flushScheduled (aggregator l1) = false /\
  exists eventsObject,
    FanIn.delivered
      (aggregator (run_microtask "testCfg" ["a"; "b"] FanIn.returning l1)) =
      FanIn.delivered (aggregator l1) ++ [eventsObject] /\
    forall k, k ∈ ["a"; "b"] ->
      eventsObject !! k =
        Some {| id := k; current := FanIn.getCurrentValue (aggregator l) k;
                previous := JsUndefined;
                isInitial := false; isChanged := false |}.
Proof.
  intros l.
  assert (NoDup ["a"; "b"]) as Hnd by compute_done.
  assert (FanIn.quiescent unit (aggregator l)) as Hq by (split; reflexivity).
  split; [exact Hnd|]. split; [exact Hq|].
  apply (dispose_leaves_scheduled_flush unit "testCfg" ["a"; "b"]
           FanIn.returning l [FanIn.event_a 5 4] Hnd).
  - reflexivity.
  - exact Hq.
  - discriminate.
  - intros err. apply FanIn.returning_never_throws.
Defined.

Lemma queued_event_has_flush_job_witness :
  let l := mkRuntime (FanIn.created (JsNum 0) (JsStr "x")) all_readable in
  let steps :=
    [FanIn.StepFanIn (FanIn.event_a 1 0); FanIn.StepDispose;
     FanIn.StepSources (FanIn.sources (JsNum 2) (JsStr "y"));
     FanIn.StepFanIn (FanIn.event_a 2 1); FanIn.StepMicrotask] in
  FanIn.queued (aggregator l) = ∅ /\
  FanIn.flushScheduled (aggregator l) = false /\
  let rt' :=
    aggregator
      (foldl (run_step "testCfg" ["a"; "b"] FanIn.returning) l steps) in
  (FanIn.queued rt' <> ∅ -> FanIn.flushScheduled rt' = true) /\
  (FanIn.flushScheduled rt' = true -> FanIn.MtFlush ∈ FanIn.microtasks rt').
Proof.
  intros l steps. split; [reflexivity|]. split; [reflexivity|].
  apply (queued_event_has_flush_job unit "testCfg" ["a"; "b"] FanIn.returning
           l steps); reflexivity.
Defined.

Lemma thrown_read_strands_queued_events_witness :
  let l :=
    mkRuntime (FanIn.created (JsNum 0) (JsStr "x"))
      (throwing_read "b" (JsStr "TypeError")) in
  let events := [FanIn.event_a 5 4] in
  let rt := aggregator l in
  let l1 :=
    run_microtask "testCfg" ["a"; "b"] FanIn.returning (burst events l).1 in
  let rt1 := aggregator l1 in
  FanIn.quiescent unit rt /\
  Forall (fun ev => id ev <> "b") events /\
  broken l "b" = Some (JsStr "TypeError") /\
  (exists err', FanIn.uncaught rt1 = FanIn.uncaught rt ++ [err']) /\
  FanIn.delivered rt1 = FanIn.delivered rt /\
  (forall e, last events = Some e -> FanIn.queued rt1 !! id e = Some e) /\
  FanIn.flushScheduled rt1 = false /\
  FanIn.microtasks rt1 = [] /\
  FanIn.microtasks (aggregator (fanIn (FanIn.event_a 6 5) l1).1) =
    [FanIn.MtFlush] /\
  (dispose "testCfg" ["a"; "b"] FanIn.returning l1).2 = Normal tt /\
  FanIn.delivered
    (aggregator (dispose "testCfg" ["a"; "b"] FanIn.returning l1).1) =
    FanIn.delivered rt /\
  FanIn.queued
    (aggregator (dispose "testCfg" ["a"; "b"] FanIn.returning l1).1) = ∅.
Proof.
  intros l events rt l1 rt1.
  assert (FanIn.quiescent unit rt) as Hq by (split; reflexivity).
  assert (Forall (fun ev => id ev <> "b") events) as Hev
    by (repeat constructor; discriminate).
  split; [exact Hq|]. split; [exact Hev|]. split; [reflexivity|].
  apply (thrown_read_strands_queued_events unit "testCfg" ["a"; "b"]
           FanIn.returning l events (FanIn.event_a 6 5) "b"
           (JsStr "TypeError") Hq).
  - discriminate.
  - compute_done.
  - exact Hev.
  - reflexivity.
  - reflexivity.
Defined.

(** The stranded event on the concrete aggregator: the error of the read
    is the only thing the host sees of the turn. *)
Example thrown_read_reaches_the_host :
  let l :=
    mkRuntime (FanIn.created (JsNum 0) (JsStr "x"))
      (throwing_read "b" (JsStr "TypeError")) in
  let l1 :=
    run_microtask "testCfg" ["a"; "b"] FanIn.returning
      (burst [FanIn.event_a 5 4] l).1 in
  FanIn.uncaught (aggregator l1) = [JsStr "TypeError"] /\
  FanIn.delivered (aggregator l1) = [] /\
  FanIn.queued (aggregator l1) !! "a" = Some (FanIn.event_a 5 4) /\
  FanIn.logs (aggregator l1) = [].
Proof. repeat split; vm_compute; reflexivity. Qed.

End LiveFanIn.

(** ** singleAtomWatcher.ts *)

Module Watcher.

(** [Map.prototype.set] on a map kept in insertion order: an existing key
    keeps its place and takes the new value, a new key goes last. *)
Fixpoint map_set {V : Type} (k : string) (v : V) (m : list (string * V))
    : list (string * V) :=
  match m with
  | [] => [(k, v)]
  | (k', v') :: rest =>
      if decide (k' = k) then (k, v) :: rest else (k', v') :: map_set k v rest
  end.

(** [Map.prototype.delete]: the map without the key, and whether the key
    was there. *)
Fixpoint map_delete {V : Type} (k : string) (m : list (string * V))
    : list (string * V) * bool :=
  match m with
  | [] => ([], false)
  | (k', v') :: rest =>
      if decide (k' = k) then (rest, true)
      else let '(rest', found) := map_delete k rest in ((k', v') :: rest', found)
  end.

Section SingleAtomWatcher.

(** State of the user's program, touched only by the registered callbacks. *)
Variable U : Type.

Variable watcherId : string.

(** types.ts, [SingleAtomCallback]. *)
Definition SingleAtomCallback : Type := WatcherEvent -> U -> U * Outcome unit.

(** The closure variables [callbacks], [unsubscribe] and [previousValue],
    the store for the watched atom, and the host. *)
Record Runtime : Type := mkRuntime {
  callbacks : list (string * SingleAtomCallback);
  (** the handle of the live subscription, or [null] *)
  unsubscribe : option nat;
  previousValue : JsValue;
  (** [store.get(atom)] *)
  atomValue : JsValue;
  (** the listeners subscribed to the atom, by subscription handle *)
  listeners : list nat;
  (** the number of [store.sub] calls so far *)
  subscriptions : nat;
  (** logger calls, oldest first *)
  logs : list LogEntry;
  (** the events passed to [dispatchEvent], oldest first *)
  dispatched : list WatcherEvent;
  (** the callback invocations, by callback id, oldest first *)
  invoked : list (string * WatcherEvent);
  (** rejections of promises nobody awaits *)
  unhandled : list JsValue;
  user : U;
}.

Definition set_callbacks (c : list (string * SingleAtomCallback)) (rt : Runtime)
    : Runtime :=
  mkRuntime c (unsubscribe rt) (previousValue rt) (atomValue rt) (listeners rt)
    (subscriptions rt) (logs rt) (dispatched rt) (invoked rt) (unhandled rt)
    (user rt).

Definition set_unsubscribe (h : option nat) (rt : Runtime) : Runtime :=
  mkRuntime (callbacks rt) h (previousValue rt) (atomValue rt) (listeners rt)
    (subscriptions rt) (logs rt) (dispatched rt) (invoked rt) (unhandled rt)
    (user rt).

Definition set_previousValue (v : JsValue) (rt : Runtime) : Runtime :=
  mkRuntime (callbacks rt) (unsubscribe rt) v (atomValue rt) (listeners rt)
    (subscriptions rt) (logs rt) (dispatched rt) (invoked rt) (unhandled rt)
    (user rt).

Definition set_atomValue (v : JsValue) (rt : Runtime) : Runtime :=
  mkRuntime (callbacks rt) (unsubscribe rt) (previousValue rt) v (listeners rt)
    (subscriptions rt) (logs rt) (dispatched rt) (invoked rt) (unhandled rt)
    (user rt).

Definition logger (l : LogLevel) (msg : string) (a : list LogArg)
    (rt : Runtime) : Runtime :=
  mkRuntime (callbacks rt) (unsubscribe rt) (previousValue rt) (atomValue rt)
    (listeners rt) (subscriptions rt) (logs rt ++ [mkLog l msg a])
    (dispatched rt) (invoked rt) (unhandled rt) (user rt).

Definition record_dispatch (event : WatcherEvent) (rt : Runtime) : Runtime :=
  mkRuntime (callbacks rt) (unsubscribe rt) (previousValue rt) (atomValue rt)
    (listeners rt) (subscriptions rt) (logs rt) (dispatched rt ++ [event])
    (invoked rt) (unhandled rt) (user rt).

Definition report_unhandled (err : JsValue) (rt : Runtime) : Runtime :=
  mkRuntime (callbacks rt) (unsubscribe rt) (previousValue rt) (atomValue rt)
    (listeners rt) (subscriptions rt) (logs rt) (dispatched rt) (invoked rt)
    (unhandled rt ++ [err]) (user rt).

(** The store is the external source of the watcher: a value that can be
    read, and listeners that are notified, without payload, when the value
    changes.  [store.sub(atom, listener)] adds the listener; a fresh handle
    stands for the unsubscribe function it returns. *)
Definition store_sub : Js.M Runtime nat :=
  fun rt =>
    let h := subscriptions rt in
    (mkRuntime (callbacks rt) (unsubscribe rt) (previousValue rt) (atomValue rt)
       (listeners rt ++ [h]) (S h) (logs rt) (dispatched rt) (invoked rt)
       (unhandled rt) (user rt),
     Normal h).

(** Calling the unsubscribe function of handle [h]. *)
Definition store_unsub (h : nat) (rt : Runtime) : Runtime :=
  mkRuntime (callbacks rt) (unsubscribe rt) (previousValue rt) (atomValue rt)
    (filter (fun h' => h' <> h) (listeners rt)) (subscriptions rt) (logs rt)
    (dispatched rt) (invoked rt) (unhandled rt) (user rt).

(** Calling a registered callback [cb(event)]. *)
Definition call_callback (cbId : string) (cb : SingleAtomCallback)
    (event : WatcherEvent) : Js.M Runtime (Outcome unit) :=
  fun rt =>
    let '(u, o) := cb event (user rt) in
    (mkRuntime (callbacks rt) (unsubscribe rt) (previousValue rt) (atomValue rt)
       (listeners rt) (subscriptions rt) (logs rt) (dispatched rt)
       (invoked rt ++ [(cbId, event)]) (unhandled rt) u,
     Normal o).

(** Calling an [async] function without awaiting it: the call itself
    completes normally; a rejection of its promise is nobody's to handle.
    The run of the function is taken whole, at the call.  In the source it
    is suspended at each [await]: of a dispatch, only the call of the first
    callback happens before the caller goes on, and the later ones follow
    in later microtasks, in the same order. *)
Definition not_awaited (c : Js.M Runtime unit) : Js.M Runtime unit :=
  fun rt =>
    match c rt with
    | (rt', Normal _) => (rt', Normal tt)
    | (rt', Abrupt err) => (report_unhandled err rt', Normal tt)
    end.

(** The body of the loop in [dispatchEvent]. *)
Definition dispatch_one (event : WatcherEvent)
    (entry : string * SingleAtomCallback) : Js.M Runtime unit :=
  Js.try_catch
    (do o <- call_callback entry.1 entry.2 event ;
     Js.await o)
    (fun err =>
       Js.modify (logger Error ("Error in callback " +:+ entry.1 +:+ ":")
                    [ArgValue err])).

Definition dispatchEvent (event : WatcherEvent) : Js.M Runtime unit :=
  do cbs <- Js.gets callbacks ;
  Js.modify (logger Debug ("Dispatching event for watcher " +:+ watcherId)
               [ArgDispatch (length cbs) event]) ;;
  Js.modify (record_dispatch event) ;;
  Js.for_of cbs (dispatch_one event).

Definition addCallback (cb : SingleAtomCallback) (cbId : string)
    : Js.M Runtime unit :=
  Js.modify (fun rt => set_callbacks (map_set cbId cb (callbacks rt)) rt) ;;
  Js.modify (logger Debug
               ("Added callback " +:+ cbId +:+ " to watcher " +:+ watcherId) []).

Definition removeCallback (cbId : string) : Js.M Runtime bool :=
  do cbs <- Js.gets callbacks ;
  let '(cbs', found) := map_delete cbId cbs in
  Js.modify (set_callbacks cbs') ;;
  Js.ret found.

Definition removeAllCallbacks : Js.M Runtime unit :=
  Js.modify (set_callbacks []).

Definition makeEvent (cur : JsValue) (initial : bool) : Js.M Runtime WatcherEvent :=
  do prev <- Js.gets previousValue ;
  Js.ret {| id := watcherId; current := cur; previous := prev;
            isInitial := initial; isChanged := true |}.

(** The function [startWatching] passes to [store.sub]. *)
Definition listener : Js.M Runtime unit :=
  do currentValue <- Js.gets atomValue ;
  do event <- makeEvent currentValue false ;
  Js.modify (set_previousValue currentValue) ;;
  not_awaited (dispatchEvent event).

Definition startWatching : Js.M Runtime unit :=
  do u <- Js.gets unsubscribe ;
  match u with
  | Some _ => Js.ret tt
  | None =>
      Js.modify (set_previousValue JsUndefined) ;;
      do h <- store_sub ;
      Js.modify (set_unsubscribe (Some h)) ;;
      do initialValue <- Js.gets atomValue ;
      Js.modify (set_previousValue initialValue) ;;
      do initialEvent <- makeEvent initialValue true ;
      not_awaited (dispatchEvent initialEvent)
  end.

Definition stopWatching : Js.M Runtime unit :=
  do u <- Js.gets unsubscribe ;
  match u with
  | Some h =>
      Js.modify (store_unsub h) ;;
      Js.modify (set_unsubscribe None)
  | None => Js.ret tt
  end.

Definition getCurrentValue : Js.M Runtime JsValue := Js.gets atomValue.

(** The store notifies every subscribed listener; the only listeners of the
    atom in this runtime are the watcher's. *)
Definition notify : Js.M Runtime unit :=
  do ls <- Js.gets listeners ;
  Js.for_of ls (fun _ => listener).

(** [store.set(atom, v)]: listeners are notified only when the value
    changes. *)
Definition store_set (v : JsValue) : Js.M Runtime unit :=
  do old <- Js.gets atomValue ;
  if decide (old = v) then Js.ret tt
  else Js.modify (set_atomValue v) ;; notify.

(** *** Dispatch *)

(** The user state after one callback has settled. *)
Definition after_callback (event : WatcherEvent) (u : U)
    (entry : string * SingleAtomCallback) : U :=
  (entry.2 event u).1.

Definition callback_error (cbId : string) (err : JsValue) : LogEntry :=
  mkLog Error ("Error in callback " +:+ cbId +:+ ":") [ArgValue err].

(** The error entries a dispatch over [cbs] writes, starting in user
    state [u]. *)
Fixpoint error_entries (event : WatcherEvent)
    (cbs : list (string * SingleAtomCallback)) (u : U) : list LogEntry :=
  match cbs with
  | [] => []
  | entry :: rest =>
      match failure (entry.2 event u).2 with
      | Some err => [callback_error entry.1 err]
      | None => []
      end ++ error_entries event rest (after_callback event u entry)
  end.

Lemma for_of_dispatch_one event cbs : forall rt,
  Js.for_of cbs (dispatch_one event) rt =
    (mkRuntime (callbacks rt) (unsubscribe rt) (previousValue rt) (atomValue rt)
       (listeners rt) (subscriptions rt)
       (logs rt ++ error_entries event cbs (user rt))
       (dispatched rt)
       (invoked rt ++ map (fun entry => (entry.1, event)) cbs)
       (unhandled rt)
       (foldl (after_callback event) (user rt) cbs),
     Normal tt).
Proof.
  induction cbs as [|[cbId cb] cbs IH]; intros rt; simpl.
  - unfold Js.ret. rewrite !app_nil_r. by destruct rt.
  - unfold Js.bind at 1. unfold dispatch_one, Js.try_catch, Js.bind,
      call_callback, after_callback. simpl.
    destruct (cb event (user rt)) as [u o] eqn:Hcb. simpl.
    destruct o; simpl; rewrite IH; simpl;
      rewrite <- ?app_assoc; reflexivity.
Qed.

Lemma dispatchEvent_eq event rt :
  dispatchEvent event rt =
    (mkRuntime (callbacks rt) (unsubscribe rt) (previousValue rt) (atomValue rt)
       (listeners rt) (subscriptions rt)
       (logs rt ++
          mkLog Debug ("Dispatching event for watcher " +:+ watcherId)
            [ArgDispatch (length (callbacks rt)) event]
          :: error_entries event (callbacks rt) (user rt))
       (dispatched rt ++ [event])
       (invoked rt ++ map (fun entry => (entry.1, event)) (callbacks rt))
       (unhandled rt)
       (foldl (after_callback event) (user rt) (callbacks rt)),
     Normal tt).
Proof.
  unfold dispatchEvent, Js.bind, Js.gets, Js.modify. simpl.
  rewrite for_of_dispatch_one. simpl. by rewrite <- app_assoc.
Qed.

Lemma not_awaited_dispatchEvent event rt :
  not_awaited (dispatchEvent event) rt = dispatchEvent event rt.
Proof. unfold not_awaited. by rewrite dispatchEvent_eq. Qed.

Lemma error_entries_elem event : forall cbs u i entry err,
  cbs !! i = Some entry ->
  failure (entry.2 event (foldl (after_callback event) u (take i cbs))).2
    = Some err ->
  callback_error entry.1 err ∈ error_entries event cbs u.
Proof.
  induction cbs as [|c cbs IH]; intros u i entry err Hi Hf; [done|].
  destruct i as [|i].
  - injection Hi as ->. simpl in Hf.
    change (error_entries event (entry :: cbs) u) with
      (match failure (entry.2 event u).2 with
       | Some err => [callback_error entry.1 err]
       | None => []
       end ++ error_entries event cbs (after_callback event u entry)).
    rewrite Hf. left.
  - change (error_entries event (c :: cbs) u) with
      (match failure (c.2 event u).2 with
       | Some err => [callback_error c.1 err]
       | None => []
       end ++ error_entries event cbs (after_callback event u c)).
    apply elem_of_app. right. by eapply IH.
Qed.

(** *** Registration *)

Lemma map_set_fresh {V} (k : string) (v : V) m :
  k ∉ map fst m -> map_set k v m = m ++ [(k, v)].
Proof.
  induction m as [|[k' v'] m IH]; intros Hk; simpl; [done|].
  simpl in Hk. apply not_elem_of_cons in Hk as [Hne Hk].
  destruct (decide (k' = k)); [congruence|]. by rewrite IH.
Qed.

Lemma map_set_keys {V} (k : string) (v : V) m :
  k ∈ map fst m -> map fst (map_set k v m) = map fst m.
Proof.
  induction m as [|[k' v'] m IH]; intros Hk; simpl.
  - by apply elem_of_nil in Hk.
  - destruct (decide (k' = k)) as [->|Hne]; [done|]. simpl. f_equal.
    apply IH. simpl in Hk. apply elem_of_cons in Hk as [->|Hk]; done.
Qed.

Lemma addCallback_callbacks cb cbId rt :
  callbacks (addCallback cb cbId rt).1 = map_set cbId cb (callbacks rt).
Proof. reflexivity. Qed.

(** Callbacks registered under distinct ids are kept in the order of their
    registration. *)
Lemma addCallback_order : forall (entries : list (string * SingleAtomCallback)) rt,
  NoDup (map fst entries) ->
  (forall k, k ∈ map fst entries -> k ∉ map fst (callbacks rt)) ->
  callbacks (foldl (fun r entry => (addCallback entry.2 entry.1 r).1) rt entries)
    = callbacks rt ++ entries.
Proof.
  induction entries as [|[k cb] entries IH]; intros rt Hnd Hfresh.
  - simpl. by rewrite app_nil_r.
  - simpl in Hnd, Hfresh. apply NoDup_cons in Hnd as [Hk Hnd].
    cbn [foldl]. rewrite IH; [| done |].
    + rewrite addCallback_callbacks, map_set_fresh.
      * by rewrite <- app_assoc.
      * apply Hfresh. left.
    + intros k' Hk'. rewrite addCallback_callbacks, map_set_fresh.
      * rewrite map_app. simpl. intros Hin.
        apply elem_of_app in Hin as [Hin|Hin].
        -- eapply Hfresh; [right; exact Hk'|done].
        -- apply list_elem_of_singleton in Hin. subst k'. contradiction.
      * apply Hfresh. left.
Qed.

(** *** Claim on dispatch *)


(** *** Watching *)

(** The runtime in which [startWatching] dispatches the initial event. *)
Definition subscribed (rt : Runtime) : Runtime :=
  mkRuntime (callbacks rt) (Some (subscriptions rt)) (atomValue rt)
    (atomValue rt) (listeners rt ++ [subscriptions rt]) (S (subscriptions rt))
    (logs rt) (dispatched rt) (invoked rt) (unhandled rt) (user rt).

Lemma startWatching_eq rt :
  unsubscribe rt = None ->
  startWatching rt =
    dispatchEvent
      {| id := watcherId; current := atomValue rt; previous := atomValue rt;
         isInitial := true; isChanged := true |}
      (subscribed rt).
Proof.
  intros Hu. unfold startWatching, Js.bind, Js.gets, Js.modify, store_sub,
    makeEvent, Js.ret. simpl. rewrite Hu. simpl.
  by rewrite not_awaited_dispatchEvent.
Qed.

Lemma startWatching_watching rt h :
  unsubscribe rt = Some h -> startWatching rt = (rt, Normal tt).
Proof.
  intros Hu. unfold startWatching, Js.bind, Js.gets, Js.ret. simpl.
  by rewrite Hu.
Qed.

Lemma listener_eq rt :
  listener rt =
    dispatchEvent
      {| id := watcherId; current := atomValue rt; previous := previousValue rt;
         isInitial := false; isChanged := true |}
      (set_previousValue (atomValue rt) rt).
Proof.
  unfold listener, Js.bind, Js.gets, Js.modify, makeEvent, Js.ret. simpl.
  by rewrite not_awaited_dispatchEvent.
Qed.

(** A change of the atom with one listener subscribed runs the listener
    once, on the new value. *)
Lemma store_set_single rt v h :
  atomValue rt <> v ->
  listeners rt = [h] ->
  store_set v rt = listener (set_atomValue v rt).
Proof.
  intros Hv Hl. unfold store_set, notify, Js.bind, Js.gets, Js.modify.
  destruct (decide (atomValue rt = v)) as [Heq|_]; [congruence|].
  cbn [listeners set_atomValue]. rewrite Hl. cbn [Js.for_of].
  unfold Js.bind, Js.ret. rewrite listener_eq, dispatchEvent_eq. reflexivity.
Qed.

(** What [startWatching] dispatches first, and what the next change
    dispatches.  The first event carries the initial value as [previous]:
    [previousValue] is assigned before [makeEvent] reads it. *)
Lemma startWatching_first_events rt v :
  unsubscribe rt = None ->
  listeners rt = [] ->
  v <> atomValue rt ->
  let rt1 := (startWatching rt).1 in
  dispatched rt1 =
    dispatched rt ++
      [{| id := watcherId; current := atomValue rt; previous := atomValue rt;
          isInitial := true; isChanged := true |}] /\
  dispatched (store_set v rt1).1 =
    dispatched rt1 ++
      [{| id := watcherId; current := v; previous := atomValue rt;
          isInitial := false; isChanged := true |}].
Proof.
  intros Hu Hl Hv rt1. unfold rt1.
  rewrite startWatching_eq, dispatchEvent_eq by done. simpl.
  split; [done|].
  rewrite (store_set_single _ v (subscriptions rt)).
  - rewrite listener_eq, dispatchEvent_eq. reflexivity.
  - simpl. congruence.
  - simpl. by rewrite Hl.
Qed.

(** The atom has a listener of this watcher exactly while [unsubscribe]
    holds its handle. *)
Definition subscribed_once (rt : Runtime) : Prop :=
  listeners rt =
    match unsubscribe rt with
    | Some h => [h]
    | None => []
    end.

Lemma startWatching_subscribed_once rt :
  subscribed_once rt -> subscribed_once (startWatching rt).1.
Proof.
  unfold subscribed_once. intros Hinv.
  destruct (unsubscribe rt) as [h|] eqn:Hu.
  - rewrite (startWatching_watching rt h Hu). simpl. by rewrite Hu.
  - rewrite startWatching_eq, dispatchEvent_eq by done. simpl.
    by rewrite Hinv.
Qed.

Lemma stopWatching_subscribed_once rt :
  subscribed_once rt -> subscribed_once (stopWatching rt).1.
Proof.
  unfold subscribed_once, stopWatching, Js.bind, Js.gets, Js.modify, Js.ret.
  intros Hinv. simpl. destruct (unsubscribe rt) as [h|] eqn:Hu; simpl.
  - rewrite Hinv, filter_cons. by destruct (decide (h <> h)).
  - by rewrite Hu.
Qed.

(** *** Claim on starting and stopping *)

(** C9. When the watcher is already subscribed, [startWatching] changes
    nothing.  From a watcher that is not subscribed, two calls in a row
    call [store.sub] once and leave one more listener on the atom.
    [stopWatching] changes nothing when the watcher is not subscribed, and
    in every case leaves the registered callbacks as they are. *)
Theorem startWatching_idempotent_stopWatching_noop (rt : Runtime) :
  unsubscribe rt = None ->
  let rt1 := (startWatching rt).1 in
  startWatching rt1 = (rt1, Normal tt) /\
  subscriptions (startWatching rt1).1 = S (subscriptions rt) /\
  listeners (startWatching rt1).1 = listeners rt ++ [subscriptions rt] /\
  stopWatching rt = (rt, Normal tt) /\
  (forall rt', callbacks (stopWatching rt').1 = callbacks rt') /\
  (forall rt', (stopWatching rt').2 = Normal tt).
Proof.
  intros Hu rt1.
  assert (unsubscribe rt1 = Some (subscriptions rt)) as Hu1.
  { unfold rt1. by rewrite startWatching_eq, dispatchEvent_eq. }
  rewrite (startWatching_watching rt1 _ Hu1). simpl.
  split; [done|]. split; [|split; [|split; [|split]]].
  - unfold rt1. by rewrite startWatching_eq, dispatchEvent_eq.
  - unfold rt1. by rewrite startWatching_eq, dispatchEvent_eq.
  - unfold stopWatching, Js.bind, Js.gets, Js.ret. simpl. by rewrite Hu.
  - intros rt'. unfold stopWatching, Js.bind, Js.gets, Js.modify, Js.ret. simpl.
    by destruct (unsubscribe rt').
  - intros rt'. unfold stopWatching, Js.bind, Js.gets, Js.modify, Js.ret. simpl.
    by destruct (unsubscribe rt').
Qed.

(** After [stopWatching] a change of the atom dispatches nothing. *)
Lemma stopWatching_silences rt h v :
  unsubscribe rt = Some h ->
  listeners rt = [h] ->
  dispatched (store_set v (stopWatching rt).1).1 = dispatched rt.
Proof.
  intros Hu Hl.
  unfold stopWatching, store_set, notify, Js.bind, Js.gets, Js.modify, Js.ret.
  simpl. rewrite Hu. simpl.
  destruct (decide (atomValue rt = v)); simpl; [done|].
  rewrite Hl. rewrite filter_cons.
  destruct (decide (h <> h)); [congruence|]. reflexivity.
Qed.

(** *** Further properties of the watcher *)

Lemma map_set_keys_fresh {V} (k : string) (v : V) m :
  k ∉ map fst m -> map fst (map_set k v m) = map fst m ++ [k].
Proof. intros Hk. rewrite map_set_fresh by done. by rewrite map_app. Qed.

Lemma elem_of_map_fst {V} (k : string) (v : V) (m : list (string * V)) :
  (k, v) ∈ m -> k ∈ map fst m.
Proof.
  induction m as [|[k0 v0] m IH]; intros Hin; simpl.
  - by apply elem_of_nil in Hin.
  - apply elem_of_cons in Hin as [[= -> ->]|Hin]; [left|right; by apply IH].
Qed.

Lemma map_set_NoDup {V} (k : string) (v : V) m :
  NoDup (map fst m) -> NoDup (map fst (map_set k v m)).
Proof.
  intros Hnd. destruct (decide (k ∈ map fst m)) as [Hin|Hnot].
  - by rewrite map_set_keys.
  - rewrite map_set_keys_fresh by done. apply NoDup_app.
    split; [done|]. split; [|apply NoDup_singleton].
    intros x Hx Hx'. apply list_elem_of_singleton in Hx'. by subst.
Qed.

Lemma map_set_elem_of {V} (k : string) (v : V) m k' v' :
  NoDup (map fst m) ->
  (k', v') ∈ map_set k v m <->
  (k' = k /\ v' = v) \/ (k' <> k /\ (k', v') ∈ m).
Proof.
  induction m as [|[k0 v0] m IH]; intros Hnd; simpl.
  - rewrite list_elem_of_singleton. split.
    + intros [= -> ->]. by left.
    + intros [[-> ->]|[_ Hin]]; [done|]. by apply elem_of_nil in Hin.
  - simpl in Hnd. apply NoDup_cons in Hnd as [Hk0 Hnd].
    destruct (decide (k0 = k)) as [->|Hne].
    + rewrite !elem_of_cons. split.
      * intros [[= -> ->]|Hin]; [by left|]. right. split; [|by right].
        intros ->. apply Hk0. by eapply elem_of_map_fst.
      * intros [[-> ->]|[Hne [[= ? ?]|Hin]]]; [by left|congruence|by right].
    + rewrite !elem_of_cons, (IH Hnd). split.
      * intros [[= -> ->]|[[-> ->]|[Hne' Hin]]].
        -- right. split; [done|by left].
        -- by left.
        -- right. split; [done|by right].
      * intros [[-> ->]|[Hne' [[= -> ->]|Hin]]].
        -- right. by left.
        -- by left.
        -- right. right. by split.
Qed.

Lemma map_delete_found {V} (k : string) (m : list (string * V)) :
  (map_delete k m).2 = bool_decide (k ∈ map fst m).
Proof.
  induction m as [|[k0 v0] m IH]; simpl; [done|].
  destruct (decide (k0 = k)) as [->|Hne]; simpl.
  - symmetry. apply bool_decide_eq_true. left.
  - destruct (map_delete k m) as [m' found]. simpl in *. rewrite IH.
    apply bool_decide_ext. rewrite elem_of_cons. split; [by right|].
    intros [->|?]; [done|done].
Qed.

Lemma filter_keeps_all {A} (P : A -> Prop) `{!forall x, Decision (P x)}
    (l : list A) :
  (forall x, x ∈ l -> P x) -> filter P l = l.
Proof.
  induction l as [|x l IH]; intros Hall; [done|].
  rewrite filter_cons. destruct (decide (P x)) as [_|Hn].
  - f_equal. apply IH. intros y Hy. apply Hall. by right.
  - destruct Hn. apply Hall. left.
Qed.

Lemma map_delete_filter {V} (k : string) (m : list (string * V)) :
  NoDup (map fst m) ->
  (map_delete k m).1 = filter (fun entry => entry.1 <> k) m.
Proof.
  induction m as [|[k0 v0] m IH]; intros Hnd; simpl; [done|].
  simpl in Hnd. apply NoDup_cons in Hnd as [Hk0 Hnd].
  rewrite filter_cons. simpl. destruct (decide (k0 = k)) as [->|Hne].
  - destruct (decide (k <> k)) as [?|_]; [done|]. simpl.
    symmetry. apply filter_keeps_all.
    intros [k' v'] Hin. simpl. intros ->. apply Hk0.
    by eapply elem_of_map_fst.
  - destruct (decide (k0 <> k)) as [_|?]; [|done].
    specialize (IH Hnd). destruct (map_delete k m) as [m' found].
    simpl in *. by rewrite IH.
Qed.

Lemma map_delete_fresh {V} (k : string) (m : list (string * V)) :
  k ∉ map fst m -> map_delete k m = (m, false).
Proof.
  induction m as [|[k0 v0] m IH]; intros Hk; simpl; [done|].
  simpl in Hk. apply not_elem_of_cons in Hk as [Hne Hk].
  destruct (decide (k0 = k)); [congruence|]. by rewrite IH.
Qed.

Lemma map_delete_set_fresh {V} (k : string) (v : V) (m : list (string * V)) :
  k ∉ map fst m -> map_delete k (map_set k v m) = (m, true).
Proof.
  induction m as [|[k0 v0] m IH]; intros Hk; simpl.
  - by destruct (decide (k = k)).
  - simpl in Hk. apply not_elem_of_cons in Hk as [Hne Hk].
    destruct (decide (k0 = k)); [congruence|]. simpl.
    destruct (decide (k0 = k)); [congruence|]. by rewrite IH.
Qed.

Lemma map_delete_NoDup {V} (k : string) (m : list (string * V)) :
  NoDup (map fst m) -> NoDup (map fst (map_delete k m).1).
Proof.
  induction m as [|[k0 v0] m IH]; intros Hnd; simpl; [done|].
  simpl in Hnd. apply NoDup_cons in Hnd as [Hk0 Hnd].
  destruct (decide (k0 = k)) as [->|Hne]; [done|].
  specialize (IH Hnd).
  assert (forall x, x ∈ map fst (map_delete k m).1 -> x ∈ map fst m) as Hsub.
  { clear. induction m as [|[k1 v1] m IH]; simpl; [done|].
    destruct (decide (k1 = k)); [intros x Hx; by right|].
    destruct (map_delete k m) as [m' found]. simpl in *.
    intros x Hx. apply elem_of_cons in Hx as [->|Hx]; [by left|].
    right. by apply IH. }
  destruct (map_delete k m) as [m' found]. simpl in *.
  apply NoDup_cons. split; [|done]. intros Hin. apply Hk0. by apply Hsub.
Qed.

(** X10. [addCallback] has map semantics.  With unique ids in the map, the
    ids stay unique; exactly one callback is registered under the id, the
    one just given; every other registration is kept; and when the id was
    registered before, the ids and their order, hence the order in which a
    dispatch calls them, do not change. *)
Theorem addCallback_replaces_in_place (rt : Runtime)
    (cb : SingleAtomCallback) (cbId : string) :
  NoDup (map fst (callbacks rt)) ->
  let rt' := (addCallback cb cbId rt).1 in
  NoDup (map fst (callbacks rt')) /\
  (forall cb', (cbId, cb') ∈ callbacks rt' <-> cb' = cb) /\
  (forall k cb', k <> cbId ->
     ((k, cb') ∈ callbacks rt' <-> (k, cb') ∈ callbacks rt)) /\
  (cbId ∈ map fst (callbacks rt) ->
     map fst (callbacks rt') = map fst (callbacks rt)) /\
  (cbId ∉ map fst (callbacks rt) ->
     callbacks rt' = callbacks rt ++ [(cbId, cb)]).
Proof.
  intros Hnd rt'. unfold rt'. rewrite addCallback_callbacks.
  split; [by apply map_set_NoDup|]. split; [|split; [|split]].
  - intros cb'. rewrite map_set_elem_of by done. split.
    + by intros [[_ ->]|[? _]].
    + intros ->. by left.
  - intros k cb' Hne. rewrite map_set_elem_of by done. split.
    + by intros [[? _]|[_ ?]].
    + intros Hin. right. by split.
  - apply map_set_keys.
  - apply map_set_fresh.
Qed.

(** X11. [removeCallback] answers whether the id was registered, and takes
    out that registration only: the others stay, in their order.  The
    subscription is not touched. *)
Theorem removeCallback_removes_that_id_only (rt : Runtime) (cbId : string) :
  NoDup (map fst (callbacks rt)) ->
  (removeCallback cbId rt).2 =
    Normal (bool_decide (cbId ∈ map fst (callbacks rt))) /\
  callbacks (removeCallback cbId rt).1 =
    filter (fun entry => entry.1 <> cbId) (callbacks rt) /\
  NoDup (map fst (callbacks (removeCallback cbId rt).1)) /\
  unsubscribe (removeCallback cbId rt).1 = unsubscribe rt /\
  listeners (removeCallback cbId rt).1 = listeners rt.
Proof.
  intros Hnd.
  pose proof (map_delete_found cbId (callbacks rt)) as Hfound.
  pose proof (map_delete_filter cbId (callbacks rt) Hnd) as Hfilter.
  pose proof (map_delete_NoDup cbId (callbacks rt) Hnd) as Hnd'.
  unfold removeCallback, Js.bind, Js.gets, Js.modify, Js.ret. simpl.
  destruct (map_delete cbId (callbacks rt)) as [cbs' found]. simpl in *.
  by subst.
Qed.

(** X12. Registering a callback under an id that is not in use and removing
    it again gives back the callback map as it was, and [removeCallback]
    answers [true]; removing an id that is not registered answers [false]
    and changes nothing. *)
Theorem addCallback_removeCallback_round_trip (rt : Runtime)
    (cb : SingleAtomCallback) (cbId : string) :
  cbId ∉ map fst (callbacks rt) ->
  let rt1 := (addCallback cb cbId rt).1 in
  (removeCallback cbId rt1).2 = Normal true /\
  callbacks (removeCallback cbId rt1).1 = callbacks rt /\
  (removeCallback cbId rt).2 = Normal false /\
  callbacks (removeCallback cbId rt).1 = callbacks rt.
Proof.
  intros Hfresh rt1.
  pose proof (map_delete_set_fresh cbId cb (callbacks rt) Hfresh) as Hrt.
  pose proof (map_delete_fresh cbId (callbacks rt) Hfresh) as Hmiss.
  unfold rt1, removeCallback, Js.bind, Js.gets, Js.modify, Js.ret. simpl.
  by rewrite Hrt, Hmiss.
Qed.

(** A change of the atom with no listener subscribed only stores the
    value. *)
Lemma store_set_unobserved rt v :
  listeners rt = [] ->
  store_set v rt =
    (if decide (atomValue rt = v) then rt else set_atomValue v rt, Normal tt).
Proof.
  intros Hl. unfold store_set, notify, Js.bind, Js.gets, Js.modify, Js.ret.
  destruct (decide (atomValue rt = v)); [done|].
  cbn [listeners set_atomValue]. by rewrite Hl.
Qed.

Lemma store_set_same rt :
  store_set (atomValue rt) rt = (rt, Normal tt).
Proof.
  unfold store_set, Js.bind, Js.gets, Js.ret.
  by destruct (decide (atomValue rt = atomValue rt)).
Qed.

(** The events a subscribed watcher dispatches while the atom takes the
    values [vs] one after the other, [prev] being the value at the last
    dispatch: a value equal to the one before it notifies nobody. *)
Fixpoint change_events (prev : JsValue) (vs : list JsValue) : list WatcherEvent :=
  match vs with
  | [] => []
  | v :: rest =>
      if decide (prev = v) then change_events prev rest
      else {| id := watcherId; current := v; previous := prev;
              isInitial := false; isChanged := true |}
           :: change_events v rest
  end.

Definition store_sets (vs : list JsValue) (rt : Runtime) : Runtime :=
  foldl (fun r v => (store_set v r).1) rt vs.

Lemma store_sets_watching vs : forall rt h,
  listeners rt = [h] ->
  previousValue rt = atomValue rt ->
  dispatched (store_sets vs rt) =
    dispatched rt ++ change_events (atomValue rt) vs.
Proof.
  induction vs as [|v vs IH]; intros rt h Hl Hp; simpl.
  - by rewrite app_nil_r.
  - destruct (decide (atomValue rt = v)) as [<-|Hne].
    + rewrite store_set_same. simpl. by apply (IH rt h).
    + rewrite (store_set_single rt v h) by done.
      rewrite listener_eq, dispatchEvent_eq. cbn [fst].
      rewrite (IH _ h); simpl; [|done|done].
      by rewrite Hp, <- app_assoc.
Qed.

(** X13. From [startWatching] on, whatever values the atom takes: after the
    initial event, which carries the live value, every change of value
    dispatches one event with [isInitial] false and [isChanged] true whose
    [previous] is the [current] of the event dispatched before it; setting
    the value it already has dispatches nothing. *)
Theorem changes_chain_previous (rt : Runtime) (vs : list JsValue) :
  unsubscribe rt = None ->
  listeners rt = [] ->
  exists initial,
    dispatched (store_sets vs (startWatching rt).1) =
      dispatched rt ++ initial :: change_events (current initial) vs /\
    isInitial initial = true /\
    current initial = atomValue rt /\
    id initial = watcherId.
Proof.
  intros Hu Hl.
  exists {| id := watcherId; current := atomValue rt; previous := atomValue rt;
            isInitial := true; isChanged := true |}.
  split; [|done].
  rewrite (store_sets_watching vs _ (subscriptions rt)).
  - rewrite startWatching_eq, dispatchEvent_eq by done. simpl.
    by rewrite <- app_assoc.
  - rewrite startWatching_eq, dispatchEvent_eq by done. simpl. by rewrite Hl.
  - by rewrite startWatching_eq, dispatchEvent_eq.
Qed.

(** The event of the latest dispatch. *)
Definition last_dispatched (rt : Runtime) : WatcherEvent :=
  default (mkEvent watcherId JsUndefined JsUndefined false false)
    (last (dispatched rt)).


(** X15. After [stopWatching] no further event is dispatched: whatever
    values the atom takes, the atom has no listener of the watcher,
    [dispatchEvent] is not called again and the callback map is as it was,
    while [getCurrentValue] goes on reading the live value. *)
Theorem stopped_watcher_is_silent (rt : Runtime) (h : nat)
    (vs : list JsValue) :
  unsubscribe rt = Some h ->
  listeners rt = [h] ->
  let rt' := store_sets vs (stopWatching rt).1 in
  dispatched rt' = dispatched rt /\
  listeners rt' = [] /\
  unsubscribe rt' = None /\
  callbacks rt' = callbacks rt /\
  getCurrentValue rt' = (rt', Normal (default (atomValue rt) (last vs))).
Proof.
  intros Hu Hl rt'.
  assert ((stopWatching rt).1 =
          set_unsubscribe None (store_unsub h rt)) as Hstop.
  { unfold stopWatching, Js.bind, Js.gets, Js.modify. simpl. by rewrite Hu. }
  assert (listeners (stopWatching rt).1 = []) as Hl'.
  { rewrite Hstop. simpl. rewrite Hl, filter_cons.
    by destruct (decide (h <> h)). }
  assert (forall r, listeners r = [] ->
            listeners (store_sets vs r) = [] /\
            dispatched (store_sets vs r) = dispatched r /\
            unsubscribe (store_sets vs r) = unsubscribe r /\
            callbacks (store_sets vs r) = callbacks r /\
            atomValue (store_sets vs r) = default (atomValue r) (last vs))
    as Hsilent.
  { clear. induction vs as [|v vs IH]; intros r Hr; [done|].
    simpl. rewrite store_set_unobserved by done. simpl.
    destruct (decide (atomValue r = v)) as [<-|Hne].
    - destruct (IH r Hr) as (H1 & H2 & H3 & H4 & H5).
      rewrite H1, H2, H3, H4, H5. repeat split; try done.
      rewrite last_cons. by destruct (last vs).
    - destruct (IH (set_atomValue v r) Hr) as (H1 & H2 & H3 & H4 & H5).
      rewrite H1, H2, H3, H4, H5. repeat split; try done.
      rewrite last_cons. by destruct (last vs). }
  destruct (Hsilent _ Hl') as (H1 & H2 & H3 & H4 & H5).
  fold rt' in H1, H2, H3, H4, H5.
  rewrite H1, H2, H3, H4. unfold getCurrentValue, Js.gets. rewrite H5.
  rewrite Hstop. done.
Qed.

(** X16. [removeAllCallbacks] leaves the subscription alone: the watcher
    stays subscribed, and the next change of the atom still dispatches an
    event, to nobody, and moves the tracked previous value on. *)
Theorem removeAllCallbacks_keeps_watching (rt : Runtime) (h : nat)
    (v : JsValue) :
  listeners rt = [h] ->
  atomValue rt <> v ->
  let rt' := (store_set v (removeAllCallbacks rt).1).1 in
  callbacks rt' = [] /\
  invoked rt' = invoked rt /\
  user rt' = user rt /\
  dispatched rt' =
    dispatched rt ++
      [{| id := watcherId; current := v; previous := previousValue rt;
          isInitial := false; isChanged := true |}] /\
  unsubscribe rt' = unsubscribe rt /\
  listeners rt' = listeners rt /\
  previousValue rt' = v.
Proof.
  intros Hl Hv rt'. unfold rt', removeAllCallbacks, Js.modify. cbn [fst].
  rewrite (store_set_single _ v h) by done.
  rewrite listener_eq, dispatchEvent_eq. simpl. by rewrite app_nil_r.
Qed.

(** What a watcher goes through: the calls of its interface, and the atom
    taking a new value. *)
Inductive Call : Type :=
| CallAddCallback (cb : SingleAtomCallback) (cbId : string)
| CallRemoveCallback (cbId : string)
| CallRemoveAllCallbacks
| CallStartWatching
| CallStopWatching
| CallStoreSet (v : JsValue).

Definition run_call (rt : Runtime) (c : Call) : Runtime :=
  match c with
  | CallAddCallback cb cbId => (addCallback cb cbId rt).1
  | CallRemoveCallback cbId => (removeCallback cbId rt).1
  | CallRemoveAllCallbacks => (removeAllCallbacks rt).1
  | CallStartWatching => (startWatching rt).1
  | CallStopWatching => (stopWatching rt).1
  | CallStoreSet v => (store_set v rt).1
  end.

(** Every event carries the watcher's id and is marked as a change. *)
Definition from_this_watcher (event : WatcherEvent) : Prop :=
  id event = watcherId /\ isChanged event = true.

Definition well_formed (rt : Runtime) : Prop :=
  subscribed_once rt /\
  NoDup (map fst (callbacks rt)) /\
  Forall from_this_watcher (dispatched rt) /\
  unhandled rt = [].

Lemma dispatchEvent_well_formed rt event :
  from_this_watcher event ->
  well_formed rt -> well_formed (dispatchEvent event rt).1.
Proof.
  intros He (H1 & H2 & H3 & H4). rewrite dispatchEvent_eq.
  unfold well_formed, subscribed_once. simpl.
  repeat split; try done. apply Forall_app. split; [done|]. by constructor.
Qed.

Lemma listener_well_formed rt :
  well_formed rt -> well_formed (listener rt).1.
Proof.
  intros (H1 & H2 & H3 & H4). rewrite listener_eq.
  apply dispatchEvent_well_formed; [by split|]. by repeat split.
Qed.

Lemma run_call_well_formed rt c :
  well_formed rt -> well_formed (run_call rt c).
Proof.
  intros Hwf. pose proof Hwf as (H1 & H2 & H3 & H4).
  destruct c as [cb cbId|cbId| | | |v]; cbn [run_call].
  - unfold well_formed, subscribed_once, addCallback, Js.bind, Js.modify.
    simpl. repeat split; try done. by apply map_set_NoDup.
  - pose proof (map_delete_NoDup cbId (callbacks rt) H2) as Hnd.
    unfold removeCallback, Js.bind, Js.gets, Js.modify, Js.ret. simpl.
    destruct (map_delete cbId (callbacks rt)) as [cbs' found]. simpl in *.
    by repeat split.
  - repeat split; try done. simpl. constructor.
  - destruct (unsubscribe rt) as [h|] eqn:Hu.
    + by rewrite (startWatching_watching rt h Hu).
    + rewrite startWatching_eq by done.
      apply dispatchEvent_well_formed; [by split|].
      unfold well_formed, subscribed_once in *. simpl.
      rewrite Hu in H1. rewrite H1. by repeat split.
  - split; [by apply stopWatching_subscribed_once|].
    unfold stopWatching, Js.bind, Js.gets, Js.modify, Js.ret. simpl.
    by destruct (unsubscribe rt).
  - destruct (decide (atomValue rt = v)) as [<-|Hne];
      [by rewrite store_set_same|].
    unfold subscribed_once in H1.
    destruct (unsubscribe rt) as [h|] eqn:Hu.
    + rewrite (store_set_single rt v h) by done.
      apply listener_well_formed. unfold well_formed, subscribed_once.
      simpl. rewrite Hu. by repeat split.
    + rewrite store_set_unobserved by done. simpl.
      destruct (decide (atomValue rt = v)); [done|].
      unfold well_formed, subscribed_once. simpl. rewrite Hu.
      by repeat split.
Qed.

(** X17. Whatever is done with a watcher (callbacks added and removed,
    watching started and stopped, the atom changed) in whatever order, from
    its creation on: the atom never has more than one listener of the
    watcher, and has one exactly while the watcher holds an unsubscribe
    handle; the ids in the callback map are unique; every event dispatched
    carries the watcher's id and [isChanged] true; and no dispatch leaves a
    rejected promise unhandled. *)
Theorem watcher_stays_well_formed (rt : Runtime) (calls : list Call) :
  callbacks rt = [] ->
  unsubscribe rt = None ->
  listeners rt = [] ->
  dispatched rt = [] ->
  unhandled rt = [] ->
  let rt' := foldl run_call rt calls in
  listeners rt' =
    match unsubscribe rt' with
    | Some h => [h]
    | None => []
    end /\
  NoDup (map fst (callbacks rt')) /\
  Forall (fun event => id event = watcherId /\ isChanged event = true)
    (dispatched rt') /\
  unhandled rt' = [].
Proof.
  intros Hc Hu Hl Hd Hun.
  assert (well_formed rt) as Hwf.
  { unfold well_formed, subscribed_once. rewrite Hc, Hu, Hl, Hd, Hun.
    repeat split; try done; constructor. }
  clear Hc Hu Hl Hd Hun. revert rt Hwf.
  induction calls as [|c calls IH]; intros rt Hwf; [done|].
  simpl. apply IH. by apply run_call_well_formed.
Qed.

End SingleAtomWatcher.

Arguments mkRuntime {U}.
Arguments callbacks {U}.
Arguments unsubscribe {U}.
Arguments previousValue {U}.
Arguments atomValue {U}.
Arguments listeners {U}.
Arguments subscriptions {U}.
Arguments logs {U}.
Arguments dispatched {U}.
Arguments invoked {U}.
Arguments unhandled {U}.
Arguments user {U}.
Arguments dispatchEvent {U}.
Arguments startWatching {U}.
Arguments stopWatching {U}.
Arguments store_set {U}.
Arguments addCallback {U}.

(** *** A concrete watcher *)

(** A callback that keeps the events it is called with. *)
Definition recording : SingleAtomCallback (list WatcherEvent) :=
  fun event seen => (seen ++ [event], Returns tt).

(** A callback that throws. *)
Definition failing : SingleAtomCallback (list WatcherEvent) :=
  fun _ seen => (seen, Throws (JsStr "boom")).

(** A watcher just created on an atom holding [v], with one callback. *)
Definition created (v : JsValue) : Runtime (list WatcherEvent) :=
  mkRuntime [("cb", recording)] None JsUndefined v [] 0 [] [] [] [] [].

(** C1, on the code.  A watcher on an atom holding [0]: the event that
    [startWatching] dispatches, and that the registered callback receives,
    has [isInitial] and [isChanged] true and [current] [0], the live value;
    its [previous] is [0] as well, not [undefined].  After the atom changes
    to [1] the next event has [previous] [0], the first event's
    [current]. *)
Theorem initial_event_previous_is_current :
  let first := mkEvent "testWatcher" (JsNum 0) (JsNum 0) true true in
  let second := mkEvent "testWatcher" (JsNum 1) (JsNum 0) false true in
  let rt1 := (startWatching "testWatcher" (created (JsNum 0))).1 in
  dispatched rt1 = [first] /\
  user rt1 = [first] /\
  previous first <> JsUndefined /\
  dispatched (store_set "testWatcher" (JsNum 1) rt1).1 = [first; second] /\
  user (store_set "testWatcher" (JsNum 1) rt1).1 = [first; second].
Proof. repeat split; try (vm_compute; reflexivity). discriminate. Qed.

Lemma startWatching_idempotent_stopWatching_noop_witness :
  let rt := created (JsNum 0) in
  let rt1 := (startWatching "testWatcher" rt).1 in
  startWatching "testWatcher" rt1 = (rt1, Normal tt) /\
  subscriptions (startWatching "testWatcher" rt1).1 = 1 /\
  listeners (startWatching "testWatcher" rt1).1 = [0] /\
  stopWatching rt = (rt, Normal tt) /\
  (forall rt' : Runtime (list WatcherEvent),
     callbacks (stopWatching rt').1 = callbacks rt') /\
  (forall rt' : Runtime (list WatcherEvent), (stopWatching rt').2 = Normal tt).
Proof.
  apply (startWatching_idempotent_stopWatching_noop (list WatcherEvent)
           "testWatcher" (created (JsNum 0))).
  reflexivity.
Defined.

(** A failing callback registered before a recording one: both are called,
    the failure is logged under the id of the failing one. *)
Example failing_then_recording :
  let rt :=
    (addCallback "testWatcher" recording "s"
       (addCallback "testWatcher" failing "f"
          (mkRuntime [] None JsUndefined (JsNum 0) [] 0 [] [] [] [] [])).1).1 in
  let event := mkEvent "testWatcher" (JsNum 0) (JsNum 0) true true in
  map fst (invoked (dispatchEvent "testWatcher" event rt).1) = ["f"; "s"] /\
  user (dispatchEvent "testWatcher" event rt).1 = [event] /\
  List.filter (fun l => match level l with Error => true | _ => false end)
    (logs (dispatchEvent "testWatcher" event rt).1) =
    [mkLog Error "Error in callback f:" [ArgValue (JsStr "boom")]].
Proof. repeat split; vm_compute; reflexivity. Qed.

(** *** The further properties on the concrete watcher *)

(** A watcher just created, with no callback yet. *)
Definition blank (v : JsValue) : Runtime (list WatcherEvent) :=
  mkRuntime [] None JsUndefined v [] 0 [] [] [] [] [].

(** The concrete watcher once it is watching. *)
Definition watching : Runtime (list WatcherEvent) :=
  (startWatching "testWatcher" (created (JsNum 0))).1.

Lemma addCallback_replaces_in_place_witness :
  let rt := created (JsNum 0) in
  NoDup (map fst (callbacks rt)) /\
  let rt' := (addCallback "testWatcher" failing "cb" rt).1 in
  NoDup (map fst (callbacks rt')) /\
  (forall cb', ("cb", cb') ∈ callbacks rt' <-> cb' = failing) /\
  (forall k cb', k <> "cb" ->
     ((k, cb') ∈ callbacks rt' <-> (k, cb') ∈ callbacks rt)) /\
  ("cb" ∈ map fst (callbacks rt) ->
     map fst (callbacks rt') = map fst (callbacks rt)) /\
  ("cb" ∉ map fst (callbacks rt) ->
     callbacks rt' = callbacks rt ++ [("cb", failing)]).
Proof.
  intros rt.
  assert (NoDup (map fst (callbacks rt))) as Hnd by compute_done.
  split; [exact Hnd|].
  exact (addCallback_replaces_in_place (list WatcherEvent) "testWatcher"
           rt failing "cb" Hnd).
Defined.

Lemma removeCallback_removes_that_id_only_witness :
  let rt := created (JsNum 0) in
  NoDup (map fst (callbacks rt)) /\
  (removeCallback (list WatcherEvent) "cb" rt).2 =
    Normal (bool_decide ("cb" ∈ map fst (callbacks rt))) /\
  callbacks (removeCallback (list WatcherEvent) "cb" rt).1 =
    filter (fun entry => entry.1 <> "cb") (callbacks rt) /\
  NoDup (map fst (callbacks (removeCallback (list WatcherEvent) "cb" rt).1)) /\
  unsubscribe (removeCallback (list WatcherEvent) "cb" rt).1 = unsubscribe rt /\
  listeners (removeCallback (list WatcherEvent) "cb" rt).1 = listeners rt.
Proof.
  intros rt.
  assert (NoDup (map fst (callbacks rt))) as Hnd by compute_done.
  split; [exact Hnd|].
  exact (removeCallback_removes_that_id_only (list WatcherEvent) rt "cb" Hnd).
Defined.

Lemma addCallback_removeCallback_round_trip_witness :
  let rt := created (JsNum 0) in
  ("f" ∉ map fst (callbacks rt)) /\
  let rt1 := (addCallback "testWatcher" failing "f" rt).1 in
  (removeCallback (list WatcherEvent) "f" rt1).2 = Normal true /\
  callbacks (removeCallback (list WatcherEvent) "f" rt1).1 = callbacks rt /\
  (removeCallback (list WatcherEvent) "f" rt).2 = Normal false /\
  callbacks (removeCallback (list WatcherEvent) "f" rt).1 = callbacks rt.
Proof.
  intros rt.
  assert ("f" ∉ map fst (callbacks rt)) as Hfresh by compute_done.
  split; [exact Hfresh|].
  exact (addCallback_removeCallback_round_trip (list WatcherEvent)
           "testWatcher" rt failing "f" Hfresh).
Defined.

Lemma changes_chain_previous_witness :
  let rt := created (JsNum 0) in
  let vs := [JsNum 1; JsNum 1; JsNum 2] in
  unsubscribe rt = None /\
  listeners rt = [] /\
  exists initial,
    dispatched
      (store_sets (list WatcherEvent) "testWatcher" vs
         (startWatching "testWatcher" rt).1) =
      dispatched rt ++
        initial :: change_events "testWatcher" (current initial) vs /\
    isInitial initial = true /\
    current initial = atomValue rt /\
    id initial = "testWatcher".
Proof.
  intros rt vs. split; [reflexivity|]. split; [reflexivity|].
  apply (changes_chain_previous (list WatcherEvent) "testWatcher" rt vs);
    reflexivity.
Defined.

(** The three sets above dispatch two change events. *)
Example two_changes_of_three_sets :
  change_events "testWatcher" (JsNum 0) [JsNum 1; JsNum 1; JsNum 2] =
    [mkEvent "testWatcher" (JsNum 1) (JsNum 0) false true;
     mkEvent "testWatcher" (JsNum 2) (JsNum 1) false true].
Proof. reflexivity. Qed.


Lemma stopped_watcher_is_silent_witness :
  let vs := [JsNum 1; JsNum 2] in
  unsubscribe watching = Some 0 /\
  listeners watching = [0] /\
  let rt' :=
    store_sets (list WatcherEvent) "testWatcher" vs (stopWatching watching).1 in
  dispatched rt' = dispatched watching /\
  listeners rt' = [] /\
  unsubscribe rt' = None /\
  callbacks rt' = callbacks watching /\
  getCurrentValue (list WatcherEvent) rt' =
    (rt', Normal (default (atomValue watching) (last vs))).
Proof.
  intros vs. split; [reflexivity|]. split; [reflexivity|].
  apply (stopped_watcher_is_silent (list WatcherEvent) "testWatcher"
           watching 0 vs); reflexivity.
Defined.

Lemma removeAllCallbacks_keeps_watching_witness :
  listeners watching = [0] /\
  atomValue watching <> JsNum 1 /\
  let rt' :=
    (store_set "testWatcher" (JsNum 1)
       (removeAllCallbacks (list WatcherEvent) watching).1).1 in
  callbacks rt' = [] /\
  invoked rt' = invoked watching /\
  user rt' = user watching /\
  dispatched rt' =
    dispatched watching ++
      [{| id := "testWatcher"; current := JsNum 1;
          previous := previousValue watching;
          isInitial := false; isChanged := true |}] /\
  unsubscribe rt' = unsubscribe watching /\
  listeners rt' = listeners watching /\
  previousValue rt' = JsNum 1.
Proof.
  assert (atomValue watching <> JsNum 1) as Hv by discriminate.
  split; [reflexivity|]. split; [exact Hv|].
  exact (removeAllCallbacks_keeps_watching (list WatcherEvent) "testWatcher"
           watching 0 (JsNum 1) eq_refl Hv).
Defined.

Lemma watcher_stays_well_formed_witness :
  let rt := blank (JsNum 0) in
  let calls :=
    [CallAddCallback (list WatcherEvent) failing "f";
     CallAddCallback (list WatcherEvent) recording "s";
     CallStartWatching (list WatcherEvent);
     CallStartWatching (list WatcherEvent);
     CallStoreSet (list WatcherEvent) (JsNum 1);
     CallRemoveCallback (list WatcherEvent) "f";
     CallStopWatching (list WatcherEvent);
     CallStartWatching (list WatcherEvent)] in
  let rt' := foldl (run_call (list WatcherEvent) "testWatcher") rt calls in
  listeners rt' =
    match unsubscribe rt' with
    | Some h => [h]
    | None => []
    end /\
  NoDup (map fst (callbacks rt')) /\
  Forall (fun event => id event = "testWatcher" /\ isChanged event = true)
    (dispatched rt') /\
  unhandled rt' = [].
Proof.
  intros rt calls.
  apply (watcher_stays_well_formed (list WatcherEvent) "testWatcher" rt calls);
    reflexivity.
Defined.

End Watcher.

(** ** intervalCallback.ts *)

Module Interval.

(** The promise an [async] function returned, once the call has run as far
    as it can: settled, or still waiting. *)
Inductive Promise : Type :=
| Fulfilled
| Rejected (err : JsValue)
| Pending.

Section IntervalCallback.

(** State of the user's program, touched only by [condition] and [action]. *)
Variable U : Type.

(** [options.condition], [options.action], [options.intervalMs] and the
    optional [options.runOnSetup]. *)
Variable condition : EventsObject -> U -> U * Outcome bool.
Variable action : U -> U * Outcome unit.
Variable intervalMs : Z.
Variable runOnSetup : option bool.

(** The closure variables [interval] and [mutex], and the host's timers. *)
Record Runtime : Type := mkRuntime {
  (** the handle of the armed timer, or [null] *)
  interval : option nat;
  (** whether the mutex is held *)
  locked : bool;
  (** the host's repeating timers that are armed: handle and period *)
  timers : gmap nat Z;
  (** the number of [setInterval] calls so far *)
  timerCount : nat;
  (** logger calls, oldest first *)
  logs : list LogEntry;
  (** the number of [options.action] calls so far *)
  actionCalls : nat;
  user : U;
}.

Definition set_interval (i : option nat) (rt : Runtime) : Runtime :=
  mkRuntime i (locked rt) (timers rt) (timerCount rt) (logs rt)
    (actionCalls rt) (user rt).

Definition set_locked (b : bool) (rt : Runtime) : Runtime :=
  mkRuntime (interval rt) b (timers rt) (timerCount rt) (logs rt)
    (actionCalls rt) (user rt).

Definition logger (l : LogLevel) (msg : string) (a : list LogArg)
    (rt : Runtime) : Runtime :=
  mkRuntime (interval rt) (locked rt) (timers rt) (timerCount rt)
    (logs rt ++ [mkLog l msg a]) (actionCalls rt) (user rt).

(** [setInterval(tick, ms)]: a fresh handle for a new repeating timer. *)
Definition setInterval (ms : Z) : Js.M Runtime nat :=
  fun rt =>
    let h := timerCount rt in
    (mkRuntime (interval rt) (locked rt) (<[h := ms]> (timers rt)) (S h)
       (logs rt) (actionCalls rt) (user rt),
     Normal h).

(** [clearInterval(h)] *)
Definition clearInterval (h : nat) (rt : Runtime) : Runtime :=
  mkRuntime (interval rt) (locked rt) (delete h (timers rt)) (timerCount rt)
    (logs rt) (actionCalls rt) (user rt).

(** Calling [options.condition(events)] and [options.action()]. *)
Definition call_condition (events : EventsObject) : Js.M Runtime (Outcome bool) :=
  fun rt =>
    let '(u, o) := condition events (user rt) in
    (mkRuntime (interval rt) (locked rt) (timers rt) (timerCount rt) (logs rt)
       (actionCalls rt) u,
     Normal o).

Definition call_action : Js.M Runtime (Outcome unit) :=
  fun rt =>
    let '(u, o) := action (user rt) in
    (mkRuntime (interval rt) (locked rt) (timers rt) (timerCount rt) (logs rt)
       (S (actionCalls rt)) u,
     Normal o).

(** [try { await options.action(); } catch (err) { logger.error(...) }],
    the statement both the immediate run and every tick consist of. *)
Definition run_action : Js.M Runtime unit :=
  Js.try_catch
    (do o <- call_action ;
     Js.await o)
    (fun err =>
       Js.modify (logger Error "Error executing interval action" [ArgValue err])).

(** [options.runOnSetup !== false] *)
Definition run_on_setup : bool :=
  match runOnSetup with
  | Some false => false
  | Some true | None => true
  end.

(** The [try] block of [callback]. *)
Definition callback_body (events : EventsObject) : Js.M Runtime unit :=
  Js.modify (logger Debug "Interval callback executed" []) ;;
  do o <- call_condition events ;
  do holds <- Js.await o ;
  if (holds : bool) then
    (do i <- Js.gets interval ;
     match i with
     | Some h =>
         Js.modify (clearInterval h) ;;
         Js.modify (set_interval None)
     | None => Js.ret tt
     end) ;;
    (if run_on_setup then run_action else Js.ret tt) ;;
    do h <- setInterval intervalMs ;
    Js.modify (set_interval (Some h))
  else
    do i <- Js.gets interval ;
    match i with
    | Some h =>
        Js.modify (logger Debug "Condition failed - clearing interval" []) ;;
        Js.modify (clearInterval h) ;;
        Js.modify (set_interval None)
    | None => Js.ret tt
    end.

(** [callback]: the body runs under the mutex, which is released on every
    way out.  An invocation that finds the mutex held waits for it; its
    promise is pending and it has done nothing yet.  The body is taken as
    one run, from the acquisition of the mutex to its release; what other
    calls do while it is suspended at an [await] is not followed. *)
Definition callback (events : EventsObject) (rt : Runtime) : Runtime * Promise :=
  if locked rt then (rt, Pending)
  else
    match Js.try_finally (callback_body events) (set_locked false)
            (set_locked true rt) with
    | (rt', Normal _) => (rt', Fulfilled)
    | (rt', Abrupt err) => (rt', Rejected err)
    end.

Definition cleanup (rt : Runtime) : Runtime :=
  match interval rt with
  | Some h =>
      set_interval None
        (clearInterval h (logger Debug "Cleaning up interval" [] rt))
  | None => rt
  end.

(** The host fires the timer of handle [h], if it is still armed. *)
Definition tick (h : nat) (rt : Runtime) : Runtime :=
  match timers rt !! h with
  | Some _ => (run_action rt).1
  | None => rt
  end.

(** *** The state machine *)

(** The timers left once the armed one, if any, is cleared. *)
Definition cleared (rt : Runtime) : gmap nat Z :=
  match interval rt with
  | Some h => delete h (timers rt)
  | None => timers rt
  end.

Definition action_error (err : JsValue) : LogEntry :=
  mkLog Error "Error executing interval action" [ArgValue err].

Ltac run_callback :=
  unfold callback, callback_body, run_action, cleared, Js.try_finally,
    Js.try_catch, Js.bind, Js.modify, Js.gets, Js.ret, Js.await, Js.throw,
    call_condition, call_action, setInterval.

(** [run_action] never completes abruptly, counts one call and logs a
    failure of the action. *)
Lemma run_action_eq rt :
  run_action rt =
    (mkRuntime (interval rt) (locked rt) (timers rt) (timerCount rt)
       (logs rt ++
          match failure (action (user rt)).2 with
          | Some err => [action_error err]
          | None => []
          end)
       (S (actionCalls rt)) (action (user rt)).1,
     Normal tt).
Proof.
  run_callback. destruct (action (user rt)) as [u o].
  destruct o as [[]|[]|err|err]; simpl; by rewrite ?app_nil_r.
Qed.

(** The predicate holds: the armed timer, if any, is cleared, the action is
    run once if [runOnSetup] is not [false], and one timer is armed. *)
Lemma callback_condition_true rt events :
  locked rt = false ->
  settled (condition events (user rt)).2 = Some true ->
  let u1 := (condition events (user rt)).1 in
  callback events rt =
    (mkRuntime (Some (timerCount rt)) false
       (<[timerCount rt := intervalMs]> (cleared rt)) (S (timerCount rt))
       (logs rt ++ [mkLog Debug "Interval callback executed" []] ++
          (if run_on_setup then
             match failure (action u1).2 with
             | Some err => [action_error err]
             | None => []
             end
           else []))
       (actionCalls rt + (if run_on_setup then 1 else 0))
       (if run_on_setup then (action u1).1 else u1),
     Fulfilled).
Proof.
  intros Hl Hc. cbv zeta.
  unfold callback. rewrite Hl. unfold Js.try_finally, callback_body.
  unfold Js.bind at 1. unfold Js.modify at 1.
  unfold Js.bind at 1. unfold call_condition at 1.
  cbn [user logger set_locked].
  destruct (condition events (user rt)) as [u o]. cbn [fst snd] in *.
  destruct o as [b|b|err|err]; simpl in Hc; try discriminate;
    injection Hc as ->; unfold Js.bind at 1; unfold Js.await, Js.ret;
    (destruct (interval rt) as [h|] eqn:Hi;
     unfold Js.bind, Js.gets, Js.modify, Js.ret, cleared, setInterval;
     cbn [interval]; rewrite ?Hi;
     destruct run_on_setup; cbn; rewrite ?Hi; cbn;
     rewrite ?run_action_eq; cbn;
     rewrite <- ?app_assoc, ?Nat.add_0_r, ?Nat.add_1_r, ?app_nil_r;
     reflexivity).
Qed.

(** The predicate does not hold: the armed timer, if any, is cleared;
    nothing is run and nothing is armed. *)
Lemma callback_condition_false rt events :
  locked rt = false ->
  settled (condition events (user rt)).2 = Some false ->
  let u1 := (condition events (user rt)).1 in
  callback events rt =
    (mkRuntime None false (cleared rt) (timerCount rt)
       (logs rt ++ [mkLog Debug "Interval callback executed" []] ++
          match interval rt with
          | Some _ => [mkLog Debug "Condition failed - clearing interval" []]
          | None => []
          end)
       (actionCalls rt) u1,
     Fulfilled).
Proof.
  intros Hl Hc. cbv zeta.
  unfold callback. rewrite Hl. unfold Js.try_finally, callback_body.
  unfold Js.bind at 1. unfold Js.modify at 1.
  unfold Js.bind at 1. unfold call_condition at 1.
  cbn [user logger set_locked].
  destruct (condition events (user rt)) as [u o]. cbn [fst snd] in *.
  destruct o as [b|b|err|err]; simpl in Hc; try discriminate;
    injection Hc as ->; unfold Js.bind at 1; unfold Js.await, Js.ret;
    (destruct (interval rt) as [h|] eqn:Hi;
     unfold Js.bind, Js.gets, Js.modify, Js.ret, cleared; cbn;
     rewrite ?Hi; cbn;
     unfold set_locked, set_interval, clearInterval, logger; cbn;
     rewrite <- ?app_assoc; reflexivity).
Qed.

(** The predicate fails: the promise of [callback] is rejected with the
    error, the mutex is released and the timer is left as it was. *)
Lemma callback_condition_fails rt events err :
  locked rt = false ->
  failure (condition events (user rt)).2 = Some err ->
  callback events rt =
    (mkRuntime (interval rt) false (timers rt) (timerCount rt)
       (logs rt ++ [mkLog Debug "Interval callback executed" []])
       (actionCalls rt) (condition events (user rt)).1,
     Rejected err).
Proof.
  intros Hl Hc.
  unfold callback. rewrite Hl. unfold Js.try_finally, callback_body.
  unfold Js.bind at 1. unfold Js.modify at 1.
  unfold Js.bind at 1. unfold call_condition at 1.
  cbn [user logger set_locked].
  destruct (condition events (user rt)) as [u o]. cbn [fst snd] in *.
  destruct o as [b|b|e|e]; simpl in Hc; try discriminate;
    injection Hc as ->; unfold Js.bind at 1; unfold Js.await, Js.throw;
    reflexivity.
Qed.

(** The mutex is free again after every invocation that entered. *)
Lemma callback_releases rt events :
  locked rt = false -> locked (callback events rt).1 = false.
Proof.
  intros Hl. unfold callback. rewrite Hl. unfold Js.try_finally.
  destruct (callback_body events (set_locked true rt)) as [rt' [[]|err]];
    reflexivity.
Qed.

Lemma cleanup_eq rt :
  interval (cleanup rt) = None /\
  timers (cleanup rt) = cleared rt /\
  timerCount (cleanup rt) = timerCount rt /\
  actionCalls (cleanup rt) = actionCalls rt /\
  locked (cleanup rt) = locked rt.
Proof. unfold cleanup, cleared. destruct (interval rt) eqn:Hi; simpl; auto. Qed.

(** The task owns at most one armed timer: the one [interval] names. *)
Definition owns_timers (rt : Runtime) : Prop :=
  dom (timers rt) =
    match interval rt with
    | Some h => {[h]}
    | None => ∅
    end.

Lemma cleared_empty rt : owns_timers rt -> cleared rt = ∅.
Proof.
  unfold owns_timers, cleared. intros Ho.
  destruct (interval rt) as [h|].
  - apply dom_empty_iff_L. rewrite dom_delete_L, Ho.
    apply difference_diag_L.
  - by apply dom_empty_iff_L.
Qed.

(** Calling [callback] again while the predicate stays true leaves exactly
    one timer armed. *)
Lemma callback_rearm_single_timer rt events :
  owns_timers rt ->
  locked rt = false ->
  settled (condition events (user rt)).2 = Some true ->
  timers (callback events rt).1 = {[timerCount rt := intervalMs]} /\
  owns_timers (callback events rt).1.
Proof.
  intros Ho Hl Hc.
  rewrite (callback_condition_true rt events Hl Hc). cbn [fst timers].
  rewrite cleared_empty by done. split; [done|].
  unfold owns_timers. cbn [timers interval].
  rewrite insert_empty, dom_singleton_L. done.
Qed.

(** Every invocation of [callback], whatever the predicate does, and
    [cleanup] keep the task at one armed timer at most. *)
Lemma callback_owns_timers rt events :
  owns_timers rt -> owns_timers (callback events rt).1.
Proof.
  intros Ho. destruct (locked rt) eqn:Hl.
  { unfold callback. by rewrite Hl. }
  destruct (settled (condition events (user rt)).2) as [[|]|] eqn:Hc.
  - by apply callback_rearm_single_timer.
  - rewrite (callback_condition_false rt events Hl Hc).
    unfold owns_timers. cbn [fst timers interval].
    by rewrite cleared_empty, dom_empty_L.
  - assert (exists err, failure (condition events (user rt)).2 = Some err)
      as [err Hf].
    { destruct (condition events (user rt)).2; simpl in *; eauto;
        discriminate. }
    by rewrite (callback_condition_fails rt events err Hl Hf).
Qed.

Lemma cleanup_owns_timers rt : owns_timers rt -> owns_timers (cleanup rt).
Proof.
  intros Ho. destruct (cleanup_eq rt) as (Hi & Ht & _).
  unfold owns_timers. by rewrite Hi, Ht, cleared_empty, dom_empty_L.
Qed.

(** *** Claim on the periodic task *)

(** C7. An invocation of [callback] that gets the mutex, by what the
    predicate settles to.  True: the timer that was armed, if any, is
    cleared, the action is called once when [runOnSetup] is not [false]
    and not at all otherwise, its failure is logged and the promise of
    [callback] is fulfilled all the same, and one new timer with period
    [intervalMs] is armed and kept in [interval].  False with a timer
    armed: the timer is cleared and [interval] is [null].  False with no
    timer armed: timers, [interval] and the action count are as before.
    [cleanup], whatever the state of the mutex, clears the armed timer and
    leaves [interval] [null]. *)
Theorem callback_arms_and_disarms (rt : Runtime) (events : EventsObject) :
  locked rt = false ->
  let u1 := (condition events (user rt)).1 in
  let holds := settled (condition events (user rt)).2 in
  let rt' := (callback events rt).1 in
  (holds = Some true ->
     (callback events rt).2 = Fulfilled /\
     interval rt' = Some (timerCount rt) /\
     timers rt' = <[timerCount rt := intervalMs]> (cleared rt) /\
     actionCalls rt' =
       actionCalls rt +
         match runOnSetup with Some false => 0 | _ => 1 end /\
     (forall err,
        runOnSetup <> Some false ->
        failure (action u1).2 = Some err ->
        mkLog Error "Error executing interval action" [ArgValue err]
          ∈ logs rt')) /\
  (holds = Some false ->
     forall h, interval rt = Some h ->
     (callback events rt).2 = Fulfilled /\
     interval rt' = None /\
     timers rt' = delete h (timers rt) /\
     actionCalls rt' = actionCalls rt) /\
  (holds = Some false ->
     interval rt = None ->
     callback events rt =
       (mkRuntime None false (timers rt) (timerCount rt)
          (logs rt ++ [mkLog Debug "Interval callback executed" []])
          (actionCalls rt) u1,
        Fulfilled)) /\
  (forall rt0,
     interval (cleanup rt0) = None /\
     timers (cleanup rt0) = cleared rt0 /\
     actionCalls (cleanup rt0) = actionCalls rt0).
Proof.
  intros Hl u1 holds rt'. split; [|split; [|split]].
  - intros Hc.
    unfold rt'. rewrite (callback_condition_true rt events Hl Hc).
    cbn [fst snd interval timers actionCalls logs]. fold u1.
    split; [done|]. split; [done|]. split; [done|]. split.
    + unfold run_on_setup. by destruct runOnSetup as [[]|].
    + intros err Hr Hf.
      assert (run_on_setup = true) as ->
        by (unfold run_on_setup; by destruct runOnSetup as [[]|]).
      rewrite Hf. apply elem_of_app. right. right. left.
  - intros Hc h Hi. unfold rt'.
    rewrite (callback_condition_false rt events Hl Hc). simpl.
    unfold cleared. by rewrite Hi.
  - intros Hc Hi. rewrite (callback_condition_false rt events Hl Hc).
    unfold cleared. rewrite Hi. reflexivity.
  - intros rt0. destruct (cleanup_eq rt0) as (? & ? & _ & ? & _). done.
Qed.

(** *** Further properties of the periodic task *)

(** X18. A predicate that throws or whose promise is rejected: the promise
    of [callback] is rejected with that error, the mutex is released, and
    the timer is left as it was: a timer that was armed stays armed. *)
Theorem condition_failure_keeps_timer (rt : Runtime) (events : EventsObject)
    (err : JsValue) :
  locked rt = false ->
  failure (condition events (user rt)).2 = Some err ->
  (callback events rt).2 = Rejected err /\
  locked (callback events rt).1 = false /\
  interval (callback events rt).1 = interval rt /\
  timers (callback events rt).1 = timers rt /\
  actionCalls (callback events rt).1 = actionCalls rt.
Proof.
  intros Hl Hf. by rewrite (callback_condition_fails rt events err Hl Hf).
Qed.

Lemma tick_eq rt h :
  tick h rt =
    match timers rt !! h with
    | Some _ =>
        mkRuntime (interval rt) (locked rt) (timers rt) (timerCount rt)
          (logs rt ++
             match failure (action (user rt)).2 with
             | Some err => [action_error err]
             | None => []
             end)
          (S (actionCalls rt)) (action (user rt)).1
    | None => rt
    end.
Proof. unfold tick. rewrite run_action_eq. by destruct (timers rt !! h). Qed.

(** X19. A tick of an armed timer calls the action once; a failure of the
    action is logged and goes no further, and the timer stays armed.  A
    tick of a timer that is not armed does nothing. *)
Theorem tick_isolates_action_failure (rt : Runtime) (h : nat) :
  timers (tick h rt) = timers rt /\
  interval (tick h rt) = interval rt /\
  (is_Some (timers rt !! h) ->
     actionCalls (tick h rt) = S (actionCalls rt) /\
     user (tick h rt) = (action (user rt)).1 /\
     forall err,
       failure (action (user rt)).2 = Some err ->
       logs (tick h rt) =
         logs rt ++
           [mkLog Error "Error executing interval action" [ArgValue err]]) /\
  (timers rt !! h = None -> tick h rt = rt).
Proof.
  rewrite tick_eq. destruct (timers rt !! h) as [ms|] eqn:Ht; simpl.
  - repeat split; try done; intros err ->; done.
  - repeat split; try done; by intros [? ?].
Qed.

(** Every handle in use was issued by [setInterval]. *)
Definition handles_issued (rt : Runtime) : Prop :=
  forall h, interval rt = Some h -> h < timerCount rt.

(** X20. Once the task is disarmed no tick runs the action any more.  For a
    task that owns its timers: after [cleanup], and after an invocation of
    [callback] whose predicate is false, a tick of any handle does nothing;
    and a second [cleanup] changes nothing. *)
Theorem disarmed_task_never_ticks (rt : Runtime) (events : EventsObject)
    (h : nat) :
  owns_timers rt ->
  tick h (cleanup rt) = cleanup rt /\
  cleanup (cleanup rt) = cleanup rt /\
  (locked rt = false ->
   settled (condition events (user rt)).2 = Some false ->
   tick h (callback events rt).1 = (callback events rt).1).
Proof.
  intros Ho. destruct (cleanup_eq rt) as (Hi & Ht & _).
  split; [|split].
  - rewrite tick_eq, Ht, cleared_empty by done. by rewrite lookup_empty.
  - unfold cleanup at 1. by rewrite Hi.
  - intros Hl Hc. rewrite (callback_condition_false rt events Hl Hc).
    rewrite tick_eq. simpl. rewrite cleared_empty by done.
    by rewrite lookup_empty.
Qed.

(** X21. Re-arming replaces the timer.  For a task that owns its timers and
    has one armed: an invocation of [callback] whose predicate is true
    leaves the new timer as the only one, and a tick of the old handle does
    nothing any more. *)
Theorem rearm_silences_old_timer (rt : Runtime) (events : EventsObject)
    (old : nat) :
  owns_timers rt ->
  handles_issued rt ->
  locked rt = false ->
  interval rt = Some old ->
  settled (condition events (user rt)).2 = Some true ->
  let rt' := (callback events rt).1 in
  interval rt' = Some (timerCount rt) /\
  timers rt' = {[timerCount rt := intervalMs]} /\
  tick old rt' = rt' /\
  actionCalls (tick (timerCount rt) rt') = S (actionCalls rt').
Proof.
  intros Ho Hh Hl Hi Hc rt'.
  destruct (callback_rearm_single_timer rt events Ho Hl Hc) as [Ht _].
  fold rt' in Ht.
  assert (interval rt' = Some (timerCount rt)) as Hi'.
  { unfold rt'. by rewrite (callback_condition_true rt events Hl Hc). }
  split; [done|]. split; [done|].
  pose proof (Hh old Hi) as Hlt.
  rewrite !tick_eq, Ht.
  rewrite lookup_singleton_ne by lia. by rewrite lookup_singleton_eq.
Qed.

(** What a task goes through: invocations of [callback], [cleanup], and
    the host firing a timer. *)
Inductive Call : Type :=
| CallCallback (events : EventsObject)
| CallCleanup
| CallTick (h : nat).

Definition run_call (rt : Runtime) (c : Call) : Runtime :=
  match c with
  | CallCallback events => (callback events rt).1
  | CallCleanup => cleanup rt
  | CallTick h => tick h rt
  end.

Definition well_formed (rt : Runtime) : Prop :=
  owns_timers rt /\ handles_issued rt /\ locked rt = false.

Lemma callback_handles_issued rt events :
  handles_issued rt -> handles_issued (callback events rt).1.
Proof.
  intros Hh. destruct (locked rt) eqn:Hl.
  { unfold callback. by rewrite Hl. }
  destruct (settled (condition events (user rt)).2) as [[|]|] eqn:Hc.
  - rewrite (callback_condition_true rt events Hl Hc).
    intros h. simpl. intros [= <-]. lia.
  - rewrite (callback_condition_false rt events Hl Hc). by intros h.
  - assert (exists err, failure (condition events (user rt)).2 = Some err)
      as [err Hf].
    { destruct (condition events (user rt)).2; simpl in *; eauto;
        discriminate. }
    by rewrite (callback_condition_fails rt events err Hl Hf).
Qed.

Lemma task_call_well_formed rt c :
  well_formed rt -> well_formed (run_call rt c).
Proof.
  intros (Ho & Hh & Hl). destruct c as [events| |h]; cbn [run_call].
  - split; [by apply callback_owns_timers|].
    split; [by apply callback_handles_issued|by apply callback_releases].
  - destruct (cleanup_eq rt) as (Hi & _ & Hc & _ & Hl').
    split; [by apply cleanup_owns_timers|]. split; [|congruence].
    intros h'. by rewrite Hi.
  - rewrite tick_eq. by destruct (timers rt !! h).
Qed.

(** X22. The task never has two timers armed.  From an idle task, after
    any sequence of [callback] invocations, [cleanup] calls and ticks: the
    armed timers are exactly the one [interval] names, if it names one, and
    the mutex is free. *)
Theorem never_two_timers (rt : Runtime) (calls : list Call) :
  interval rt = None ->
  timers rt = ∅ ->
  locked rt = false ->
  let rt' := foldl run_call rt calls in
  dom (timers rt') =
    match interval rt' with
    | Some h => {[h]}
    | None => ∅
    end /\
  size (timers rt') <= 1 /\
  locked rt' = false.
Proof.
  intros Hi Ht Hl.
  assert (well_formed rt) as Hwf.
  { unfold well_formed, owns_timers, handles_issued. rewrite Hi, Ht.
    by rewrite dom_empty_L. }
  clear Hi Ht Hl. intros rt'.
  assert (well_formed rt') as (Ho & _ & Hl).
  { unfold rt'. clear rt'. revert rt Hwf.
    induction calls as [|c calls IH]; intros rt Hwf; [done|].
    simpl. apply IH. by apply task_call_well_formed. }
  split; [done|]. split; [|done].
  rewrite <- size_dom, Ho. destruct (interval rt').
  - by rewrite size_singleton.
  - rewrite size_empty. lia.
Qed.

End IntervalCallback.

Arguments mkRuntime {U}.
Arguments interval {U}.
Arguments locked {U}.
Arguments timers {U}.
Arguments timerCount {U}.
Arguments logs {U}.
Arguments actionCalls {U}.
Arguments user {U}.
Arguments callback {U}.
Arguments cleanup {U}.
Arguments tick {U}.
Arguments cleared {U}.

(** *** A concrete task *)

(** The predicate reads its verdict from the user state; the action fails
    on every call. *)
Definition verdict : EventsObject -> bool -> bool * Outcome bool :=
  fun _ b => (b, Resolves b).

Definition failing_action : bool -> bool * Outcome unit :=
  fun b => (b, Rejects (JsStr "tick failed")).

(** A task with timer [0] armed, one action call behind it. *)
Definition armed (b : bool) : Runtime bool :=
  mkRuntime (Some 0) false {[0 := 5000%Z]} 1 [] 1 b.

Definition idle (b : bool) : Runtime bool :=
  mkRuntime None false ∅ 0 [] 0 b.

Lemma callback_arms_and_disarms_witness :
  locked (armed true) = false /\
  (let rt' := (callback verdict failing_action 5000 None ∅ (armed true)).1 in
   (callback verdict failing_action 5000 None ∅ (armed true)).2 = Fulfilled /\
   interval rt' = Some 1 /\
   timers rt' = <[1 := 5000%Z]> (cleared (armed true)) /\
   actionCalls rt' = 2 /\
   mkLog Error "Error executing interval action"
     [ArgValue (JsStr "tick failed")] ∈ logs rt') /\
  (let rt' := (callback verdict failing_action 5000 None ∅ (armed false)).1 in
   interval rt' = None /\
   timers rt' = delete 0 (timers (armed false)) /\
   actionCalls rt' = 1) /\
  callback verdict failing_action 5000 None ∅ (idle false) =
    (mkRuntime None false ∅ 0 [mkLog Debug "Interval callback executed" []]
       0 false,
     Fulfilled).
Proof.
  split; [reflexivity|].
  destruct (callback_arms_and_disarms bool verdict failing_action 5000 None
              (armed true) ∅ eq_refl) as (Htrue & _ & _ & _).
  destruct (callback_arms_and_disarms bool verdict failing_action 5000 None
              (armed false) ∅ eq_refl) as (_ & Hfalse & _ & _).
  destruct (callback_arms_and_disarms bool verdict failing_action 5000 None
              (idle false) ∅ eq_refl) as (_ & _ & Hidle & _).
  destruct (Htrue eq_refl) as (H1 & H2 & H3 & H4 & H5).
  destruct (Hfalse eq_refl 0 eq_refl) as (_ & H6 & H7 & H8).
  split; [|split].
  - repeat split; try assumption.
    apply H5; [discriminate|reflexivity].
  - repeat split; assumption.
  - exact (Hidle eq_refl eq_refl).
Defined.

(** The predicate stays true over two invocations: the first timer is
    cleared and one timer is left armed. *)
Example rearm_keeps_one_timer :
  let rt1 := (callback verdict failing_action 5000 None ∅ (idle true)).1 in
  let rt2 := (callback verdict failing_action 5000 None ∅ rt1).1 in
  timers rt1 = {[0 := 5000%Z]} /\
  timers rt2 = {[1 := 5000%Z]} /\
  interval rt2 = Some 1 /\
  actionCalls rt2 = 2 /\
  actionCalls (tick failing_action 0 rt2) = 2 /\
  actionCalls (tick failing_action 1 rt2) = 3.
Proof. repeat split; vm_compute; reflexivity. Qed.

(** With [runOnSetup: false] the action waits for the first tick; a tick
    of a cleared timer does nothing. *)
Example run_on_setup_false :
  let rt := (callback verdict failing_action 5000 (Some false) ∅ (idle true)).1 in
  actionCalls rt = 0 /\
  interval rt = Some 0 /\
  actionCalls (tick failing_action 0 rt) = 1 /\
  actionCalls (tick failing_action 0 (cleanup rt)) = 0 /\
  interval (cleanup rt) = None.
Proof. repeat split; vm_compute; reflexivity. Qed.

(** *** The further properties on the concrete task *)

(** A predicate whose promise is rejected. *)
Definition broken : EventsObject -> bool -> bool * Outcome bool :=
  fun _ b => (b, Rejects (JsStr "no verdict")).

Lemma armed_owns_timers b : owns_timers bool (armed b).
Proof. unfold owns_timers. simpl. by rewrite dom_singleton_L. Qed.

Lemma condition_failure_keeps_timer_witness :
  locked (armed true) = false /\
  failure (broken ∅ (user (armed true))).2 = Some (JsStr "no verdict") /\
  (callback broken failing_action 5000 None ∅ (armed true)).2 =
    Rejected (JsStr "no verdict") /\
  locked (callback broken failing_action 5000 None ∅ (armed true)).1 = false /\
  interval (callback broken failing_action 5000 None ∅ (armed true)).1 =
    interval (armed true) /\
  timers (callback broken failing_action 5000 None ∅ (armed true)).1 =
    timers (armed true) /\
  actionCalls (callback broken failing_action 5000 None ∅ (armed true)).1 =
    actionCalls (armed true).
Proof.
  split; [reflexivity|]. split; [reflexivity|].
  apply (condition_failure_keeps_timer bool broken failing_action 5000 None
           (armed true) ∅ (JsStr "no verdict")); reflexivity.
Defined.

Lemma disarmed_task_never_ticks_witness :
  owns_timers bool (armed false) /\
  tick failing_action 0 (cleanup (armed false)) = cleanup (armed false) /\
  cleanup (cleanup (armed false)) = cleanup (armed false) /\
  (locked (armed false) = false ->
   settled (verdict ∅ (user (armed false))).2 = Some false ->
   tick failing_action 0
     (callback verdict failing_action 5000 None ∅ (armed false)).1 =
     (callback verdict failing_action 5000 None ∅ (armed false)).1).
Proof.
  split; [apply armed_owns_timers|].
  apply (disarmed_task_never_ticks bool verdict failing_action 5000 None
           (armed false) ∅ 0).
  apply armed_owns_timers.
Defined.

Lemma rearm_silences_old_timer_witness :
  owns_timers bool (armed true) /\
  handles_issued bool (armed true) /\
  locked (armed true) = false /\
  interval (armed true) = Some 0 /\
  settled (verdict ∅ (user (armed true))).2 = Some true /\
  let rt' := (callback verdict failing_action 5000 None ∅ (armed true)).1 in
  interval rt' = Some 1 /\
  timers rt' = {[1 := 5000%Z]} /\
  tick failing_action 0 rt' = rt' /\
  actionCalls (tick failing_action 1 rt') = S (actionCalls rt').
Proof.
  assert (handles_issued bool (armed true)) as Hh.
  { intros h. simpl. intros [= <-]. lia. }
  split; [apply armed_owns_timers|]. split; [exact Hh|].
  split; [reflexivity|]. split; [reflexivity|]. split; [reflexivity|].
  apply (rearm_silences_old_timer bool verdict failing_action 5000 None
           (armed true) ∅ 0 (armed_owns_timers true) Hh); reflexivity.
Defined.

Lemma never_two_timers_witness :
  let calls :=
    [CallCallback ∅; CallTick 0; CallCallback ∅; CallTick 0; CallTick 1;
     CallCleanup; CallCallback ∅] in
  let rt' :=
    foldl (run_call bool verdict failing_action 5000 None) (idle true) calls in
  interval (idle true) = None /\
  timers (idle true) = ∅ /\
  locked (idle true) = false /\
  dom (timers rt') =
    match interval rt' with
    | Some h => {[h]}
    | None => ∅
    end /\
  size (timers rt') <= 1 /\
  locked rt' = false.
Proof.
  intros calls rt'.
  split; [reflexivity|]. split; [reflexivity|]. split; [reflexivity|].
  apply (never_two_timers bool verdict failing_action 5000 None (idle true)
           calls); reflexivity.
Defined.

End Interval.

(** ** registerCallbacks.ts, createWatchersFromMap.ts and watcherManager.ts *)

Module Wiring.

(** What [watchers[key].addCallback] throws when [watchers[key]] is
    [undefined]. *)
Definition typeError : JsValue := JsStr "TypeError".

(** Calls of the lifecycle functions, in the order they were made. *)
Inductive Lifecycle : Type :=
| Setup (name : string)
| Created (name : string)
| Disposed (name : string)
| TornDown (name : string).

Section RegisterCallbacks.

(** State of the user's program and of the aggregators: what the
    registered callbacks, [setup], [teardown] and [dispose] work on. *)
Variable U : Type.

(** types.ts, [WatcherCallbackConfig]: the watcher keys and the optional
    [setup] and [teardown].  The [callback] of the config lives in its
    aggregator. *)
Record Config : Type := mkConfig {
  cfg_watchers : list string;
  cfg_setup : option (U -> U * Completion unit);
  cfg_teardown : option (U -> U * Completion unit);
}.

(** [createFanInAggregator(callbackName, cfg, watchers, logger)]: what
    creating the aggregator does to the state, and the two closures it
    returns.  [dispose] reads the watchers' current values. *)
Variable createAggregator : string -> Config -> U -> U.
Variable fanInOf : string -> Config -> Watcher.SingleAtomCallback U.
Variable disposeOf :
  string -> Config -> (string -> option JsValue) -> U -> U * Completion unit.

(** One property of the [watchers] object: a watcher with its id. *)
Record WatcherObject : Type := mkWatcher {
  watcherId : string;
  runtime : Watcher.Runtime U;
}.

(** The [watchers] object, in property order, the state the callbacks
    share, and the logger. *)
Record System : Type := mkSystem {
  watchers : list (string * WatcherObject);
  shared : U;
  logs : list LogEntry;
  lifecycle : list Lifecycle;
}.

(** [watchers[key]] *)
Fixpoint get_watcher (key : string) (ws : list (string * WatcherObject))
    : option WatcherObject :=
  match ws with
  | [] => None
  | (k, w) :: rest => if decide (k = key) then Some w else get_watcher key rest
  end.

(** The [watchers] object after the watcher under [key] changed state. *)
Fixpoint put_watcher (key : string) (w : WatcherObject)
    (ws : list (string * WatcherObject)) : list (string * WatcherObject) :=
  match ws with
  | [] => []
  | (k, w0) :: rest =>
      if decide (k = key) then (k, w) :: rest
      else (k, w0) :: put_watcher key w rest
  end.

(** The logger and the shared state are lent to the watcher for a call. *)
Definition install (sys : System) (w : WatcherObject) : Watcher.Runtime U :=
  let r := runtime w in
  Watcher.mkRuntime (Watcher.callbacks r) (Watcher.unsubscribe r)
    (Watcher.previousValue r) (Watcher.atomValue r) (Watcher.listeners r)
    (Watcher.subscriptions r) (logs sys) (Watcher.dispatched r)
    (Watcher.invoked r) (Watcher.unhandled r) (shared sys).

(** [watchers[key].method(...)]: a [TypeError] when there is no watcher
    under [key]. *)
Definition on_watcher {A : Type} (key : string)
    (method : string -> Js.M (Watcher.Runtime U) A) : Js.M System A :=
  fun sys =>
    match get_watcher key (watchers sys) with
    | None => (sys, Abrupt typeError)
    | Some w =>
        let '(r, res) := method (watcherId w) (install sys w) in
        (mkSystem (put_watcher key (mkWatcher (watcherId w) r) (watchers sys))
           (Watcher.user r) (Watcher.logs r) (lifecycle sys),
         res)
    end.

Definition logger (l : LogLevel) (msg : string) (a : list LogArg)
    (sys : System) : System :=
  mkSystem (watchers sys) (shared sys) (logs sys ++ [mkLog l msg a])
    (lifecycle sys).

Definition record (e : Lifecycle) (sys : System) : System :=
  mkSystem (watchers sys) (shared sys) (logs sys) (lifecycle sys ++ [e]).

(** Calling a function of the user on the shared state. *)
Definition call_user (f : U -> U * Completion unit) : Js.M System unit :=
  fun sys =>
    let '(u, c) := f (shared sys) in
    (mkSystem (watchers sys) u (logs sys) (lifecycle sys), c).

(** [f?.()], for the lifecycle function [f] whose call is [e]. *)
Definition call_optional (e : Lifecycle)
    (f : option (U -> U * Completion unit)) : Js.M System unit :=
  match f with
  | Some f => Js.modify (record e) ;; call_user f
  | None => Js.ret tt
  end.

(** [watchers[key].getCurrentValue()] for the aggregators. *)
Definition current_values (sys : System) (key : string) : option JsValue :=
  Watcher.atomValue <$> (runtime <$> get_watcher key (watchers sys)).

(** [makeId]: [`${callbackName}_${String(key)}`] *)
Definition makeId (callbackName key : string) : string :=
  callbackName +:+ "_" +:+ key.

(** The body of [cfg.watchers.forEach] in the registration. *)
Definition register_key (callbackName : string) (cfg : Config) (key : string)
    : Js.M System unit :=
  let cbId := makeId callbackName key in
  on_watcher key (fun wid =>
    Watcher.addCallback wid (fanInOf callbackName cfg) cbId) ;;
  Js.modify (logger Debug
    ("Registered " +:+ callbackName +:+ " with " +:+ key +:+
     " (" +:+ cbId +:+ ")") []).

(** The body of [Object.entries(callbackConfigs).forEach] in the
    registration. *)
Definition register_config (entry : string * Config) : Js.M System unit :=
  let callbackName := entry.1 in
  let cfg := entry.2 in
  call_optional (Setup callbackName) (cfg_setup cfg) ;;
  Js.modify (fun sys =>
    mkSystem (watchers sys) (createAggregator callbackName cfg (shared sys))
      (logs sys) (lifecycle sys ++ [Created callbackName])) ;;
  Js.for_of (cfg_watchers cfg) (register_key callbackName cfg).

(** [registerCallbacks], up to the [return] of the cleanup function. *)
Definition registerCallbacks (callbackConfigs : list (string * Config))
    : Js.M System unit :=
  Js.for_of callbackConfigs register_config.

(** The body of [cfg.watchers.forEach] in the cleanup function. *)
Definition remove_key (name : string) (key : string) : Js.M System unit :=
  let cbId := makeId name key in
  on_watcher key (fun _ => Watcher.removeCallback U cbId) ;;
  Js.modify (logger Debug
    ("Removed " +:+ name +:+ " from " +:+ key +:+ " (" +:+ cbId +:+ ")") []).

(** [disposeAggregator?.()]: the disposer was stored at registration. *)
Definition call_dispose (name : string) (cfg : Config) : Js.M System unit :=
  fun sys =>
    let '(u, c) := disposeOf name cfg (current_values sys) (shared sys) in
    (mkSystem (watchers sys) u (logs sys) (lifecycle sys ++ [Disposed name]),
     c).

Definition cleanup_config (entry : string * Config) : Js.M System unit :=
  let name := entry.1 in
  let cfg := entry.2 in
  Js.for_of (cfg_watchers cfg) (remove_key name) ;;
  call_dispose name cfg ;;
  call_optional (TornDown name) (cfg_teardown cfg).

(** The function [registerCallbacks] returns. *)
Definition cleanup (callbackConfigs : list (string * Config))
    : Js.M System unit :=
  Js.for_of callbackConfigs cleanup_config.

(** *** The callback map of one watcher *)

(** The callback map of the watcher under [key], if there is one. *)
Definition callbacks_at (key : string) (sys : System)
    : option (list (string * Watcher.SingleAtomCallback U)) :=
  (fun w => Watcher.callbacks (runtime w)) <$> get_watcher key (watchers sys).

(** Its subscription. *)
Definition subscription_at (key : string) (sys : System)
    : option (option nat * list nat) :=
  (fun w => (Watcher.unsubscribe (runtime w), Watcher.listeners (runtime w)))
    <$> get_watcher key (watchers sys).

Lemma get_put_watcher key k w ws :
  get_watcher k (put_watcher key w ws) =
    if decide (k = key) then (fun _ => w) <$> get_watcher key ws
    else get_watcher k ws.
Proof.
  induction ws as [|[k0 w0] ws IH]; simpl.
  - by destruct (decide (k = key)).
  - destruct (decide (k0 = key)) as [->|Hne]; simpl.
    + destruct (decide (key = k)) as [->|Hne'].
      * by destruct (decide (k = k)).
      * by destruct (decide (k = key)); [congruence|].
    + destruct (decide (k0 = k)) as [->|Hne'].
      * by destruct (decide (k = key)); [congruence|].
      * apply IH.
Qed.

Lemma put_watcher_keys key w ws :
  map fst (put_watcher key w ws) = map fst ws.
Proof.
  induction ws as [|[k0 w0] ws IH]; simpl; [done|].
  destruct (decide (k0 = key)); simpl; [done|]. by rewrite IH.
Qed.

(** What one call of a watcher method that only touches the callback map
    does to the system. *)
Definition changes_callbacks (sys sys' : System)
    (f : string -> list (string * Watcher.SingleAtomCallback U)
         -> list (string * Watcher.SingleAtomCallback U)) : Prop :=
  (forall k, callbacks_at k sys' = f k <$> callbacks_at k sys) /\
  (forall k, subscription_at k sys' = subscription_at k sys) /\
  (forall k, current_values sys' k = current_values sys k) /\
  map fst (watchers sys') = map fst (watchers sys).

Lemma changes_callbacks_refl sys : changes_callbacks sys sys (fun _ m => m).
Proof.
  repeat split; try done. intros k. by destruct (callbacks_at k sys).
Qed.

Lemma changes_callbacks_trans sys1 sys2 sys3 f g :
  changes_callbacks sys1 sys2 f ->
  changes_callbacks sys2 sys3 g ->
  changes_callbacks sys1 sys3 (fun k m => g k (f k m)).
Proof.
  intros (H1 & H2 & H3 & H4) (G1 & G2 & G3 & G4). repeat split.
  - intros k. rewrite G1, H1. by destruct (callbacks_at k sys1).
  - intros k. by rewrite G2, H2.
  - intros k. by rewrite G3, H3.
  - by rewrite G4, H4.
Qed.

Lemma changes_callbacks_same_watchers sys sys' :
  watchers sys' = watchers sys ->
  changes_callbacks sys sys' (fun _ m => m).
Proof.
  intros Hw. unfold changes_callbacks, callbacks_at, subscription_at,
    current_values. rewrite Hw. repeat split; try done.
  intros k. by destruct (get_watcher k (watchers sys)).
Qed.

Lemma changes_callbacks_ext sys sys' f g :
  (forall k m, f k m = g k m) ->
  changes_callbacks sys sys' f -> changes_callbacks sys sys' g.
Proof.
  intros Hfg (H1 & H2 & H3 & H4). repeat split; try done.
  intros k. rewrite H1. destruct (callbacks_at k sys); simpl; [|done].
  by rewrite Hfg.
Qed.

(** The callback map of watcher [k] after the [addCallback] for [key]. *)
Definition add_key (callbackName : string) (cfg : Config) (key : string)
    (k : string) (m : list (string * Watcher.SingleAtomCallback U))
    : list (string * Watcher.SingleAtomCallback U) :=
  if decide (k = key)
  then Watcher.map_set (makeId callbackName key) (fanInOf callbackName cfg) m
  else m.

Definition del_key (name : string) (key : string)
    (k : string) (m : list (string * Watcher.SingleAtomCallback U))
    : list (string * Watcher.SingleAtomCallback U) :=
  if decide (k = key) then (Watcher.map_delete (makeId name key) m).1 else m.

Lemma register_key_ok callbackName cfg key sys :
  is_Some (get_watcher key (watchers sys)) ->
  exists sys',
    register_key callbackName cfg key sys = (sys', Normal tt) /\
    changes_callbacks sys sys' (add_key callbackName cfg key) /\
    shared sys' = shared sys /\
    lifecycle sys' = lifecycle sys.
Proof.
  intros [w Hw].
  unfold register_key, on_watcher, Js.bind, Js.modify. rewrite Hw.
  unfold Watcher.addCallback, Js.bind, Js.modify. simpl.
  eexists. split; [reflexivity|]. split; [|done].
  unfold changes_callbacks, callbacks_at, subscription_at, current_values,
    add_key. simpl.
  repeat split; try apply put_watcher_keys; intros k;
    rewrite get_put_watcher; destruct (decide (k = key)) as [->|Hne];
    rewrite ?Hw; simpl; try done;
    by destruct (get_watcher k (watchers sys)).
Qed.

Lemma register_key_missing callbackName cfg key sys :
  get_watcher key (watchers sys) = None ->
  register_key callbackName cfg key sys = (sys, Abrupt typeError).
Proof.
  intros Hw. unfold register_key, on_watcher, Js.bind. by rewrite Hw.
Qed.

Lemma remove_key_ok name key sys :
  is_Some (get_watcher key (watchers sys)) ->
  exists sys',
    remove_key name key sys = (sys', Normal tt) /\
    changes_callbacks sys sys' (del_key name key) /\
    shared sys' = shared sys /\
    lifecycle sys' = lifecycle sys.
Proof.
  intros [w Hw].
  unfold remove_key, on_watcher, Js.bind, Js.modify. rewrite Hw.
  unfold Watcher.removeCallback, Js.bind, Js.gets, Js.modify, Js.ret. simpl.
  destruct (Watcher.map_delete (makeId name key)
              (Watcher.callbacks (runtime w))) as [cbs' found] eqn:Hdel.
  simpl. eexists. split; [reflexivity|]. split; [|done].
  unfold changes_callbacks, callbacks_at, subscription_at, current_values,
    del_key. simpl.
  repeat split; try apply put_watcher_keys; intros k;
    rewrite get_put_watcher; destruct (decide (k = key)) as [->|Hne];
    rewrite ?Hw; simpl; rewrite ?Hdel; try done;
    by destruct (get_watcher k (watchers sys)).
Qed.

Lemma get_watcher_is_Some key ws :
  is_Some (get_watcher key ws) <-> key ∈ map fst ws.
Proof.
  induction ws as [|[k0 w0] ws IH]; simpl.
  - split; [by intros [? ?]|]. intros Hin. by apply elem_of_nil in Hin.
  - rewrite elem_of_cons. destruct (decide (k0 = key)) as [->|Hne].
    + split; [by left|eauto].
    + rewrite IH. split; [by right|]. by intros [->|?].
Qed.

Lemma map_set_idem {V} (k : string) (v : V) m :
  Watcher.map_set k v (Watcher.map_set k v m) = Watcher.map_set k v m.
Proof.
  induction m as [|[k0 v0] m IH]; simpl.
  - by destruct (decide (k = k)).
  - destruct (decide (k0 = k)) as [->|Hne]; simpl.
    + by destruct (decide (k = k)).
    + destruct (decide (k0 = k)); [congruence|]. by rewrite IH.
Qed.

(** The registrations of a config on watcher [k]: one, if the config lists
    the watcher, however often. *)
Definition add_config (k : string)
    (m : list (string * Watcher.SingleAtomCallback U))
    (entry : string * Config) : list (string * Watcher.SingleAtomCallback U) :=
  if decide (k ∈ cfg_watchers entry.2)
  then Watcher.map_set (makeId entry.1 k) (fanInOf entry.1 entry.2) m
  else m.

Lemma add_keys_eq callbackName cfg k keys : forall m,
  foldl (fun m key => add_key callbackName cfg key k m) m keys =
    if decide (k ∈ keys)
    then Watcher.map_set (makeId callbackName k) (fanInOf callbackName cfg) m
    else m.
Proof.
  induction keys as [|key keys IH]; intros m; simpl.
  - destruct (decide (k ∈ [])) as [Hin|_]; [by apply elem_of_nil in Hin|done].
  - rewrite IH. unfold add_key.
    destruct (decide (k = key)) as [->|Hne].
    + destruct (decide (key ∈ keys)) as [_|Hnot];
        destruct (decide (key ∈ key :: keys)) as [_|Hnot'];
        try by rewrite ?map_set_idem.
      * destruct Hnot'. left.
      * destruct Hnot'. left.
    + destruct (decide (k ∈ keys)) as [Hin|Hnot];
        destruct (decide (k ∈ key :: keys)) as [Hin'|Hnot']; try done.
      * destruct Hnot'. by right.
      * apply elem_of_cons in Hin' as [?|?]; done.
Qed.

Lemma register_keys_ok callbackName cfg keys : forall sys,
  (forall key, key ∈ keys -> key ∈ map fst (watchers sys)) ->
  exists sys',
    Js.for_of keys (register_key callbackName cfg) sys = (sys', Normal tt) /\
    changes_callbacks sys sys'
      (fun k m => foldl (fun m key => add_key callbackName cfg key k m) m keys) /\
    shared sys' = shared sys /\
    lifecycle sys' = lifecycle sys.
Proof.
  induction keys as [|key keys IH]; intros sys Hkeys; simpl.
  - exists sys. split; [done|]. split; [apply changes_callbacks_refl|done].
  - destruct (register_key_ok callbackName cfg key sys)
      as (sys1 & Hrun & Hch & Hs & Hl).
    { apply get_watcher_is_Some, Hkeys. left. }
    destruct (IH sys1) as (sys2 & Hrun2 & Hch2 & Hs2 & Hl2).
    { intros key' Hin. destruct Hch as (_ & _ & _ & ->).
      apply Hkeys. by right. }
    exists sys2. unfold Js.bind at 1. rewrite Hrun.
    split; [done|]. split; [|split; congruence].
    eapply changes_callbacks_ext; [|eapply changes_callbacks_trans; eauto].
    done.
Qed.

(** A lifecycle function that never throws. *)
Definition never_throws (f : option (U -> U * Completion unit)) : Prop :=
  forall g u, f = Some g -> (g u).2 = Normal tt.

Definition called (e : Lifecycle) (f : option (U -> U * Completion unit))
    : list Lifecycle :=
  match f with
  | Some _ => [e]
  | None => []
  end.

Lemma call_optional_ok e f sys :
  never_throws f ->
  exists sys',
    call_optional e f sys = (sys', Normal tt) /\
    watchers sys' = watchers sys /\
    lifecycle sys' = lifecycle sys ++ called e f.
Proof.
  intros Hok. destruct f as [g|]; simpl.
  - unfold Js.bind, Js.modify, call_user. simpl.
    specialize (Hok g (shared sys) eq_refl).
    destruct (g (shared sys)) as [u c]. simpl in Hok. subst c.
    eexists. split; [reflexivity|]. done.
  - exists sys. by rewrite app_nil_r.
Qed.

Lemma register_config_ok entry sys :
  never_throws (cfg_setup entry.2) ->
  (forall key, key ∈ cfg_watchers entry.2 -> key ∈ map fst (watchers sys)) ->
  exists sys',
    register_config entry sys = (sys', Normal tt) /\
    changes_callbacks sys sys' (fun k m => add_config k m entry) /\
    lifecycle sys' =
      lifecycle sys ++ called (Setup entry.1) (cfg_setup entry.2)
        ++ [Created entry.1].
Proof.
  intros Hsetup Hkeys. destruct entry as [callbackName cfg]. simpl in *.
  destruct (call_optional_ok (Setup callbackName) (cfg_setup cfg) sys Hsetup)
    as (sys1 & Hrun1 & Hw1 & Hl1).
  set (sys2 :=
    mkSystem (watchers sys1) (createAggregator callbackName cfg (shared sys1))
      (logs sys1) (lifecycle sys1 ++ [Created callbackName])).
  destruct (register_keys_ok callbackName cfg (cfg_watchers cfg) sys2)
    as (sys3 & Hrun3 & Hch3 & _ & Hl3).
  { intros key Hin. simpl. rewrite Hw1. by apply Hkeys. }
  exists sys3. unfold register_config. simpl.
  unfold Js.bind at 1. rewrite Hrun1.
  unfold Js.bind at 1. unfold Js.modify at 1. fold sys2. rewrite Hrun3.
  split; [done|]. split.
  - eapply changes_callbacks_ext;
      [|eapply changes_callbacks_trans;
         [apply (changes_callbacks_same_watchers sys sys2); by simpl|
          exact Hch3]].
    intros k m. unfold add_config. simpl. apply add_keys_eq.
  - rewrite Hl3. simpl. by rewrite Hl1, <- app_assoc.
Qed.

(** The callback map of watcher [k] after the registration of the
    configs, and the lifecycle calls the registration makes. *)
Definition add_configs (k : string) (configs : list (string * Config))
    (m : list (string * Watcher.SingleAtomCallback U))
    : list (string * Watcher.SingleAtomCallback U) :=
  foldl (add_config k) m configs.

Definition registration_calls (configs : list (string * Config))
    : list Lifecycle :=
  flat_map (fun entry =>
    called (Setup entry.1) (cfg_setup entry.2) ++ [Created entry.1]) configs.

Lemma registerCallbacks_ok configs : forall sys,
  (forall entry, entry ∈ configs -> never_throws (cfg_setup entry.2)) ->
  (forall entry key, entry ∈ configs -> key ∈ cfg_watchers entry.2 ->
     key ∈ map fst (watchers sys)) ->
  exists sys',
    registerCallbacks configs sys = (sys', Normal tt) /\
    changes_callbacks sys sys' (fun k m => add_configs k configs m) /\
    lifecycle sys' = lifecycle sys ++ registration_calls configs.
Proof.
  induction configs as [|entry configs IH]; intros sys Hsetup Hkeys.
  - exists sys. split; [done|]. split; [apply changes_callbacks_refl|].
    simpl. by rewrite app_nil_r.
  - destruct (register_config_ok entry sys) as (sys1 & Hrun1 & Hch1 & Hl1).
    { apply Hsetup. left. }
    { intros key Hin. eapply Hkeys; [left|done]. }
    destruct (IH sys1) as (sys2 & Hrun2 & Hch2 & Hl2).
    { intros e He. apply Hsetup. by right. }
    { intros e key He Hin. destruct Hch1 as (_ & _ & _ & ->).
      eapply Hkeys; [by right|done]. }
    exists sys2. unfold registerCallbacks. simpl.
    unfold Js.bind at 1. rewrite Hrun1. fold (registerCallbacks configs).
    rewrite Hrun2. split; [done|]. split.
    + eapply changes_callbacks_ext;
        [|eapply changes_callbacks_trans; eauto]. done.
    + rewrite Hl2, Hl1. simpl. by rewrite <- !app_assoc.
Qed.

Lemma for_of_app {S X} (xs ys : list X) (body : X -> Js.M S unit) s :
  Js.for_of (xs ++ ys) body s =
    (Js.for_of xs body ;; Js.for_of ys body) s.
Proof.
  revert s. induction xs as [|x xs IH]; intros s; [reflexivity|].
  simpl. unfold Js.bind at 1 2 3. destruct (body x s) as [s1 [[]|err]]; [|done].
  rewrite IH. reflexivity.
Qed.

Lemma append_length (a b : string) :
  String.length (a +:+ b) = String.length a + String.length b.
Proof. induction a as [|c a IH]; simpl; [done|]. by rewrite IH. Qed.

Lemma append_inj_l (s a b : string) : a +:+ s = b +:+ s -> a = b.
Proof.
  revert b. induction a as [|c a IH]; intros [|c' b] Heq; simpl in Heq.
  - done.
  - apply (f_equal String.length) in Heq.
    rewrite ?append_length in Heq. simpl in Heq.
    rewrite ?append_length in Heq. lia.
  - apply (f_equal String.length) in Heq.
    rewrite ?append_length in Heq. simpl in Heq.
    rewrite ?append_length in Heq. lia.
  - injection Heq as -> Heq. f_equal. by apply IH.
Qed.

(** On one watcher, two callback names never share an id. *)
Lemma makeId_inj key name1 name2 :
  makeId name1 key = makeId name2 key -> name1 = name2.
Proof. unfold makeId. apply append_inj_l. Qed.

(** What the configs register on watcher [k], in registration order. *)
Definition registrations (k : string) (configs : list (string * Config))
    : list (string * Watcher.SingleAtomCallback U) :=
  omap (fun entry =>
    if decide (k ∈ cfg_watchers entry.2)
    then Some (makeId entry.1 k, fanInOf entry.1 entry.2)
    else None) configs.

Lemma registrations_ids k configs id :
  id ∈ map fst (registrations k configs) ->
  exists entry, entry ∈ configs /\ id = makeId entry.1 k.
Proof.
  induction configs as [|entry configs IH]; simpl.
  - intros Hin. by apply elem_of_nil in Hin.
  - destruct (decide (k ∈ cfg_watchers entry.2)) as [Hk|Hk]; simpl.
    + rewrite elem_of_cons. intros [->|Hin].
      * exists entry. split; [left|done].
      * destruct (IH Hin) as (e & He & ->). exists e. split; [by right|done].
    + intros Hin. destruct (IH Hin) as (e & He & ->).
      exists e. split; [by right|done].
Qed.

Lemma later_ids_differ k entry configs id :
  NoDup (map fst (entry :: configs)) ->
  id ∈ map fst (registrations k configs) -> id <> makeId entry.1 k.
Proof.
  intros Hnd Hin ->. simpl in Hnd. apply NoDup_cons in Hnd as [Hnot _].
  apply registrations_ids in Hin as (e & He & Heq).
  apply makeId_inj in Heq. apply Hnot. rewrite Heq.
  apply list_elem_of_fmap. by exists e.
Qed.

Lemma add_configs_fresh k configs : forall m,
  NoDup (map fst configs) ->
  (forall entry, entry ∈ configs -> makeId entry.1 k ∉ map fst m) ->
  add_configs k configs m = m ++ registrations k configs.
Proof.
  induction configs as [|entry configs IH]; intros m Hnd Hfresh; simpl.
  - by rewrite app_nil_r.
  - assert (NoDup (map fst configs)) as Hnd'
      by (simpl in Hnd; by apply NoDup_cons in Hnd as [_ ?]).
    unfold add_configs in *. unfold add_config at 2.
    destruct (decide (k ∈ cfg_watchers entry.2)) as [Hin|Hout].
    + rewrite Watcher.map_set_fresh by (apply Hfresh; left).
      rewrite IH; [by rewrite <- app_assoc|done|].
      intros e He. rewrite map_app. simpl. intros Hbad.
      apply elem_of_app in Hbad as [Hbad|Hbad].
      * by apply (Hfresh e); [right|].
      * apply list_elem_of_singleton in Hbad. apply makeId_inj in Hbad.
        simpl in Hnd. apply NoDup_cons in Hnd as [Hnot _]. apply Hnot.
        rewrite <- Hbad. apply list_elem_of_fmap. by exists e.
    + apply IH; [done|]. intros e He. apply Hfresh. by right.
Qed.

(** ** The cleanup function *)

Definition del_config (k : string)
    (m : list (string * Watcher.SingleAtomCallback U))
    (entry : string * Config) : list (string * Watcher.SingleAtomCallback U) :=
  foldl (fun m key => del_key entry.1 key k m) m (cfg_watchers entry.2).

Definition del_configs (k : string) (configs : list (string * Config))
    (m : list (string * Watcher.SingleAtomCallback U))
    : list (string * Watcher.SingleAtomCallback U) :=
  foldl (del_config k) m configs.

Definition cleanup_calls (configs : list (string * Config))
    : list Lifecycle :=
  flat_map (fun entry =>
    Disposed entry.1 :: called (TornDown entry.1) (cfg_teardown entry.2))
    configs.

Definition dispose_never_throws (entry : string * Config) : Prop :=
  forall values u, (disposeOf entry.1 entry.2 values u).2 = Normal tt.

Lemma remove_keys_ok name keys : forall sys,
  (forall key, key ∈ keys -> key ∈ map fst (watchers sys)) ->
  exists sys',
    Js.for_of keys (remove_key name) sys = (sys', Normal tt) /\
    changes_callbacks sys sys'
      (fun k m => foldl (fun m key => del_key name key k m) m keys) /\
    shared sys' = shared sys /\
    lifecycle sys' = lifecycle sys.
Proof.
  induction keys as [|key keys IH]; intros sys Hkeys; simpl.
  - exists sys. split; [done|]. split; [apply changes_callbacks_refl|done].
  - destruct (remove_key_ok name key sys) as (sys1 & Hrun & Hch & Hs & Hl).
    { apply get_watcher_is_Some, Hkeys. left. }
    destruct (IH sys1) as (sys2 & Hrun2 & Hch2 & Hs2 & Hl2).
    { intros key' Hin. destruct Hch as (_ & _ & _ & ->).
      apply Hkeys. by right. }
    exists sys2. unfold Js.bind at 1. rewrite Hrun.
    split; [done|]. split; [|split; congruence].
    eapply changes_callbacks_ext; [|eapply changes_callbacks_trans; eauto].
    done.
Qed.

Lemma cleanup_config_ok entry sys :
  dispose_never_throws entry ->
  never_throws (cfg_teardown entry.2) ->
  (forall key, key ∈ cfg_watchers entry.2 -> key ∈ map fst (watchers sys)) ->
  exists sys',
    cleanup_config entry sys = (sys', Normal tt) /\
    changes_callbacks sys sys' (fun k m => del_config k m entry) /\
    lifecycle sys' =
      lifecycle sys ++ Disposed entry.1
        :: called (TornDown entry.1) (cfg_teardown entry.2).
Proof.
  intros Hdispose Hteardown Hkeys. destruct entry as [name cfg]. simpl in *.
  destruct (remove_keys_ok name (cfg_watchers cfg) sys Hkeys)
    as (sys1 & Hrun1 & Hch1 & _ & Hl1).
  specialize (Hdispose (current_values sys1) (shared sys1)). simpl in Hdispose.
  destruct (disposeOf name cfg (current_values sys1) (shared sys1))
    as [u c] eqn:Hd. simpl in Hdispose. subst c.
  set (sys2 :=
    mkSystem (watchers sys1) u (logs sys1) (lifecycle sys1 ++ [Disposed name])).
  destruct (call_optional_ok (TornDown name) (cfg_teardown cfg) sys2 Hteardown)
    as (sys3 & Hrun3 & Hw3 & Hl3).
  exists sys3. unfold cleanup_config. simpl.
  unfold Js.bind at 1. rewrite Hrun1.
  unfold Js.bind at 1. unfold call_dispose at 1. rewrite Hd. fold sys2.
  rewrite Hrun3. split; [done|]. split.
  - eapply changes_callbacks_ext;
      [|eapply changes_callbacks_trans;
         [exact Hch1|
          apply (changes_callbacks_same_watchers sys1 sys3); by rewrite Hw3]].
    done.
  - rewrite Hl3. simpl. by rewrite Hl1, <- app_assoc.
Qed.

Lemma cleanup_ok configs : forall sys,
  (forall entry, entry ∈ configs -> dispose_never_throws entry) ->
  (forall entry, entry ∈ configs -> never_throws (cfg_teardown entry.2)) ->
  (forall entry key, entry ∈ configs -> key ∈ cfg_watchers entry.2 ->
     key ∈ map fst (watchers sys)) ->
  exists sys',
    cleanup configs sys = (sys', Normal tt) /\
    changes_callbacks sys sys' (fun k m => del_configs k configs m) /\
    lifecycle sys' = lifecycle sys ++ cleanup_calls configs.
Proof.
  induction configs as [|entry configs IH]; intros sys Hdispose Hteardown Hkeys.
  - exists sys. split; [done|]. split; [apply changes_callbacks_refl|].
    simpl. by rewrite app_nil_r.
  - destruct (cleanup_config_ok entry sys) as (sys1 & Hrun1 & Hch1 & Hl1).
    { apply Hdispose. left. }
    { apply Hteardown. left. }
    { intros key Hin. eapply Hkeys; [left|done]. }
    destruct (IH sys1) as (sys2 & Hrun2 & Hch2 & Hl2).
    { intros e He. apply Hdispose. by right. }
    { intros e He. apply Hteardown. by right. }
    { intros e key He Hin. destruct Hch1 as (_ & _ & _ & ->).
      eapply Hkeys; [by right|done]. }
    exists sys2. unfold cleanup. simpl.
    unfold Js.bind at 1. rewrite Hrun1. fold (cleanup configs).
    rewrite Hrun2. split; [done|]. split.
    + eapply changes_callbacks_ext;
        [|eapply changes_callbacks_trans; eauto]. done.
    + rewrite Hl2, Hl1. simpl. by rewrite <- !app_assoc.
Qed.

Lemma del_keys_listed name k keys : forall m,
  k ∈ keys ->
  makeId name k ∉ map fst (Watcher.map_delete (makeId name k) m).1 ->
  foldl (fun m key => del_key name key k m) m keys =
    (Watcher.map_delete (makeId name k) m).1.
Proof.
  induction keys as [|key keys IH]; intros m Hin Hgone.
  - by apply elem_of_nil in Hin.
  - simpl. unfold del_key at 2.
    assert (forall m',
      makeId name k ∉ map fst m' ->
      foldl (fun m key => del_key name key k m) m' keys = m') as Hrest.
    { clear. induction keys as [|key keys IH]; intros m' Hm'; simpl; [done|].
      unfold del_key at 2. destruct (decide (k = key)) as [<-|_].
      - rewrite Watcher.map_delete_fresh by done. by apply IH.
      - by apply IH. }
    destruct (decide (k = key)) as [<-|Hne].
    + by apply Hrest.
    + apply IH; [|done]. apply elem_of_cons in Hin as [?|?]; done.
Qed.

Lemma del_keys_unlisted name k keys m :
  k ∉ keys -> foldl (fun m key => del_key name key k m) m keys = m.
Proof.
  revert m. induction keys as [|key keys IH]; intros m Hout; simpl; [done|].
  unfold del_key at 2. destruct (decide (k = key)) as [->|_].
  - destruct Hout. left.
  - apply IH. intros Hin. apply Hout. by right.
Qed.

Lemma map_delete_app {V} (k : string) (v : V) (m rest : list (string * V)) :
  k ∉ map fst m ->
  Watcher.map_delete k (m ++ (k, v) :: rest) = (m ++ rest, true).
Proof.
  induction m as [|[k0 v0] m IH]; simpl; intros Hk.
  - by destruct (decide (k = k)).
  - destruct (decide (k0 = k)) as [->|_].
    + destruct Hk. left.
    + rewrite IH; [done|]. intros Hin. apply Hk. by right.
Qed.

Lemma del_add_configs k configs : forall m,
  NoDup (map fst configs) ->
  (forall entry, entry ∈ configs -> makeId entry.1 k ∉ map fst m) ->
  del_configs k configs (m ++ registrations k configs) = m.
Proof.
  induction configs as [|entry configs IH]; intros m Hnd Hfresh; simpl.
  - by rewrite app_nil_r.
  - assert (NoDup (map fst configs)) as Hnd'
      by (simpl in Hnd; by apply NoDup_cons in Hnd as [_ ?]).
    assert (forall e, e ∈ configs -> makeId e.1 k ∉ map fst m) as Hfresh'
      by (intros e He; apply Hfresh; by right).
    unfold del_configs in *. unfold del_config at 2.
    destruct (decide (k ∈ cfg_watchers entry.2)) as [Hin|Hout]; simpl.
    + assert (Watcher.map_delete (makeId entry.1 k)
                (m ++ (makeId entry.1 k, fanInOf entry.1 entry.2)
                   :: registrations k configs) =
              (m ++ registrations k configs, true)) as Hdel
        by (apply map_delete_app, Hfresh; left).
      rewrite del_keys_listed; rewrite ?Hdel; simpl; [by apply IH|done|].
      rewrite map_app. intros Hbad. apply elem_of_app in Hbad as [Hbad|Hbad].
      * by apply (Hfresh entry); [left|].
      * by apply (later_ids_differ k entry configs _ Hnd Hbad).
    + rewrite del_keys_unlisted by done. by apply IH.
Qed.

Lemma map_set_has_key {V} (k : string) (v : V) (m : list (string * V)) id :
  id ∈ map fst (Watcher.map_set k v m) <-> id = k \/ id ∈ map fst m.
Proof.
  induction m as [|[k0 v0] m IH]; simpl.
  - rewrite list_elem_of_singleton. split; [by left|].
    intros [?|Hin]; [done|]. by apply elem_of_nil in Hin.
  - destruct (decide (k0 = k)) as [->|Hne]; simpl.
    + rewrite !elem_of_cons. split.
      * intros [?|?]; [by left|right; by right].
      * intros [?|[?|?]]; [by left|by left|by right].
    + rewrite !elem_of_cons, IH. split.
      * intros [?|[?|?]]; [right; by left|by left|right; by right].
      * intros [?|[?|?]]; [right; by left|by left|right; by right].
Qed.

Lemma map_delete_other {V} (k id : string) (m : list (string * V)) :
  id <> k ->
  id ∈ map fst (Watcher.map_delete k m).1 <-> id ∈ map fst m.
Proof.
  intros Hne. induction m as [|[k0 v0] m IH]; simpl; [done|].
  destruct (decide (k0 = k)) as [->|Hne']; simpl.
  - rewrite elem_of_cons. split; [by right|]. by intros [?|?].
  - destruct (Watcher.map_delete k m) as [rest found]. simpl in *.
    by rewrite !elem_of_cons, IH.
Qed.

Lemma add_configs_keys k configs id : forall m,
  id ∈ map fst (add_configs k configs m) <->
  id ∈ map fst m \/
  exists entry, entry ∈ configs /\ k ∈ cfg_watchers entry.2 /\
    id = makeId entry.1 k.
Proof.
  unfold add_configs.
  induction configs as [|entry configs IH]; intros m; simpl.
  - split; [by left|]. intros [?|(e & He & _)]; [done|].
    by apply elem_of_nil in He.
  - rewrite IH. unfold add_config.
    destruct (decide (k ∈ cfg_watchers entry.2)) as [Hin|Hout].
    + rewrite map_set_has_key. split.
      * intros [[->|?]|(e & He & Hk & ->)].
        -- right. exists entry. split; [left|done].
        -- by left.
        -- right. exists e. split; [by right|done].
      * intros [?|(e & He & Hk & ->)]; [left; by right|].
        apply elem_of_cons in He as [->|He]; [left; by left|].
        right. by exists e.
    + split.
      * intros [?|(e & He & Hk & ->)]; [by left|].
        right. exists e. split; [by right|done].
      * intros [?|(e & He & Hk & ->)]; [by left|].
        apply elem_of_cons in He as [->|He]; [done|].
        right. by exists e.
Qed.

Lemma del_config_other k entry id : forall m,
  id <> makeId entry.1 k ->
  id ∈ map fst (del_config k m entry) <-> id ∈ map fst m.
Proof.
  unfold del_config. intros m Hne. revert m.
  induction (cfg_watchers entry.2) as [|key keys IH]; intros m; simpl; [done|].
  rewrite IH. unfold del_key. destruct (decide (k = key)) as [<-|_]; [|done].
  by apply map_delete_other.
Qed.

Lemma del_configs_other k configs id : forall m,
  (forall entry, entry ∈ configs -> id <> makeId entry.1 k) ->
  id ∈ map fst (del_configs k configs m) <-> id ∈ map fst m.
Proof.
  unfold del_configs.
  induction configs as [|entry configs IH]; intros m Hne; simpl; [done|].
  rewrite IH by (intros e He; apply Hne; by right).
  apply del_config_other, Hne. left.
Qed.

(** X23. When every watcher a config lists exists, no [setup] throws and
    the ids are not taken, [registerCallbacks] completes and appends to the
    callbacks of each watcher one registration per config that lists it, in
    the order of the configs, under the id [name_key]; it subscribes and
    unsubscribes nothing, and calls [setup] before creating each
    aggregator. *)
Theorem registerCallbacks_appends_registrations configs sys k m :
  NoDup (map fst configs) ->
  (forall entry, entry ∈ configs -> never_throws (cfg_setup entry.2)) ->
  (forall entry key, entry ∈ configs -> key ∈ cfg_watchers entry.2 ->
     key ∈ map fst (watchers sys)) ->
  callbacks_at k sys = Some m ->
  (forall entry, entry ∈ configs -> makeId entry.1 k ∉ map fst m) ->
  exists sys',
    registerCallbacks configs sys = (sys', Normal tt) /\
    callbacks_at k sys' = Some (m ++ registrations k configs) /\
    subscription_at k sys' = subscription_at k sys /\
    lifecycle sys' = lifecycle sys ++ registration_calls configs.
Proof.
  intros Hnd Hsetup Hkeys Hm Hfresh.
  destruct (registerCallbacks_ok configs sys Hsetup Hkeys)
    as (sys' & Hrun & (Hcb & Hsub & _ & _) & Hl).
  exists sys'. split; [done|]. split; [|by split].
  rewrite Hcb, Hm. simpl. by rewrite add_configs_fresh.
Qed.

(** X24. The cleanup function undoes the registration: after
    [registerCallbacks] and then its cleanup, every watcher has the
    callbacks it had before, in the same order, and the subscriptions are
    untouched; each aggregator is disposed and each [teardown] called once,
    in the order of the configs. This needs ids that were not taken and
    disposers and teardowns that do not throw. *)
Theorem cleanup_undoes_registerCallbacks configs sys :
  NoDup (map fst configs) ->
  (forall entry, entry ∈ configs -> never_throws (cfg_setup entry.2)) ->
  (forall entry, entry ∈ configs -> dispose_never_throws entry) ->
  (forall entry, entry ∈ configs -> never_throws (cfg_teardown entry.2)) ->
  (forall entry key, entry ∈ configs -> key ∈ cfg_watchers entry.2 ->
     key ∈ map fst (watchers sys)) ->
  (forall k m entry, callbacks_at k sys = Some m -> entry ∈ configs ->
     makeId entry.1 k ∉ map fst m) ->
  exists sys1 sys2,
    registerCallbacks configs sys = (sys1, Normal tt) /\
    cleanup configs sys1 = (sys2, Normal tt) /\
    (forall k, callbacks_at k sys2 = callbacks_at k sys) /\
    (forall k, subscription_at k sys2 = subscription_at k sys) /\
    lifecycle sys2 =
      lifecycle sys ++ registration_calls configs ++ cleanup_calls configs.
Proof.
  intros Hnd Hsetup Hdispose Hteardown Hkeys Hfresh.
  destruct (registerCallbacks_ok configs sys Hsetup Hkeys)
    as (sys1 & Hrun1 & (Hcb1 & Hsub1 & _ & Hw1) & Hl1).
  destruct (cleanup_ok configs sys1 Hdispose Hteardown)
    as (sys2 & Hrun2 & (Hcb2 & Hsub2 & _ & _) & Hl2).
  { intros e key He Hin. rewrite Hw1. by eapply Hkeys. }
  exists sys1, sys2. split; [done|]. split; [done|]. split; [|split].
  - intros k. rewrite Hcb2, Hcb1.
    destruct (callbacks_at k sys) as [m|] eqn:Hm; simpl; [|done].
    rewrite add_configs_fresh by eauto. by rewrite del_add_configs by eauto.
  - intros k. by rewrite Hsub2.
  - by rewrite Hl2, Hl1, <- app_assoc.
Qed.

(** X25. A config that lists a key with no watcher makes
    [registerCallbacks] throw a [TypeError] at that key, after its [setup]
    and the creation of its aggregator. Nothing is rolled back: the
    registrations of the earlier configs and of the earlier keys of this
    config stay on their watchers, and no cleanup function is returned. *)
Theorem registerCallbacks_unknown_watcher
    earlier name cfg later keys bad keys' sys :
  cfg_watchers cfg = keys ++ bad :: keys' ->
  bad ∉ map fst (watchers sys) ->
  (forall entry, entry ∈ earlier -> never_throws (cfg_setup entry.2)) ->
  never_throws (cfg_setup cfg) ->
  (forall entry key, entry ∈ earlier -> key ∈ cfg_watchers entry.2 ->
     key ∈ map fst (watchers sys)) ->
  (forall key, key ∈ keys -> key ∈ map fst (watchers sys)) ->
  exists sys',
    registerCallbacks (earlier ++ (name, cfg) :: later) sys =
      (sys', Abrupt typeError) /\
    (forall entry k, entry ∈ earlier -> k ∈ cfg_watchers entry.2 ->
       exists m', callbacks_at k sys' = Some m' /\
                  makeId entry.1 k ∈ map fst m') /\
    (forall k, k ∈ keys ->
       exists m', callbacks_at k sys' = Some m' /\
                  makeId name k ∈ map fst m') /\
    lifecycle sys' =
      lifecycle sys ++ registration_calls earlier
        ++ called (Setup name) (cfg_setup cfg) ++ [Created name].
Proof.
  intros Hlist Hbad Hsetups Hsetup Hkeys Hkeys'.
  destruct (registerCallbacks_ok earlier sys Hsetups Hkeys)
    as (sys1 & Hrun1 & Hch1 & Hl1).
  destruct (call_optional_ok (Setup name) (cfg_setup cfg) sys1 Hsetup)
    as (sys2 & Hrun2 & Hw2 & Hl2).
  set (sys3 :=
    mkSystem (watchers sys2) (createAggregator name cfg (shared sys2))
      (logs sys2) (lifecycle sys2 ++ [Created name])).
  assert (map fst (watchers sys3) = map fst (watchers sys)) as Hw3.
  { simpl. rewrite Hw2. by destruct Hch1 as (_ & _ & _ & ->). }
  destruct (register_keys_ok name cfg keys sys3)
    as (sys4 & Hrun4 & Hch4 & _ & Hl4).
  { intros key Hin. rewrite Hw3. by apply Hkeys'. }
  assert (changes_callbacks sys sys4
    (fun k m => foldl (fun m key => add_key name cfg key k m)
                  (add_configs k earlier m) keys)) as Hch.
  { eapply changes_callbacks_ext;
      [|eapply changes_callbacks_trans;
         [eapply changes_callbacks_trans;
            [exact Hch1|
             apply (changes_callbacks_same_watchers sys1 sys3); by simpl]|
          exact Hch4]].
    done. }
  exists sys4. split; [|split; [|split]].
  - unfold registerCallbacks. rewrite for_of_app.
    fold (registerCallbacks earlier). unfold Js.bind at 1. rewrite Hrun1.
    simpl. unfold Js.bind at 1. unfold register_config. simpl.
    unfold Js.bind at 1. rewrite Hrun2.
    unfold Js.bind at 1. unfold Js.modify at 1. fold sys3.
    rewrite Hlist, for_of_app. unfold Js.bind at 1. rewrite Hrun4.
    simpl. unfold Js.bind at 1. rewrite register_key_missing; [done|].
    destruct (get_watcher bad (watchers sys4)) as [w|] eqn:Hw; [|done].
    destruct Hbad. destruct Hch4 as (_ & _ & _ & Hkeys4).
    rewrite <- Hw3, <- Hkeys4. apply get_watcher_is_Some. by exists w.
  - intros entry k He Hk. destruct Hch as (Hcb & _).
    assert (is_Some (callbacks_at k sys)) as [m Hm].
    { unfold callbacks_at.
      assert (is_Some (get_watcher k (watchers sys))) as [w ->]
        by (apply get_watcher_is_Some; by eapply Hkeys).
      by eexists. }
    rewrite Hcb, Hm. simpl. eexists. split; [reflexivity|].
    rewrite add_keys_eq.
    assert (makeId entry.1 k ∈ map fst (add_configs k earlier m)) as Hin
      by (apply add_configs_keys; right; by exists entry).
    destruct (decide (k ∈ keys)); [|done].
    apply map_set_has_key. by right.
  - intros k Hk. destruct Hch as (Hcb & _).
    assert (is_Some (callbacks_at k sys)) as [m Hm].
    { unfold callbacks_at.
      assert (is_Some (get_watcher k (watchers sys))) as [w ->]
        by (apply get_watcher_is_Some; by apply Hkeys').
      by eexists. }
    rewrite Hcb, Hm. simpl. eexists. split; [reflexivity|].
    rewrite add_keys_eq. destruct (decide (k ∈ keys)); [|done].
    apply map_set_has_key. by left.
  - rewrite Hl4. simpl. rewrite Hl2, Hl1. by rewrite <- !app_assoc.
Qed.

(** X26. A disposer that throws stops the cleanup there: the error leaves
    the cleanup function, the [teardown] of that config is not called, the
    later configs are neither disposed nor torn down, and their
    registrations stay on the watchers. *)
Theorem cleanup_stops_at_throwing_dispose
    earlier name cfg later err sys :
  NoDup (map fst (earlier ++ (name, cfg) :: later)) ->
  (forall values u, (disposeOf name cfg values u).2 = Abrupt err) ->
  (forall entry, entry ∈ earlier -> dispose_never_throws entry) ->
  (forall entry, entry ∈ earlier -> never_throws (cfg_teardown entry.2)) ->
  (forall entry key, entry ∈ earlier ++ [(name, cfg)] ->
     key ∈ cfg_watchers entry.2 -> key ∈ map fst (watchers sys)) ->
  exists sys',
    cleanup (earlier ++ (name, cfg) :: later) sys = (sys', Abrupt err) /\
    (forall entry k m, entry ∈ later -> callbacks_at k sys = Some m ->
       exists m', callbacks_at k sys' = Some m' /\
         (makeId entry.1 k ∈ map fst m' <-> makeId entry.1 k ∈ map fst m)) /\
    lifecycle sys' = lifecycle sys ++ cleanup_calls earlier ++ [Disposed name].
Proof.
  intros Hnd Hthrows Hdispose Hteardown Hkeys.
  destruct (cleanup_ok earlier sys Hdispose Hteardown)
    as (sys1 & Hrun1 & Hch1 & Hl1).
  { intros e key He. apply Hkeys, elem_of_app. by left. }
  destruct (remove_keys_ok name (cfg_watchers cfg) sys1)
    as (sys2 & Hrun2 & Hch2 & _ & Hl2).
  { intros key Hin. destruct Hch1 as (_ & _ & _ & ->).
    apply (Hkeys (name, cfg)); [|done].
    apply elem_of_app. right. left. }
  specialize (Hthrows (current_values sys2) (shared sys2)).
  destruct (disposeOf name cfg (current_values sys2) (shared sys2))
    as [u c] eqn:Hd. simpl in Hthrows. subst c.
  eexists. split; [|split].
  - unfold cleanup. rewrite for_of_app. fold (cleanup earlier).
    unfold Js.bind at 1. rewrite Hrun1. simpl.
    unfold Js.bind at 1. unfold cleanup_config. simpl.
    unfold Js.bind at 1. rewrite Hrun2.
    unfold Js.bind at 1. unfold call_dispose at 1. rewrite Hd. reflexivity.
  - intros entry k m He Hm.
    destruct Hch1 as (Hcb1 & _). destruct Hch2 as (Hcb2 & _).
    exists (del_config k (del_configs k earlier m) (name, cfg)). split.
    { change (callbacks_at k sys2 =
                Some (del_config k (del_configs k earlier m) (name, cfg))).
      by rewrite Hcb2, Hcb1, Hm. }
    assert (forall e, e ∈ earlier ++ [(name, cfg)] ->
              makeId entry.1 k <> makeId e.1 k) as Hne.
    { intros e Hin Heq. apply makeId_inj in Heq.
      rewrite map_app in Hnd. simpl in Hnd.
      apply elem_of_app in Hin as [Hin|Hin].
      - apply NoDup_app in Hnd as (_ & Hdisj & _).
        apply (Hdisj e.1); [apply list_elem_of_fmap; by exists e|].
        right. rewrite <- Heq. apply list_elem_of_fmap. by exists entry.
      - apply list_elem_of_singleton in Hin. subst e. simpl in Heq.
        apply NoDup_app in Hnd as (_ & _ & Hnd).
        apply NoDup_cons in Hnd as [Hnot _]. apply Hnot.
        rewrite <- Heq. apply list_elem_of_fmap. by exists entry. }
    rewrite del_config_other
      by (apply (Hne (name, cfg)), elem_of_app; right; left).
    apply del_configs_other. intros e Hin. apply Hne, elem_of_app. by left.
  - simpl. rewrite Hl2, Hl1. by rewrite <- app_assoc.
Qed.

(** ** The watcher manager (watcherManager.ts)

    The manager closes over the watchers, the configs and the variable
    [deregister], which holds the cleanup function of the last
    registration or [null]. As in [Watcher], the dispatch of the initial
    event by [startWatching] is one uninterrupted run. *)

Record Manager := mkManager {
  system : System;
  (** [deregister !== null] *)
  deregister : bool
}.

Definition set_deregister (d : bool) (mgr : Manager) : Manager :=
  mkManager (system mgr) d.

(** A call into the code of registerCallbacks.ts or of a watcher. *)
Definition lift {A : Type} (c : Js.M System A) : Js.M Manager A :=
  fun mgr =>
    let '(sys, r) := c (system mgr) in
    (mkManager sys (deregister mgr), r).

(** [if (deregister) { deregister(); deregister = null; }] *)
Definition call_deregister (callbackConfigs : list (string * Config))
    : Js.M Manager unit :=
  do d <- Js.gets deregister ;
  if d : bool
  then lift (cleanup callbackConfigs) ;; Js.modify (set_deregister false)
  else Js.ret tt.

Definition start_watcher (key : string) : Js.M System unit :=
  on_watcher key (fun wid => Watcher.startWatching wid).

Definition stop_watcher (key : string) : Js.M System unit :=
  on_watcher key (fun _ => Watcher.stopWatching).

(** [Object.values(watchers).forEach((w) => w.method())] *)
Definition all_watchers (method : string -> Js.M System unit)
    : Js.M System unit :=
  do keys <- Js.gets (fun sys => map fst (watchers sys)) ;
  Js.for_of keys method.

Definition startAll (callbackConfigs : list (string * Config))
    : Js.M Manager unit :=
  lift (Js.modify (logger Debug "WatcherManager: startAll" [])) ;;
  call_deregister callbackConfigs ;;
  lift (registerCallbacks callbackConfigs) ;;
  Js.modify (set_deregister true) ;;
  lift (all_watchers start_watcher).

Definition stopAll (callbackConfigs : list (string * Config))
    : Js.M Manager unit :=
  lift (Js.modify (logger Debug "WatcherManager: stopAll" [])) ;;
  call_deregister callbackConfigs ;;
  lift (all_watchers stop_watcher).

(** The watcher under [k] is subscribed to the store, or is not. *)
Definition watching_at (k : string) (sys : System) : Prop :=
  exists h ls, subscription_at k sys = Some (Some h, ls).

Definition stopped_at (k : string) (sys : System) : Prop :=
  exists ls, subscription_at k sys = Some (None, ls).

Lemma start_watcher_ok key sys :
  is_Some (get_watcher key (watchers sys)) ->
  exists sys',
    start_watcher key sys = (sys', Normal tt) /\
    (forall k, callbacks_at k sys' = callbacks_at k sys) /\
    map fst (watchers sys') = map fst (watchers sys) /\
    lifecycle sys' = lifecycle sys /\
    watching_at key sys' /\
    (forall k, k <> key -> subscription_at k sys' = subscription_at k sys) /\
    (watching_at key sys -> subscription_at key sys' = subscription_at key sys).
Proof.
  intros [w Hw]. unfold start_watcher, on_watcher. rewrite Hw.
  destruct (Watcher.unsubscribe (runtime w)) as [h|] eqn:Hu.
  - rewrite (Watcher.startWatching_watching U _ (install sys w) h Hu).
    eexists. split; [reflexivity|].
    unfold callbacks_at, subscription_at, watching_at, subscription_at.
    simpl. rewrite put_watcher_keys.
    repeat split; try done.
    + intros k. rewrite get_put_watcher.
      destruct (decide (k = key)) as [->|_]; [|done]. by rewrite Hw.
    + exists h, (Watcher.listeners (runtime w)).
      rewrite get_put_watcher. destruct (decide (key = key)); [|done].
      rewrite Hw. simpl. by rewrite Hu.
    + intros k Hne. rewrite get_put_watcher.
      by destruct (decide (k = key)).
    + intros _. rewrite get_put_watcher.
      destruct (decide (key = key)); [|done]. by rewrite Hw.
  - rewrite (Watcher.startWatching_eq U _ (install sys w) Hu).
    rewrite Watcher.dispatchEvent_eq.
    eexists. split; [reflexivity|].
    unfold callbacks_at, subscription_at, watching_at, subscription_at.
    simpl. rewrite put_watcher_keys.
    repeat split; try done.
    + intros k. rewrite get_put_watcher.
      destruct (decide (k = key)) as [->|_]; [|done]. by rewrite Hw.
    + eexists _, _. rewrite get_put_watcher.
      destruct (decide (key = key)); [|done]. rewrite Hw. reflexivity.
    + intros k Hne. rewrite get_put_watcher.
      by destruct (decide (k = key)).
    + intros (h & ls & Hsub). rewrite Hw in Hsub. simpl in Hsub. congruence.
Qed.

Lemma stop_watcher_ok key sys :
  is_Some (get_watcher key (watchers sys)) ->
  exists sys',
    stop_watcher key sys = (sys', Normal tt) /\
    (forall k, callbacks_at k sys' = callbacks_at k sys) /\
    map fst (watchers sys') = map fst (watchers sys) /\
    lifecycle sys' = lifecycle sys /\
    stopped_at key sys' /\
    (forall k, k <> key -> subscription_at k sys' = subscription_at k sys).
Proof.
  intros [w Hw]. unfold stop_watcher, on_watcher. rewrite Hw.
  unfold Watcher.stopWatching, Js.bind, Js.gets, Js.modify, Js.ret. simpl.
  destruct (Watcher.unsubscribe (runtime w)) as [h|] eqn:Hu; simpl;
    (eexists; split; [reflexivity|]);
    unfold callbacks_at, subscription_at, stopped_at, subscription_at;
    simpl; rewrite put_watcher_keys; repeat split; try done.
  - intros k. rewrite get_put_watcher.
    destruct (decide (k = key)) as [->|_]; [|done]. by rewrite Hw.
  - eexists. rewrite get_put_watcher.
    destruct (decide (key = key)); [|done]. rewrite Hw. reflexivity.
  - intros k Hne. rewrite get_put_watcher. by destruct (decide (k = key)).
  - intros k. rewrite get_put_watcher.
    destruct (decide (k = key)) as [->|_]; [|done]. by rewrite Hw.
  - eexists. rewrite get_put_watcher.
    destruct (decide (key = key)); [|done]. rewrite Hw. simpl.
    by rewrite Hu.
  - intros k Hne. rewrite get_put_watcher. by destruct (decide (k = key)).
Qed.

Lemma start_watchers_ok keys : forall sys,
  (forall key, key ∈ keys -> key ∈ map fst (watchers sys)) ->
  exists sys',
    Js.for_of keys start_watcher sys = (sys', Normal tt) /\
    (forall k, callbacks_at k sys' = callbacks_at k sys) /\
    map fst (watchers sys') = map fst (watchers sys) /\
    lifecycle sys' = lifecycle sys /\
    (forall k, k ∈ keys -> watching_at k sys') /\
    (forall k, watching_at k sys ->
       subscription_at k sys' = subscription_at k sys).
Proof.
  induction keys as [|key keys IH]; intros sys Hkeys; simpl.
  - exists sys. repeat split; try done.
    intros k Hin. by apply elem_of_nil in Hin.
  - destruct (start_watcher_ok key sys)
      as (sys1 & Hrun1 & Hcb1 & Hw1 & Hl1 & Hon1 & Hother1 & Hsame1).
    { apply get_watcher_is_Some, Hkeys. left. }
    destruct (IH sys1) as (sys2 & Hrun2 & Hcb2 & Hw2 & Hl2 & Hon2 & Hsame2).
    { intros key' Hin. rewrite Hw1. apply Hkeys. by right. }
    assert (forall k, watching_at k sys -> watching_at k sys1) as Hkeep.
    { intros k Hk. destruct (decide (k = key)) as [->|Hne]; [done|].
      unfold watching_at. by rewrite Hother1. }
    exists sys2. unfold Js.bind at 1. rewrite Hrun1.
    split; [done|]. split; [|split; [|split; [|split]]].
    + intros k. by rewrite Hcb2.
    + by rewrite Hw2.
    + by rewrite Hl2.
    + intros k Hin. apply elem_of_cons in Hin as [->|Hin]; [|by apply Hon2].
      unfold watching_at. by rewrite (Hsame2 key Hon1).
    + intros k Hk. rewrite (Hsame2 k (Hkeep k Hk)).
      destruct (decide (k = key)) as [->|Hne]; [by apply Hsame1|].
      by apply Hother1.
Qed.

Lemma stop_watchers_ok keys : forall sys,
  (forall key, key ∈ keys -> key ∈ map fst (watchers sys)) ->
  exists sys',
    Js.for_of keys stop_watcher sys = (sys', Normal tt) /\
    (forall k, callbacks_at k sys' = callbacks_at k sys) /\
    map fst (watchers sys') = map fst (watchers sys) /\
    lifecycle sys' = lifecycle sys /\
    (forall k, k ∈ keys -> stopped_at k sys') /\
    (forall k, stopped_at k sys -> stopped_at k sys').
Proof.
  induction keys as [|key keys IH]; intros sys Hkeys; simpl.
  - exists sys. repeat split; try done.
    intros k Hin. by apply elem_of_nil in Hin.
  - destruct (stop_watcher_ok key sys)
      as (sys1 & Hrun1 & Hcb1 & Hw1 & Hl1 & Hoff1 & Hother1).
    { apply get_watcher_is_Some, Hkeys. left. }
    destruct (IH sys1) as (sys2 & Hrun2 & Hcb2 & Hw2 & Hl2 & Hoff2 & Hkeep2).
    { intros key' Hin. rewrite Hw1. apply Hkeys. by right. }
    exists sys2. unfold Js.bind at 1. rewrite Hrun1.
    split; [done|]. split; [|split; [|split; [|split]]].
    + intros k. by rewrite Hcb2.
    + by rewrite Hw2.
    + by rewrite Hl2.
    + intros k Hin. apply elem_of_cons in Hin as [->|Hin]; [|by apply Hoff2].
      by apply Hkeep2.
    + intros k Hk. apply Hkeep2.
      destruct (decide (k = key)) as [->|Hne]; [done|].
      unfold stopped_at. by rewrite Hother1.
Qed.

(** The manager's log line changes nothing else. *)
Definition announced (msg : string) (sys : System) : System :=
  logger Debug msg [] sys.

Lemma startAll_unregistered configs mgr :
  deregister mgr = false ->
  startAll configs mgr =
    match registerCallbacks configs
            (announced "WatcherManager: startAll" (system mgr)) with
    | (sys1, Normal _) =>
        let '(sys2, r) := all_watchers start_watcher sys1 in
        (mkManager sys2 true, r)
    | (sys1, Abrupt err) => (mkManager sys1 false, Abrupt err)
    end.
Proof.
  intros Hd. unfold startAll, call_deregister, lift, Js.bind, Js.gets,
    Js.modify, Js.ret, announced. simpl. rewrite Hd.
  destruct (registerCallbacks configs _) as [sys1 [[]|err]]; simpl; [|done].
  by destruct (all_watchers start_watcher sys1).
Qed.

Lemma startAll_registered configs mgr :
  deregister mgr = true ->
  startAll configs mgr =
    match cleanup configs
            (announced "WatcherManager: startAll" (system mgr)) with
    | (sys0, Normal _) =>
        match registerCallbacks configs sys0 with
        | (sys1, Normal _) =>
            let '(sys2, r) := all_watchers start_watcher sys1 in
            (mkManager sys2 true, r)
        | (sys1, Abrupt err) => (mkManager sys1 false, Abrupt err)
        end
    | (sys0, Abrupt err) => (mkManager sys0 true, Abrupt err)
    end.
Proof.
  intros Hd. unfold startAll, call_deregister, lift, Js.bind, Js.gets,
    Js.modify, Js.ret, announced. simpl. rewrite Hd.
  destruct (cleanup configs _) as [sys0 [[]|err0]]; simpl; [|done].
  destruct (registerCallbacks configs sys0) as [sys1 [[]|err]]; simpl; [|done].
  by destruct (all_watchers start_watcher sys1).
Qed.

Lemma stopAll_unregistered configs mgr :
  deregister mgr = false ->
  stopAll configs mgr =
    let '(sys1, r) :=
      all_watchers stop_watcher
        (announced "WatcherManager: stopAll" (system mgr)) in
    (mkManager sys1 false, r).
Proof.
  intros Hd. unfold stopAll, call_deregister, lift, Js.bind, Js.gets,
    Js.modify, Js.ret, announced. simpl. rewrite Hd.
  by destruct (all_watchers stop_watcher _) as [sys1 [[]|err]].
Qed.

Lemma stopAll_registered configs mgr :
  deregister mgr = true ->
  stopAll configs mgr =
    match cleanup configs
            (announced "WatcherManager: stopAll" (system mgr)) with
    | (sys0, Normal _) =>
        let '(sys1, r) := all_watchers stop_watcher sys0 in
        (mkManager sys1 false, r)
    | (sys0, Abrupt err) => (mkManager sys0 true, Abrupt err)
    end.
Proof.
  intros Hd. unfold stopAll, call_deregister, lift, Js.bind, Js.gets,
    Js.modify, Js.ret, announced. simpl. rewrite Hd.
  destruct (cleanup configs _) as [sys0 [[]|err0]]; simpl; [|done].
  by destruct (all_watchers stop_watcher sys0) as [sys1 [[]|err]].
Qed.

Lemma all_start_ok sys :
  exists sys',
    all_watchers start_watcher sys = (sys', Normal tt) /\
    (forall k, callbacks_at k sys' = callbacks_at k sys) /\
    map fst (watchers sys') = map fst (watchers sys) /\
    lifecycle sys' = lifecycle sys /\
    (forall k, k ∈ map fst (watchers sys) -> watching_at k sys') /\
    (forall k, watching_at k sys ->
       subscription_at k sys' = subscription_at k sys).
Proof.
  destruct (start_watchers_ok (map fst (watchers sys)) sys) as (sys' & H);
    [done|].
  by exists sys'.
Qed.

Lemma all_stop_ok sys :
  exists sys',
    all_watchers stop_watcher sys = (sys', Normal tt) /\
    (forall k, callbacks_at k sys' = callbacks_at k sys) /\
    map fst (watchers sys') = map fst (watchers sys) /\
    lifecycle sys' = lifecycle sys /\
    (forall k, k ∈ map fst (watchers sys) -> stopped_at k sys').
Proof.
  destruct (stop_watchers_ok (map fst (watchers sys)) sys)
    as (sys' & H1 & H2 & H3 & H4 & H5 & _); [done|].
  by exists sys'.
Qed.



(** X29. When the registration throws inside [startAll], the error leaves
    [startAll] before [deregister] is assigned and before any watcher is
    started. A later [stopAll] therefore has no cleanup to run: it
    removes none of the callbacks registered before the failure and
    disposes no aggregator. *)
Theorem startAll_failed_registration configs mgr sys' err :
  deregister mgr = false ->
  registerCallbacks configs
    (announced "WatcherManager: startAll" (system mgr)) = (sys', Abrupt err) ->
  startAll configs mgr = (mkManager sys' false, Abrupt err) /\
  exists mgr2,
    stopAll configs (mkManager sys' false) = (mgr2, Normal tt) /\
    deregister mgr2 = false /\
    (forall k, callbacks_at k (system mgr2) = callbacks_at k sys') /\
    lifecycle (system mgr2) = lifecycle sys'.
Proof.
  intros Hd Hrun. split.
  - rewrite startAll_unregistered by done. by rewrite Hrun.
  - destruct (all_stop_ok (announced "WatcherManager: stopAll" sys'))
      as (sys2 & Hrun2 & Hcb2 & _ & Hl2 & _).
    exists (mkManager sys2 false). rewrite stopAll_unregistered by done.
    simpl. rewrite Hrun2. repeat split; try done.
Qed.

End RegisterCallbacks.

Arguments mkConfig {U} _ _ _.
Arguments mkSystem {U} _ _ _ _.
Arguments mkWatcher {U} _ _.
Arguments cfg_watchers {U} _.
Arguments cfg_setup {U} _.
Arguments cfg_teardown {U} _.
Arguments watchers {U} _.
Arguments lifecycle {U} _.
Arguments callbacks_at {U} _ _.
Arguments subscription_at {U} _ _.
Arguments registerCallbacks {U} _ _ _ _.
Arguments cleanup {U} _ _ _.
Arguments registrations {U} _ _ _.
Arguments registration_calls {U} _.
Arguments cleanup_calls {U} _.
Arguments called {U} _ _.

(** ** A concrete wiring

    Two watchers [a] and [b]; the config [sum] listens to both and has a
    [setup], the config [log] listens to [a] and has a [teardown]. The
    fan-in of a config files the event in the user state. *)

Definition no_aggregator_state
    : string -> Config (list WatcherEvent) -> list WatcherEvent
      -> list WatcherEvent :=
  fun _ _ u => u.

Definition filing
    : string -> Config (list WatcherEvent)
      -> Watcher.SingleAtomCallback (list WatcherEvent) :=
  fun _ _ event u => (u ++ [event], Returns tt).

Definition quiet_dispose
    : string -> Config (list WatcherEvent) -> (string -> option JsValue)
      -> list WatcherEvent -> list WatcherEvent * Completion unit :=
  fun _ _ _ u => (u, Normal tt).

Definition failing_dispose
    : string -> Config (list WatcherEvent) -> (string -> option JsValue)
      -> list WatcherEvent -> list WatcherEvent * Completion unit :=
  fun name _ _ u =>
    if decide (name = "sum") then (u, Abrupt (JsStr "boom")) else (u, Normal tt).

Definition quiet : list WatcherEvent -> list WatcherEvent * Completion unit :=
  fun u => (u, Normal tt).

Definition sum_config : Config (list WatcherEvent) :=
  mkConfig ["a"; "b"] (Some quiet) None.

Definition log_config : Config (list WatcherEvent) :=
  mkConfig ["a"] None (Some quiet).

Definition late_config : Config (list WatcherEvent) :=
  mkConfig ["b"] None None.

Definition stray_config : Config (list WatcherEvent) :=
  mkConfig ["a"; "missing"; "b"] (Some quiet) None.

Definition two_configs : list (string * Config (list WatcherEvent)) :=
  [("sum", sum_config); ("log", log_config)].

Definition two_watchers : System (list WatcherEvent) :=
  mkSystem
    [("a", mkWatcher "a" (Watcher.blank (JsNum 0)));
     ("b", mkWatcher "b" (Watcher.blank (JsNum 1)))]
    [] [] [].

Ltac each_member :=
  repeat match goal with
  | H : _ ∈ [] |- _ => by apply elem_of_nil in H
  | H : _ ∈ _ :: _ |- _ => apply elem_of_cons in H as [->|H]
  | H : _ ∈ _ ++ _ |- _ => apply elem_of_app in H as [H|H]
  end.

Lemma two_configs_quiet entry :
  entry ∈ two_configs ->
  never_throws (list WatcherEvent) (cfg_setup entry.2) /\
  never_throws (list WatcherEvent) (cfg_teardown entry.2) /\
  dispose_never_throws (list WatcherEvent) quiet_dispose entry.
Proof.
  intros He. unfold two_configs in He. each_member.
  - repeat split; try done; intros g u Hg; simpl in Hg;
      by injection Hg as <-.
  - repeat split; try done; intros g u Hg; simpl in Hg;
      by injection Hg as <-.
Qed.

Lemma two_configs_keys entry key :
  entry ∈ two_configs -> key ∈ cfg_watchers entry.2 ->
  key ∈ map fst (watchers two_watchers).
Proof.
  intros He Hk. unfold two_configs in He. each_member; simpl in Hk;
    each_member; compute_done.
Qed.

Lemma registerCallbacks_appends_registrations_witness :
  exists sys',
    registerCallbacks no_aggregator_state filing two_configs two_watchers =
      (sys', Normal tt) /\
    callbacks_at "a" sys' =
      Some ([] ++ registrations filing "a" two_configs) /\
    subscription_at "a" sys' = subscription_at "a" two_watchers /\
    lifecycle sys' =
      lifecycle two_watchers ++ registration_calls two_configs.
Proof.
  apply (registerCallbacks_appends_registrations (list WatcherEvent)
           no_aggregator_state filing two_configs two_watchers "a" []).
  - compute_done.
  - intros entry He. by apply two_configs_quiet.
  - apply two_configs_keys.
  - reflexivity.
  - intros entry _ Hin. by apply elem_of_nil in Hin.
Defined.

Lemma cleanup_undoes_registerCallbacks_witness :
  exists sys1 sys2,
    registerCallbacks no_aggregator_state filing two_configs two_watchers =
      (sys1, Normal tt) /\
    cleanup quiet_dispose two_configs sys1 = (sys2, Normal tt) /\
    (forall k, callbacks_at k sys2 = callbacks_at k two_watchers) /\
    (forall k, subscription_at k sys2 = subscription_at k two_watchers) /\
    lifecycle sys2 =
      lifecycle two_watchers ++ registration_calls two_configs
        ++ cleanup_calls two_configs.
Proof.
  apply (cleanup_undoes_registerCallbacks (list WatcherEvent)
           no_aggregator_state filing quiet_dispose two_configs two_watchers).
  - compute_done.
  - intros entry He. by apply two_configs_quiet.
  - intros entry He. by apply two_configs_quiet.
  - intros entry He. by apply two_configs_quiet.
  - apply two_configs_keys.
  - intros k m entry Hm _ Hin. unfold callbacks_at, two_watchers in Hm.
    simpl in Hm.
    destruct (decide ("a" = k)); [|destruct (decide ("b" = k))];
      simpl in Hm; try discriminate;
      injection Hm as <-; by apply elem_of_nil in Hin.
Defined.

Lemma registerCallbacks_unknown_watcher_witness :
  exists sys',
    registerCallbacks no_aggregator_state filing
      ([("log", log_config)] ++ [("sum", stray_config)]) two_watchers =
      (sys', Abrupt typeError) /\
    (forall entry k, entry ∈ [("log", log_config)] ->
       k ∈ cfg_watchers entry.2 ->
       exists m', callbacks_at k sys' = Some m' /\
                  makeId entry.1 k ∈ map fst m') /\
    (forall k, k ∈ ["a"] ->
       exists m', callbacks_at k sys' = Some m' /\
                  makeId "sum" k ∈ map fst m') /\
    lifecycle sys' =
      lifecycle two_watchers ++ registration_calls [("log", log_config)]
        ++ called (Setup "sum") (cfg_setup stray_config) ++ [Created "sum"].
Proof.
  apply (registerCallbacks_unknown_watcher (list WatcherEvent)
           no_aggregator_state filing
           [("log", log_config)] "sum" stray_config [] ["a"] "missing" ["b"]
           two_watchers).
  - reflexivity.
  - compute_done.
  - intros entry He g u Hg. each_member. simpl in Hg. done.
  - intros g u Hg. simpl in Hg. by injection Hg as <-.
  - intros entry key He Hk. each_member. simpl in Hk. each_member.
    compute_done.
  - intros key Hk. each_member. compute_done.
Defined.

(** The wiring of three configs, registered. *)
Definition three_configs : list (string * Config (list WatcherEvent)) :=
  [("log", log_config)] ++ ("sum", sum_config) :: [("late", late_config)].

Definition wired : System (list WatcherEvent) :=
  (registerCallbacks no_aggregator_state filing three_configs two_watchers).1.

Lemma cleanup_stops_at_throwing_dispose_witness :
  exists sys',
    cleanup failing_dispose three_configs wired =
      (sys', Abrupt (JsStr "boom")) /\
    (forall entry k m, entry ∈ [("late", late_config)] ->
       callbacks_at k wired = Some m ->
       exists m', callbacks_at k sys' = Some m' /\
         (makeId entry.1 k ∈ map fst m' <-> makeId entry.1 k ∈ map fst m)) /\
    lifecycle sys' =
      lifecycle wired ++ cleanup_calls [("log", log_config)]
        ++ [Disposed "sum"].
Proof.
  apply (cleanup_stops_at_throwing_dispose (list WatcherEvent)
           failing_dispose [("log", log_config)] "sum" sum_config
           [("late", late_config)] (JsStr "boom") wired).
  - compute_done.
  - reflexivity.
  - intros entry He values u. each_member. reflexivity.
  - intros entry He g u Hg. each_member. simpl in Hg. by injection Hg as <-.
  - intros entry key He Hk. each_member; simpl in Hk; each_member;
      compute_done.
Defined.

(** The late config is still registered on [b] after the failed cleanup,
    and [log] and [sum] are gone. *)
Example failed_cleanup_leaves_late_config :
  let sys' := (cleanup failing_dispose three_configs wired).1 in
  map fst <$> callbacks_at "a" wired = Some ["log_a"; "sum_a"] /\
  map fst <$> callbacks_at "b" wired = Some ["sum_b"; "late_b"] /\
  map fst <$> callbacks_at "a" sys' = Some [] /\
  map fst <$> callbacks_at "b" sys' = Some ["late_b"] /\
  lifecycle sys' =
    [Created "log"; Setup "sum"; Created "sum"; Created "late";
     Disposed "log"; TornDown "log"; Disposed "sum"].
Proof. vm_compute. done. Qed.

Arguments mkManager {U} _ _.
Arguments system {U} _.
Arguments deregister {U} _.
Arguments startAll {U} _ _ _ _ _.
Arguments stopAll {U} _ _ _.
Arguments watching_at {U} _ _.
Arguments stopped_at {U} _ _.
Arguments announced {U} _ _.

(** A manager of the two watchers, not started. *)
Definition idle_manager : Manager (list WatcherEvent) :=
  mkManager two_watchers false.

Lemma two_watchers_fresh k m (entry : string * Config (list WatcherEvent)) :
  callbacks_at k two_watchers = Some m -> makeId entry.1 k ∉ map fst m.
Proof.
  intros Hm Hin. unfold callbacks_at, two_watchers in Hm. simpl in Hm.
  destruct (decide ("a" = k)); [|destruct (decide ("b" = k))];
    simpl in Hm; try discriminate;
    injection Hm as <-; by apply elem_of_nil in Hin.
Qed.



(** The wiring whose second config lists a watcher that does not exist. *)
Definition stray_configs : list (string * Config (list WatcherEvent)) :=
  [("log", log_config); ("sum", stray_config)].

Definition half_wired : System (list WatcherEvent) :=
  (registerCallbacks no_aggregator_state filing stray_configs
     (announced "WatcherManager: startAll" two_watchers)).1.

Lemma startAll_failed_registration_witness :
  startAll no_aggregator_state filing quiet_dispose stray_configs idle_manager
    = (mkManager half_wired false, Abrupt typeError) /\
  exists mgr2,
    stopAll quiet_dispose stray_configs (mkManager half_wired false)
      = (mgr2, Normal tt) /\
    deregister mgr2 = false /\
    (forall k, callbacks_at k (system mgr2) = callbacks_at k half_wired) /\
    lifecycle (system mgr2) = lifecycle half_wired.
Proof.
  apply (startAll_failed_registration (list WatcherEvent) no_aggregator_state
           filing quiet_dispose stray_configs idle_manager half_wired
           typeError).
  - reflexivity.
  - reflexivity.
Defined.

(** After the failed [startAll] and a [stopAll], [log] and the first key of
    [sum] are still registered on [a], and no watcher is subscribed. *)
Example failed_startAll_leaves_registrations :
  let mgr2 :=
    (stopAll quiet_dispose stray_configs (mkManager half_wired false)).1 in
  map fst <$> callbacks_at "a" (system mgr2) = Some ["log_a"; "sum_a"] /\
  map fst <$> callbacks_at "b" (system mgr2) = Some [] /\
  subscription_at "a" (system mgr2) = Some (None, []) /\
  lifecycle (system mgr2) = [Created "log"; Setup "sum"; Created "sum"].
Proof. vm_compute. done. Qed.


End Wiring.
